(** * Sort-puzzle solver: flasks, puzzles and the solution search

    A shallow embedding of [src/flask.js], [src/puzzle.js] and
    [src/solver.js] of the sort-puzzle solver bot, together with the
    properties of the solving engine that the design document states.
    The pictures of [src/visualizer.js], the helpers of [src/utils.js] and
    the negative flasks and puzzles of [src/tests/helpers/] follow, with
    further properties that the code has.

    Conventions.
    - A colour layer is a JavaScript number used as a colour index; it is
      modelled as a [Z].  A flask's [_layers] array is a [list Z], bottom
      first, so the top layer is the last element.
    - JavaScript objects that are mutated in place live in a store and are
      passed around as references: [Flask.transfuse] receives two references
      into a store of flasks (they may be the same one), and the search keeps
      references into a heap of [Puzzle] objects.
    - A thrown [Error] is the [Throw] constructor of [result]; a function
      that mutates returns the store together with its [result], so the
      state of the store after a throw is part of the model.
    - The three numeric constants [FlaskCapacity], [DefaultEmptyFlasksNumber]
      and [MaxEmptyFlasksNumber] are imported by the sources from files of
      [src/constants/]; they are parameters of the model, and so are the
      sizes and colours of [src/constants/image-options/]. *)

From Stdlib Require Import ZArith Ascii String.
From stdpp Require Import base tactics option list sorting strings pretty gmap.

(** ** Results of calls that may throw *)

Inductive result (A : Type) : Type :=
| Ok (a : A)
| Throw (message : string).
Arguments Ok {A} a.
Arguments Throw {A} message.

(** ** The MD5 digest of Node's [crypto] module

    [crypto.createHash('md5').update(s).digest('hex')] as RFC 1321 defines
    it, on the bytes of [s].  The searching code only ever compares digests
    for equality. *)

Module MD5.

Local Open Scope Z_scope.

Definition two32 : Z := 4294967296.

Definition add32 (x y : Z) : Z := (x + y) mod two32.

Definition not32 (x : Z) : Z := Z.lxor x (two32 - 1).

Definition rotl32 (x c : Z) : Z :=
  Z.lor (Z.shiftl x c mod two32) (Z.shiftr x (32 - c)).

(** [floor (2^32 * abs (sin (i + 1)))] for [i] from 0 to 63. *)
Definition K : list Z :=
  [ 3614090360; 3905402710; 606105819; 3250441966; 4118548399; 1200080426;
    2821735955; 4249261313; 1770035416; 2336552879; 4294925233; 2304563134;
    1804603682; 4254626195; 2792965006; 1236535329; 4129170786; 3225465664;
    643717713; 3921069994; 3593408605; 38016083; 3634488961; 3889429448;
    568446438; 3275163606; 4107603335; 1163531501; 2850285829; 4243563512;
    1735328473; 2368359562; 4294588738; 2272392833; 1839030562; 4259657740;
    2763975236; 1272893353; 4139469664; 3200236656; 681279174; 3936430074;
    3572445317; 76029189; 3654602809; 3873151461; 530742520; 3299628645;
    4096336452; 1126891415; 2878612391; 4237533241; 1700485571; 2399980690;
    4293915773; 2240044497; 1873313359; 4264355552; 2734768916; 1309151649;
    4149444226; 3174756917; 718787259; 3951481745 ].

(** Per-round left rotations. *)
Definition R : list Z :=
  [ 7; 12; 17; 22; 7; 12; 17; 22; 7; 12; 17; 22; 7; 12; 17; 22;
    5; 9; 14; 20; 5; 9; 14; 20; 5; 9; 14; 20; 5; 9; 14; 20;
    4; 11; 16; 23; 4; 11; 16; 23; 4; 11; 16; 23; 4; 11; 16; 23;
    6; 10; 15; 21; 6; 10; 15; 21; 6; 10; 15; 21; 6; 10; 15; 21 ].

Record state : Type := State { sa : Z; sb : Z; sc : Z; sd : Z }.

Definition init : state :=
  State 1732584193 4023233417 2562383102 271733878.

(** One of the 64 operations of a block: [i] is the operation's index and
    [m] the block's sixteen little-endian words. *)
Definition step (m : list Z) (s : state) (i : nat) : state :=
  let '(State a b c d) := s in
  let iz := Z.of_nat i in
  let '(f, g) :=
    if iz <? 16 then (Z.lor (Z.land b c) (Z.land (not32 b) d), iz)
    else if iz <? 32
         then (Z.lor (Z.land d b) (Z.land (not32 d) c), (5 * iz + 1) mod 16)
    else if iz <? 48 then (Z.lxor b (Z.lxor c d), (3 * iz + 5) mod 16)
    else (Z.lxor c (Z.lor b (not32 d)), (7 * iz) mod 16) in
  let f' := add32 (add32 (add32 f a) (nth i K 0)) (nth (Z.to_nat g) m 0) in
  State d (add32 b (rotl32 f' (nth i R 0))) b c.

Definition block (s : state) (m : list Z) : state :=
  let '(State a b c d) := foldl (step m) s (seq 0 64) in
  State (add32 (sa s) a) (add32 (sb s) b) (add32 (sc s) c) (add32 (sd s) d).

(** The [n] low bytes of [x], least significant first. *)
Fixpoint le_bytes (n : nat) (x : Z) : list Z :=
  match n with
  | O => []
  | S n' => x mod 256 :: le_bytes n' (x / 256)
  end.

Fixpoint le_word (bs : list Z) : Z :=
  match bs with
  | [] => 0
  | b :: bs' => b + 256 * le_word bs'
  end.

(** The message followed by the bit 1, zero bits up to 56 modulo 64 bytes,
    and the message's length in bits on eight bytes. *)
Definition pad (bytes : list Z) : list Z :=
  let len := Z.of_nat (length bytes) in
  let zeros := Z.to_nat ((55 - len) mod 64) in
  bytes ++ [128] ++ replicate zeros 0 ++ le_bytes 8 ((8 * len) mod 2 ^ 64).

(** Cuts [l] into [n] chunks of [k] elements. *)
Fixpoint chunks {A : Type} (k n : nat) (l : list A) : list (list A) :=
  match n with
  | O => []
  | S n' => take k l :: chunks k n' (drop k l)
  end.

Definition blocks (bytes : list Z) : list (list Z) :=
  let p := pad bytes in
  chunks 16 (length p / 64)%nat (le_word <$> chunks 4 (length p / 4)%nat p).

Definition hex_digit (x : Z) : ascii :=
  nth (Z.to_nat x) (list_ascii_of_string "0123456789abcdef") "0"%char.

Definition hex_byte (x : Z) : list ascii := [hex_digit (x / 16); hex_digit (x mod 16)].

Definition bytes_of_string (s : string) : list Z :=
  (fun c => Z.of_N (N_of_ascii c)) <$> list_ascii_of_string s.

Definition hexdigest (s : string) : string :=
  let '(State a b c d) := foldl block init (blocks (bytes_of_string s)) in
  string_of_list_ascii
    (List.concat
       (hex_byte <$> le_bytes 4 a ++ le_bytes 4 b ++ le_bytes 4 c ++ le_bytes 4 d)).

End MD5.

(** ** JavaScript arrays of strings and numbers *)

(** [Array.prototype.join]. *)
Definition join (separator : string) (items : list string) : string :=
  String.concat separator items.

(** [Array.prototype.sort] without a comparator, on an array of strings:
    code units are compared from the left and a proper prefix comes first,
    which is the order [String.le].  Strings that compare equal are the same
    string, so the sorted array does not depend on the sorting algorithm of
    the engine. *)
Definition sort (items : list string) : list string := merge_sort String.le items.

Definition newline : string := String (ascii_of_nat 10) EmptyString.

(** ** [src/flask.js] *)

Module Flask.
Section WithCapacity.

(** [src/constants/flask-capacity.const.js] *)
Variable FlaskCapacity : nat.

(** [new Flask(layers)]: the object's [_layers], or the thrown error. *)
Definition new (layers : list Z) : result (list Z) :=
  if bool_decide (FlaskCapacity < length layers)
  then Throw "Cannot fill flask over it's limit"
  else Ok layers.

Definition copy (_layers : list Z) : result (list Z) := new _layers.

Definition isEmpty (_layers : list Z) : bool := bool_decide (length _layers = 0).

Definition isFull (_layers : list Z) : bool :=
  bool_decide (length _layers = FlaskCapacity).

(** [_layers[0]] is [undefined] on an empty array: [None]. *)
Definition isInFinalState (_layers : list Z) : bool :=
  isEmpty _layers
  || (isFull _layers
      && forallb (fun layer => bool_decide (Some layer = _layers !! 0)) _layers).

Definition toString (_layers : list Z) : string := join "," (pretty <$> _layers).

(** The static methods take two [Flask] objects.  [flasks] is the store the
    objects live in, [sourceFlask] and [destinationFlask] are references
    into it; [_layers.at(-1)] is [last], [None] when it is [undefined]. *)
Definition isTransfusionValid
    (flasks : list (list Z)) (sourceFlask destinationFlask : nat) : bool :=
  if isEmpty (flasks !!! sourceFlask) then false
  else if isFull (flasks !!! destinationFlask) then false
  else if negb (isEmpty (flasks !!! destinationFlask))
          && negb (bool_decide (last (flasks !!! sourceFlask)
                                = last (flasks !!! destinationFlask)))
       then false
  else true.

(** The first loop of [transfuse], from the top layer downwards: counts
    while the layer equals [_layers.at(-1)] and breaks at the first other
    one.  [down] is the array read from its last index to index 0. *)
Fixpoint countWhileSame (top : option Z) (down : list Z) : nat :=
  match down with
  | [] => 0
  | layer :: down' =>
      if bool_decide (Some layer = top) then S (countWhileSame top down') else 0
  end.

Definition layersWithSameColor (_layers : list Z) : nat :=
  countWhileSame (last _layers) (reverse _layers).

(** [destinationFlask._layers.push(sourceFlask._layers.pop())].  The pop is
    done first and the push reads the store after it, which matters when
    both references are the same object.  [pop] on an empty array would
    return [undefined]; [transfuse] never gets there (lemma
    [pour_source_not_empty]), and the store is left as it is. *)
Definition pushPop (flasks : list (list Z)) (sourceFlask destinationFlask : nat)
    : list (list Z) :=
  let source := flasks !!! sourceFlask in
  match last source with
  | None => flasks
  | Some layer =>
      let popped := <[sourceFlask := take (length source - 1) source]> flasks in
      <[destinationFlask := (popped !!! destinationFlask) ++ [layer]]> popped
  end.

(** [n] iterations of the second loop. *)
Fixpoint pour (n : nat) (flasks : list (list Z)) (sourceFlask destinationFlask : nat)
    : list (list Z) :=
  match n with
  | O => flasks
  | S n' => pour n' (pushPop flasks sourceFlask destinationFlask)
              sourceFlask destinationFlask
  end.

Definition transfuse (flasks : list (list Z)) (sourceFlask destinationFlask : nat)
    : list (list Z) * result unit :=
  if negb (isTransfusionValid flasks sourceFlask destinationFlask)
  then (flasks,
        Throw ("Transfusion from [" +:+ toString (flasks !!! sourceFlask)
               +:+ "] to [" +:+ toString (flasks !!! destinationFlask)
               +:+ "] is invalid"))
  else
    let avaliableCapacity : Z :=
      (Z.of_nat FlaskCapacity - Z.of_nat (length (flasks !!! destinationFlask)))%Z in
    let layersWithSameColor := layersWithSameColor (flasks !!! sourceFlask) in
    (pour (Z.to_nat (Z.min avaliableCapacity (Z.of_nat layersWithSameColor)))
          flasks sourceFlask destinationFlask,
     Ok tt).

End WithCapacity.
End Flask.

(** ** [src/puzzle.js] *)

Module Puzzle.
Section WithCapacity.

Variable FlaskCapacity : nat.

(** [new Puzzle(layersMatrix)]: [layersMatrix.map((layers) => new
    Flask(layers))], the object's [_flasks].  The array of a puzzle is the
    store of its flasks, a flask's index its reference: every [Flask] is
    made by the constructor of the one puzzle that holds it. *)
Fixpoint new (layersMatrix : list (list Z)) : result (list (list Z)) :=
  match layersMatrix with
  | [] => Ok []
  | layers :: rest =>
      match Flask.new FlaskCapacity layers with
      | Throw e => Throw e
      | Ok flask =>
          match new rest with
          | Throw e => Throw e
          | Ok flasks => Ok (flask :: flasks)
          end
      end
  end.

(** [copy()] is [new Puzzle(this._flasks.map((flask) => [ ...flask.layers ]))]:
    the [_flasks] of the copy. *)
Definition copy (_flasks : list (list Z)) : result (list (list Z)) := new _flasks.

(** The getter [flasks] is [this._flasks.map((flask) => flask.copy())], and
    [flask.copy()] is [new Flask(this._layers)]. *)
Definition flasks (_flasks : list (list Z)) : result (list (list Z)) := new _flasks.

Definition layersMatrix (_flasks : list (list Z)) : list (list Z) := _flasks.

Definition isSolved (_flasks : list (list Z)) : bool :=
  negb (existsb (fun flask => negb (Flask.isInFinalState FlaskCapacity flask)) _flasks).

(** The two comparisons that the bounds checks make for one index:
    [index < 0 || index >= this._flasks.length]. *)
Definition outOfBounds (_flasks : list (list Z)) (index : Z) : bool :=
  bool_decide (index < 0)%Z || bool_decide (Z.of_nat (length _flasks) <= index)%Z.

Definition isTransfusionValid
    (_flasks : list (list Z)) (sourceFlaskIndex destinationFlaskIndex : Z)
    : result bool :=
  if outOfBounds _flasks sourceFlaskIndex || outOfBounds _flasks destinationFlaskIndex
  then Throw "flask index is out of bounds"
  else if bool_decide (sourceFlaskIndex = destinationFlaskIndex) then Ok false
  else Ok (Flask.isTransfusionValid FlaskCapacity _flasks
             (Z.to_nat sourceFlaskIndex) (Z.to_nat destinationFlaskIndex)).

Definition transfuse
    (_flasks : list (list Z)) (sourceFlaskIndex destinationFlaskIndex : Z)
    : list (list Z) * result unit :=
  if outOfBounds _flasks sourceFlaskIndex || outOfBounds _flasks destinationFlaskIndex
  then (_flasks, Throw "flask index is out of bounds")
  else Flask.transfuse FlaskCapacity _flasks
         (Z.to_nat sourceFlaskIndex) (Z.to_nat destinationFlaskIndex).

Definition toStringWithSort (_flasks : list (list Z)) : string :=
  join newline (sort (Flask.toString <$> _flasks)).

End WithCapacity.
End Puzzle.

(** ** [src/solver.js] *)

Module StackStep.
(** [{ puzzle: Puzzle, transfusions: number[][] }]; [puzzle] is a
    reference into the heap of puzzles. *)
Record t : Type := Build { puzzle : nat; transfusions : list (Z * Z) }.
End StackStep.

Module PriorityQueueStep.
(** [{ puzzle: Puzzle, metric: number, transfusions: number[][] }] *)
Record t : Type := Build { puzzle : nat; metric : Z; transfusions : list (Z * Z) }.
End PriorityQueueStep.

(** The queue of the package [js-priority-queue]: [queue] adds a value and
    [dequeue] removes a value that no other value precedes by the comparator
    (a negative result of [comparator a b] puts [a] first).  Among values
    that the comparator does not separate, the model takes the one queued
    first; the facts proved of the searches use only that [dequeue] takes
    out one of the values queued.  The binary heap of the package can take
    out another of them, and the search on the queue then return other
    transfusions than the model computes: no statement below names the
    transfusions of a solution found with the queue. *)
Module PriorityQueue.
Section WithComparator.

Context {A : Type}.
Variable comparator : A → A → Z.

Definition queue (value : A) (values : list A) : list A := values ++ [value].

Fixpoint dequeue (values : list A) : option (A * list A) :=
  match values with
  | [] => None
  | value :: rest =>
      match dequeue rest with
      | None => Some (value, [])
      | Some (least, rest') =>
          if bool_decide (comparator least value < 0)%Z
          then Some (least, value :: rest')
          else Some (value, rest)
      end
  end.

End WithComparator.
End PriorityQueue.

(** What a run of the solver ends in: [OutOfFuel] stands for a loop that is
    still running after [fuel] iterations, [Finished] carries the heap of
    puzzles the run leaves and the value returned or the error thrown. *)
Inductive outcome (A : Type) : Type :=
| OutOfFuel
| Finished (heap : list (list (list Z))) (r : result A).
Arguments OutOfFuel {A}.
Arguments Finished {A} heap r.

(** The value returned or the error thrown, [None] for a run out of fuel. *)
Definition returned {A : Type} (o : outcome A) : option (result A) :=
  match o with
  | OutOfFuel => None
  | Finished _ r => Some r
  end.

Module Solver.

(** [crypto.createHash('md5').update(puzzle.toStringWithSort()).digest('hex')] *)
Definition fingerprint (_flasks : list (list Z)) : string :=
  MD5.hexdigest (Puzzle.toStringWithSort _flasks).

Section WithConstants.

(** [src/constants/flask-capacity.const.js],
    [src/constants/default-empty-flasks-number.const.js] and
    [src/constants/max-empty-flasks-number.const.js] *)
Variables FlaskCapacity DefaultEmptyFlasksNumber MaxEmptyFlasksNumber : nat.

(** *** Puzzle objects on the heap

    A [Puzzle] object is its [_flasks]; [heap !!! puzzle] reads the object
    behind a reference. *)

(** A constructed object gets the next free reference. *)
Definition allocate (constructed : result (list (list Z)))
    (heap : list (list (list Z))) : list (list (list Z)) * result nat :=
  match constructed with
  | Throw e => (heap, Throw e)
  | Ok _flasks => (heap ++ [_flasks], Ok (length heap))
  end.

(** [new Puzzle(layersMatrix)] *)
Definition newPuzzle (layersMatrix : list (list Z)) (heap : list (list (list Z)))
    : list (list (list Z)) * result nat :=
  allocate (Puzzle.new FlaskCapacity layersMatrix) heap.

(** [puzzle.copy()] *)
Definition copyPuzzle (puzzle : nat) (heap : list (list (list Z)))
    : list (list (list Z)) * result nat :=
  allocate (Puzzle.copy FlaskCapacity (heap !!! puzzle)) heap.

(** [puzzle.transfuse(i, j)] *)
Definition transfusePuzzle (puzzle : nat) (i j : Z) (heap : list (list (list Z)))
    : list (list (list Z)) * result unit :=
  let '(_flasks, r) := Puzzle.transfuse FlaskCapacity (heap !!! puzzle) i j in
  (<[puzzle := _flasks]> heap, r).

(** *** The solution metric *)

(** The inner loop of [calculateSolutionMetric] over one flask: [previous]
    is [flask.layers[i - 1]]. *)
Fixpoint sameAsPrevious (previous : Z) (layers : list Z) : Z :=
  match layers with
  | [] => 0
  | layer :: layers' =>
      ((if bool_decide (layer = previous) then 1 else 0)
       + sameAsPrevious layer layers')%Z
  end.

Definition flaskMetric (layers : list Z) : Z :=
  match layers with
  | [] => 0%Z
  | layer :: layers' => sameAsPrevious layer layers'
  end.

Definition calculateSolutionMetric (_flasks : list (list Z)) : result Z :=
  match Puzzle.flasks FlaskCapacity _flasks with
  | Throw e => Throw e
  | Ok flasks => Ok (foldr (fun flask metric => (flaskMetric flask + metric)%Z) 0%Z flasks)
  end.

(** *** The search shared by the stack and the priority queue *)

Section Search.

(** [Step] is [StackStep] or [PriorityQueueStep], [Frontier] the stack or
    the queue, and [Filter] the state that [preliminaryFilter] closes
    over.  [getStep] is the test [stackOrQueue.length > 0] followed by
    [stackOrQueue[getStep]()]: [None] when the length is 0. *)
Context {Step Frontier Filter : Type}.
Variable step_puzzle : Step → nat.
Variable step_transfusions : Step → list (Z * Z).
Variable getStep : Frontier → option (Step * Frontier).
Variable addStep : Step → Frontier → Frontier.
Variable preliminaryFilter : Filter → Step → bool * Filter.
Variable initializeNextStep :
  Step → nat → Z * Z → list (list (list Z)) → result Step.

Record state : Type := State {
  heap : list (list (list Z));
  stackOrQueue : Frontier;
  visited : gset string;
  filter : Filter
}.

(** How the body of the inner [for] loop is left: [Next] for its end or
    a [continue], [Stop] for the [return] and for a thrown error. *)
Inductive flow : Type :=
| Next (st : state)
| Stop (heap : list (list (list Z))) (r : result (list (Z * Z))).

(** The body of the inner [for] loop, for one pair [(i, j)]. *)
Definition visit (step : Step) (i j : Z) (st : state) : flow :=
  match Puzzle.isTransfusionValid FlaskCapacity (heap st !!! step_puzzle step) i j with
  | Throw e => Stop (heap st) (Throw e)
  | Ok false => Next st
  | Ok true =>
      match copyPuzzle (step_puzzle step) (heap st) with
      | (heap1, Throw e) => Stop heap1 (Throw e)
      | (heap1, Ok state) =>
          match transfusePuzzle state i j heap1 with
          | (heap2, Throw e) => Stop heap2 (Throw e)
          | (heap2, Ok _) =>
              let nextFingerprint := fingerprint (heap2 !!! state) in
              if bool_decide (nextFingerprint ∈ visited st)
              then Next (State heap2 (stackOrQueue st) (visited st) (filter st))
              else
                let visited' := {[nextFingerprint]} ∪ visited st in
                match initializeNextStep step state (i, j) heap2 with
                | Throw e => Stop heap2 (Throw e)
                | Ok nextStep =>
                    if Puzzle.isSolved FlaskCapacity (heap2 !!! step_puzzle nextStep)
                    then Stop heap2 (Ok (step_transfusions nextStep))
                    else
                      let '(admitted, filter') :=
                        preliminaryFilter (filter st) nextStep in
                      Next (State heap2
                              (if admitted
                               then addStep nextStep (stackOrQueue st)
                               else stackOrQueue st)
                              visited' filter')
                end
          end
      end
  end.

(** The two [for] loops over the pairs that are left. *)
Fixpoint expand (step : Step) (pairs : list (Z * Z)) (st : state) : flow :=
  match pairs with
  | [] => Next st
  | (i, j) :: pairs' =>
      match visit step i j st with
      | Next st' => expand step pairs' st'
      | Stop heap' r => Stop heap' r
      end
  end.

(** The pairs in the order of the loops: [i] outside, [j] inside, both
    from 0 up to [step.puzzle.flasks.length].  The source reads that
    length again at every test of a loop; no method of a puzzle changes
    the number of its flasks, and the puzzle of a step is never
    transfused (the copy is), so the model reads it once. *)
Definition pairs (n : nat) : list (Z * Z) :=
  i ← seq 0 n; (fun j => (Z.of_nat i, Z.of_nat j)) <$> seq 0 n.

(** The [while] loop; [undefined] is returned when it ends.  The first
    test [i < step.puzzle.flasks.length] is where the getter [flasks]
    is first called. *)
Fixpoint loop (fuel : nat) (st : state) : outcome (option (list (Z * Z))) :=
  match fuel with
  | O => OutOfFuel
  | S fuel' =>
      match getStep (stackOrQueue st) with
      | None => Finished (heap st) (Ok None)
      | Some (step, rest) =>
          let '(admitted, filter') := preliminaryFilter (filter st) step in
          let st' := State (heap st) rest (visited st) filter' in
          if admitted
          then
            match Puzzle.flasks FlaskCapacity (heap st !!! step_puzzle step) with
            | Throw e => Finished (heap st) (Throw e)
            | Ok flasks =>
                match expand step (pairs (length flasks)) st' with
                | Next st'' => loop fuel' st''
                | Stop heap' (Ok transfusions) => Finished heap' (Ok (Some transfusions))
                | Stop heap' (Throw e) => Finished heap' (Throw e)
                end
            end
          else loop fuel' st'
      end
  end.

Definition solveUsingPriorityQueueOrStack
    (fuel : nat) (puzzle : nat) (stackOrQueue : Frontier) (filter : Filter)
    (heap : list (list (list Z))) : outcome (option (list (Z * Z))) :=
  loop fuel
    (State heap stackOrQueue {[ fingerprint (heap !!! puzzle) ]} filter).

End Search.

(** *** The priority queue *)

Definition comparator (a b : PriorityQueueStep.t) : Z :=
  if bool_decide (length (PriorityQueueStep.transfusions a)
                  ≠ length (PriorityQueueStep.transfusions b))
  then (Z.of_nat (length (PriorityQueueStep.transfusions a))
        - Z.of_nat (length (PriorityQueueStep.transfusions b)))%Z
  else (PriorityQueueStep.metric b - PriorityQueueStep.metric a)%Z.

(** The filter of [solveUsingPriorityQueue]; [metricMap] is the [Map] it
    closes over. *)
Definition metricFilter (maxAllowedMetricDelta : Z)
    (metricMap : gmap nat Z) (step : PriorityQueueStep.t) : bool * gmap nat Z :=
  let moves := length (PriorityQueueStep.transfusions step) in
  match metricMap !! moves with
  | Some maxMetric =>
      if bool_decide (maxMetric > PriorityQueueStep.metric step + maxAllowedMetricDelta)%Z
      then (false, metricMap)
      else if bool_decide (maxMetric < PriorityQueueStep.metric step)%Z
           then (true, <[moves := PriorityQueueStep.metric step]> metricMap)
           else (true, metricMap)
  | None => (true, <[moves := PriorityQueueStep.metric step]> metricMap)
  end.

Definition nextPriorityQueueStep (step : PriorityQueueStep.t) (puzzle : nat)
    (nextTransfusion : Z * Z) (heap : list (list (list Z)))
    : result PriorityQueueStep.t :=
  match calculateSolutionMetric (heap !!! puzzle) with
  | Throw e => Throw e
  | Ok metric =>
      Ok (PriorityQueueStep.Build puzzle metric
            (PriorityQueueStep.transfusions step ++ [nextTransfusion]))
  end.

Definition solveUsingPriorityQueue (fuel : nat) (puzzle : nat)
    (maxAllowedMetricDelta : Z) (heap : list (list (list Z)))
    : outcome (option (list (Z * Z))) :=
  match calculateSolutionMetric (heap !!! puzzle) with
  | Throw e => Finished heap (Throw e)
  | Ok metric =>
      solveUsingPriorityQueueOrStack
        PriorityQueueStep.puzzle PriorityQueueStep.transfusions
        (PriorityQueue.dequeue comparator) (PriorityQueue.queue)
        (metricFilter maxAllowedMetricDelta)
        nextPriorityQueueStep
        fuel puzzle [PriorityQueueStep.Build puzzle metric []] ∅ heap
  end.

(** *** The stack *)

(** [Array.prototype.pop] and [push] on the array that is the stack. *)
Definition pop (stack : list StackStep.t) : option (StackStep.t * list StackStep.t) :=
  match last stack with
  | None => None
  | Some step => Some (step, take (length stack - 1) stack)
  end.

Definition push (step : StackStep.t) (stack : list StackStep.t) : list StackStep.t :=
  stack ++ [step].

Definition nextStackStep (step : StackStep.t) (puzzle : nat)
    (nextTransfusion : Z * Z) (heap : list (list (list Z))) : result StackStep.t :=
  Ok (StackStep.Build puzzle (StackStep.transfusions step ++ [nextTransfusion])).

Definition solveUsingStack (fuel : nat) (puzzle : nat) (heap : list (list (list Z)))
    : outcome (option (list (Z * Z))) :=
  solveUsingPriorityQueueOrStack
    StackStep.puzzle StackStep.transfusions pop push
    (fun (_ : unit) (_ : StackStep.t) => (true, tt))
    nextStackStep
    fuel puzzle [StackStep.Build puzzle []] tt heap.

(** *** The driver *)

(** The [switch] of [solve] on the solving method; the values of
    [SolvingMethod] are the strings ["fastest"], ["balanced"] and
    ["shortest"], and every other value takes the [default] branch. *)
Definition switch (solvingMethod : string) (fuel : nat) (puzzle : nat)
    (heap : list (list (list Z))) : outcome (option (list (Z * Z))) :=
  if String.eqb solvingMethod "shortest"
  then solveUsingPriorityQueue fuel puzzle 1 heap
  else if String.eqb solvingMethod "balanced"
  then solveUsingPriorityQueue fuel puzzle 0 heap
  else solveUsingStack fuel puzzle heap.

(** The [for] loop of [solve] with [iterations] iterations left, [i] being
    the number of empty flasks to try next.  [search] stands for the
    [switch], so that the loop can also be run with another assignment of
    searches to methods.  A solution is an array, which [!!solution] takes
    for true even when it is empty; [undefined] is [None]. *)
Fixpoint solveFrom
    (search : nat → nat → list (list (list Z)) → outcome (option (list (Z * Z))))
    (iterations : nat) (i : nat) (fuel : nat) (layersMatrix : list (list Z))
    (heap : list (list (list Z))) : outcome (option (list (Z * Z)) * nat) :=
  match iterations with
  | O => Finished heap (Ok (None, i))
  | S iterations' =>
      let layersMatrixWithEmptyFlasks := layersMatrix ++ replicate i [] in
      match newPuzzle layersMatrixWithEmptyFlasks heap with
      | (heap1, Throw e) => Finished heap1 (Throw e)
      | (heap1, Ok puzzle) =>
          match search fuel puzzle heap1 with
          | OutOfFuel => OutOfFuel
          | Finished heap2 (Throw e) => Finished heap2 (Throw e)
          | Finished heap2 (Ok (Some solution)) => Finished heap2 (Ok (Some solution, i))
          | Finished heap2 (Ok None) =>
              solveFrom search iterations' (S i) fuel layersMatrix heap2
          end
      end
  end.

(** [solve(layersMatrix, solvingMethod)]: the loop runs for [i] from
    [DefaultEmptyFlasksNumber] while [i <= MaxEmptyFlasksNumber]. *)
Definition solveWith
    (search : nat → nat → list (list (list Z)) → outcome (option (list (Z * Z))))
    (fuel : nat) (layersMatrix : list (list Z))
    : outcome (option (list (Z * Z)) * nat) :=
  solveFrom search (S MaxEmptyFlasksNumber - DefaultEmptyFlasksNumber)
    DefaultEmptyFlasksNumber fuel layersMatrix [].

Definition solve (fuel : nat) (layersMatrix : list (list Z)) (solvingMethod : string)
    : outcome (option (list (Z * Z)) * nat) :=
  solveWith (switch solvingMethod) fuel layersMatrix.

End WithConstants.
End Solver.

(** ** Replaying a solution

    [solution.reduce((puzzle, transfusion) => { puzzle.transfuse(...transfusion);
    return puzzle; }, new Puzzle(...))] of the solver's tests, which is also
    the loop of [visualizeSolution]: the transfusions are applied in order to
    one puzzle, up to the first that throws. *)
Fixpoint replay (FlaskCapacity : nat) (_flasks : list (list Z))
    (transfusions : list (Z * Z)) : list (list Z) * result unit :=
  match transfusions with
  | [] => (_flasks, Ok tt)
  | (i, j) :: rest =>
      match Puzzle.transfuse FlaskCapacity _flasks i j with
      | (_flasks', Ok _) => replay FlaskCapacity _flasks' rest
      | (_flasks', Throw e) => (_flasks', Throw e)
      end
  end.

(** ** [src/tests/helpers/negative-flask.js] and [negative-puzzle.js]

    The flasks and puzzles that the tests' generator tangles a solved
    puzzle with.  [NegativeFlask] extends [Flask]: constructor, [isEmpty],
    [isFull] and [toString] are those of [Flask]. *)

Module NegativeFlask.
Section WithCapacity.

Variable FlaskCapacity : nat.

Definition copy (_layers : list Z) : result (list Z) := Flask.new FlaskCapacity _layers.

Definition isInFinalState (_layers : list Z) : bool :=
  Flask.isEmpty _layers || Flask.isFull FlaskCapacity _layers.

(** [_layers.at(index)]: a negative index counts back from the end, and
    an index outside the array gives [undefined], which is [None]. *)
Definition at_ (_layers : list Z) (index : Z) : option Z :=
  let k := if bool_decide (index < 0)%Z
           then (Z.of_nat (length _layers) + index)%Z
           else index in
  if bool_decide (k < 0)%Z then None else _layers !! Z.to_nat k.

(** [transfusingLayersNumber] is an integer: the generator draws it with
    [getRandomIntInclusive] or counts it down from a length. *)
Definition isTransfusionValid (flasks : list (list Z))
    (sourceFlask destinationFlask : nat) (transfusingLayersNumber : Z) : bool :=
  let source := flasks !!! sourceFlask in
  let destination := flasks !!! destinationFlask in
  if Flask.isEmpty source then false
  else if Flask.isFull FlaskCapacity destination then false
  else if bool_decide (transfusingLayersNumber <= 0)%Z
          || bool_decide (transfusingLayersNumber > Z.of_nat (length source))%Z
          || bool_decide (transfusingLayersNumber
                          > Z.of_nat FlaskCapacity - Z.of_nat (length destination))%Z
       then false
  else if bool_decide (Z.of_nat (length source) > transfusingLayersNumber)%Z
          && negb (bool_decide (at_ source (- (transfusingLayersNumber + 1))
                                = at_ source (- transfusingLayersNumber)))
       then false
  else true.

(** The loop runs [transfusingLayersNumber] times, each time the
    [push(pop())] of [Flask.transfuse]. *)
Definition transfuse (flasks : list (list Z))
    (sourceFlask destinationFlask : nat) (transfusingLayersNumber : Z)
    : list (list Z) * result unit :=
  if negb (isTransfusionValid flasks sourceFlask destinationFlask transfusingLayersNumber)
  then (flasks,
        Throw ("Transfusion of " +:+ pretty transfusingLayersNumber
               +:+ " layers from [" +:+ Flask.toString (flasks !!! sourceFlask)
               +:+ "] to [" +:+ Flask.toString (flasks !!! destinationFlask)
               +:+ "] is invalid"))
  else (Flask.pour (Z.to_nat transfusingLayersNumber) flasks sourceFlask destinationFlask,
        Ok tt).

End WithCapacity.
End NegativeFlask.

Module NegativePuzzle.
Section WithCapacity.

Variable FlaskCapacity : nat.

(** [isSolved] is inherited from [Puzzle] and asks each flask for its own
    [isInFinalState], which is that of [NegativeFlask]. *)
Definition isSolved (_flasks : list (list Z)) : bool :=
  negb (existsb (fun flask => negb (NegativeFlask.isInFinalState FlaskCapacity flask))
          _flasks).

Definition isTransfusionValid (_flasks : list (list Z))
    (sourceFlaskIndex destinationFlaskIndex transfusingLayersNumber : Z)
    : result bool :=
  if Puzzle.outOfBounds _flasks sourceFlaskIndex
     || Puzzle.outOfBounds _flasks destinationFlaskIndex
  then Throw "Flask index is out of bounds"
  else if bool_decide (sourceFlaskIndex = destinationFlaskIndex) then Ok false
  else Ok (NegativeFlask.isTransfusionValid FlaskCapacity _flasks
             (Z.to_nat sourceFlaskIndex) (Z.to_nat destinationFlaskIndex)
             transfusingLayersNumber).

(** Unlike [Puzzle.transfuse], this one returns at once when both
    indices are the same. *)
Definition transfuse (_flasks : list (list Z))
    (sourceFlaskIndex destinationFlaskIndex transfusingLayersNumber : Z)
    : list (list Z) * result unit :=
  if Puzzle.outOfBounds _flasks sourceFlaskIndex
     || Puzzle.outOfBounds _flasks destinationFlaskIndex
  then (_flasks, Throw "flask index is out of bounds")
  else if bool_decide (sourceFlaskIndex = destinationFlaskIndex) then (_flasks, Ok tt)
  else NegativeFlask.transfuse FlaskCapacity _flasks
         (Z.to_nat sourceFlaskIndex) (Z.to_nat destinationFlaskIndex)
         transfusingLayersNumber.

End WithCapacity.
End NegativePuzzle.

(** ** [src/utils.js] *)

Module Utils.

(** [pluralPipe(number, declensions)] for an integer [number]; [%] is the
    remainder that takes the sign of the dividend, [Z.rem], and
    [declensions[i]] is [None] when it is [undefined]. *)
Definition pluralPipe (number : Z) (declensions : list string) : option string :=
  if bool_decide (Z.rem number 10 = 1)%Z && negb (bool_decide (Z.rem number 100 = 11)%Z)
  then declensions !! 0
  else if bool_decide (Z.rem number 10 >= 2)%Z && bool_decide (Z.rem number 10 <= 4)%Z
          && (bool_decide (Z.rem number 100 < 10)%Z
              || bool_decide (Z.rem number 100 >= 20)%Z)
       then declensions !! 1
  else declensions !! 2.

(** [numbersAndRangesToNumbers(numbersAndRanges)].  A string is the list
    of its characters; every character that matters is ASCII.  A number is
    an integer or [NaN], which is [None]; the integers of the model are
    those of JavaScript as long as no run of digits of the text is longer
    than 15 digits. *)

Definition isDigit (c : ascii) : bool :=
  (48 <=? nat_of_ascii c)%nat && (nat_of_ascii c <=? 57)%nat.

Definition isDash (c : ascii) : bool := Ascii.eqb c "-".

(** [numbersAndRanges.split(/[^-\d]+/)]: the pieces between the longest
    runs of characters that are neither [-] nor a digit.  [piece] is the
    piece being read, [inSeparator] tells that the character before was of
    a separator. *)
Fixpoint split (chars : list ascii) (piece : list ascii) (inSeparator : bool)
    : list (list ascii) :=
  match chars with
  | [] => [piece]
  | c :: chars' =>
      if isDash c || isDigit c then split chars' (piece ++ [c]) false
      else if inSeparator then split chars' piece true
      else piece :: split chars' [] true
  end.

(** The function given to [reduce]. *)
Definition merge (accum : list (list ascii)) (curr : list ascii)
    : list (list ascii) :=
  match last accum with
  | None => accum ++ [curr]
  | Some top =>
      if bool_decide (curr = ["-"%char])
      then take (length accum - 1) accum ++ [top ++ ["-"%char]]
      else if bool_decide (last top = Some "-"%char)
      then take (length accum - 1) accum ++ [top ++ curr]
      else accum ++ [curr]
  end.

Definition digitValue (c : ascii) : Z := (Z.of_nat (nat_of_ascii c) - 48)%Z.

Fixpoint digitsValue (value : Z) (chars : list ascii) : Z :=
  match chars with
  | [] => value
  | c :: chars' =>
      if isDigit c then digitsValue (10 * value + digitValue c)%Z chars' else value
  end.

(** [parseInt(string)] on the strings it is given here, which hold no
    character but digits: the number that the digits at the start spell,
    [NaN] when there is none. *)
Definition parseInt (chars : list ascii) : option Z :=
  match chars with
  | [] => None
  | c :: _ => if isDigit c then Some (digitsValue 0 chars) else None
  end.

(** [numberOrRange.split('-')] *)
Fixpoint splitDash (chars : list ascii) (piece : list ascii) : list (list ascii) :=
  match chars with
  | [] => [piece]
  | c :: chars' =>
      if isDash c then piece :: splitDash chars' [] else splitDash chars' (piece ++ [c])
  end.

(** The function given to [flatMap].  [!start] is true of [NaN] and of 0;
    [new Array(n)] throws a [RangeError] for a length that is negative or
    above [2^32 - 1]. *)
Definition expand (numberOrRange : list ascii) : result (list (option Z)) :=
  if negb (existsb isDash numberOrRange)
  then Ok [parseInt numberOrRange]
  else
    let numbers := parseInt <$> splitDash numberOrRange [] in
    match numbers !! 0, numbers !! 1 with
    | Some (Some start), Some (Some finish) =>
        if bool_decide (start = 0)%Z || bool_decide (finish = 0)%Z then Ok []
        else
          let n := (finish - start + 1)%Z in
          if bool_decide (n < 0)%Z || bool_decide (4294967295 < n)%Z
          then Throw "Invalid array length"
          else Ok ((λ i, Some (start + Z.of_nat i)%Z) <$> seq 0 (Z.to_nat n))
    | _, _ => Ok []
    end.

(** [array.flatMap(f)] for an [f] that can throw. *)
Fixpoint flatMap {A B : Type} (f : A → result (list B)) (items : list A)
    : result (list B) :=
  match items with
  | [] => Ok []
  | item :: items' =>
      match f item with
      | Throw e => Throw e
      | Ok values =>
          match flatMap f items' with
          | Throw e => Throw e
          | Ok values' => Ok (values ++ values')
          end
      end
  end.

(** The pieces that are left after [filter], merged by [reduce]. *)
Definition numbersOrRanges (numbersAndRanges : string) : list (list ascii) :=
  foldl merge []
    (List.filter (λ piece, negb (bool_decide (piece = [])))
       (split (list_ascii_of_string numbersAndRanges) [] false)).

(** [?.] gives [undefined], here [None], for a text that is [undefined]. *)
Definition numbersAndRangesToNumbers (numbersAndRanges : option string)
    : option (result (list (option Z))) :=
  match numbersAndRanges with
  | None => None
  | Some text => Some (flatMap expand (numbersOrRanges text))
  end.

End Utils.

(** ** [src/visualizer.js]

    The canvas comes from the package [canvas]; the model keeps the size it
    is created with and the calls made on its 2D context, in order, which
    is what [canvas.toBuffer()] encodes.  Numbers are integers. *)

Module Visualizer.

(** [ctx.fillStyle = style], [ctx.fillRect(0, 0, canvas.width,
    canvas.height)] and [ctx.fillRect(x, y, w, h)]. *)
Inductive call : Type :=
| SetFillStyle (style : string)
| FillCanvas
| FillRect (x y w h : Z).

(** [width] is [None] when the number given to [createCanvas] is not
    finite. *)
Record canvas : Type := Canvas {
  width : option Z;
  height : Z;
  calls : list call
}.

(** [{ rowsNumber, flasksInRows }] *)
Record imageData : Type := ImageData {
  rowsNumber : Z;
  flasksInRows : list Z
}.

(** [Math.max(...values)]: [-Infinity], here [None], for no value. *)
Definition mathMax (values : list Z) : option Z :=
  match values with
  | [] => None
  | value :: values' => Some (foldr Z.max value values')
  end.

(** The values that a counter takes from 0 while it is below [n]. *)
Definition upTo (n : Z) : list Z := Z.of_nat <$> seq 0 (Z.to_nat n).

(** The values of [j] in [for (let j = 0; j < flasksInRows[i]; ++j)]:
    none when [flasksInRows[i]] is [undefined]. *)
Definition row (flasksInRows : list Z) (i : Z) : list Z :=
  match flasksInRows !! Z.to_nat i with
  | Some flasks => upTo flasks
  | None => []
  end.

(** The pairs [(i, j)] in the order of the two loops that both functions
    have. *)
Definition slots (rowsNumber : Z) (flasksInRows : list Z) : list (Z * Z) :=
  i ← upTo rowsNumber; (λ j, (i, j)) <$> row flasksInRows i.

Section WithConstants.

(** [src/constants/image-options/*.const.js] and
    [src/constants/flask-capacity.const.js] *)
Variables SquareSide FlasksMargin FlaskBorderWidth : Z.
Variables BackgroundColor FlaskBorderColor : string.
Variable FlaskCapacity : nat.

Local Open Scope Z_scope.

(** The three [fillRect] of one flask: left border, right border, bottom. *)
Definition flaskBorders (slot : Z * Z) : list call :=
  let '(i, j) := slot in
  [ FillRect
      (j * SquareSide + (j + 1) * FlasksMargin + j * 2 * FlaskBorderWidth)
      (i * Z.of_nat FlaskCapacity * SquareSide + (i + 1) * FlasksMargin
       + i * FlaskBorderWidth)
      FlaskBorderWidth
      (Z.of_nat FlaskCapacity * SquareSide + FlaskBorderWidth);
    FillRect
      (j * SquareSide + (j + 1) * FlasksMargin + j * 2 * FlaskBorderWidth
       + SquareSide + FlaskBorderWidth)
      (i * Z.of_nat FlaskCapacity * SquareSide + (i + 1) * FlasksMargin
       + i * FlaskBorderWidth)
      FlaskBorderWidth
      (Z.of_nat FlaskCapacity * SquareSide + FlaskBorderWidth);
    FillRect
      (j * SquareSide + (j + 1) * FlasksMargin + j * 2 * FlaskBorderWidth)
      (i * Z.of_nat FlaskCapacity * SquareSide + (i + 1) * FlasksMargin
       + i * FlaskBorderWidth + Z.of_nat FlaskCapacity * SquareSide)
      (SquareSide + 2 * FlaskBorderWidth)
      FlaskBorderWidth ].

(** [prepareImage(rowsNumber, flasksInRows)]: the canvas, whose context
    is the second value returned. *)
Definition prepareImage (rowsNumber : Z) (flasksInRows : list Z) : canvas :=
  let flasksInRow := mathMax flasksInRows in
  Canvas
    (match flasksInRow with
     | None => None
     | Some flasksInRow =>
         Some (flasksInRow * SquareSide + (flasksInRow + 1) * FlasksMargin
               + flasksInRow * 2 * FlaskBorderWidth)
     end)
    (rowsNumber * Z.of_nat FlaskCapacity * SquareSide + (rowsNumber + 1) * FlasksMargin
     + rowsNumber * FlaskBorderWidth)
    ([SetFillStyle ("rgb(" +:+ BackgroundColor +:+ ")"); FillCanvas;
      SetFillStyle ("rgb(" +:+ FlaskBorderColor +:+ ")")]
     ++ (slots rowsNumber flasksInRows ≫= flaskBorders)).

(** [`rgb(${colors[layer]})`]; [colors[layer]] is [undefined] for a layer
    that is no index of [colors]. *)
Definition fillStyle (colors : list string) (layer : Z) : string :=
  "rgb("
  +:+ (if bool_decide (layer < 0) then "undefined"
       else default "undefined" (colors !! Z.to_nat layer))
  +:+ ")".

(** The innermost loop of [fullfillImage], over the layers of one flask. *)
Definition flaskLayers (colors : list string) (slot : Z * Z) (layers : list Z)
    : list call :=
  let '(i, j) := slot in
  mjoin (imap (λ (layerIndex : nat) (layer : Z),
                 [ SetFillStyle (fillStyle colors layer);
                   FillRect
                     (j * SquareSide + (j + 1) * FlasksMargin
                      + (j * 2 + 1) * FlaskBorderWidth)
                     (((Z.of_nat FlaskCapacity - Z.of_nat layerIndex - 1)
                       + Z.of_nat FlaskCapacity * i) * SquareSide
                      + (i + 1) * FlasksMargin + i * FlaskBorderWidth)
                     SquareSide SquareSide ])
           layers).

(** The two outer loops of [fullfillImage] over the slots that are left,
    [flaskIndex] counting them: the calls made, and the [TypeError] of
    [layersMatrix[flaskIndex].length] when the matrix has no such flask. *)
Fixpoint fill (colors : list string) (layersMatrix : list (list Z))
    (slots : list (Z * Z)) (flaskIndex : nat) : list call * result unit :=
  match slots with
  | [] => ([], Ok tt)
  | slot :: slots' =>
      match layersMatrix !! flaskIndex with
      | None => ([], Throw "Cannot read properties of undefined (reading 'length')")
      | Some layers =>
          let '(more, r) := fill colors layersMatrix slots' (S flaskIndex) in
          (flaskLayers colors slot layers ++ more, r)
      end
  end.

(** [fullfillImage(rowsNumber, flasksInRows, layersMatrix, colors, ctx)],
    [ctx] being the context of [image]. *)
Definition fullfillImage (rowsNumber : Z) (flasksInRows : list Z)
    (layersMatrix : list (list Z)) (colors : list string) (image : canvas)
    : canvas * result unit :=
  let '(more, r) := fill colors layersMatrix (slots rowsNumber flasksInRows) 0%nat in
  (Canvas (width image) (height image) (calls image ++ more), r).

(** [prepareImage] followed by [fullfillImage] and [canvas.toBuffer()]. *)
Definition draw (data : imageData) (layersMatrix : list (list Z))
    (colors : list string) : result canvas :=
  match fullfillImage (rowsNumber data) (flasksInRows data) layersMatrix colors
          (prepareImage (rowsNumber data) (flasksInRows data)) with
  | (image, Ok _) => Ok image
  | (_, Throw e) => Throw e
  end.

(** The loop of [visualizeSolution] over the transfusions that are left. *)
Fixpoint frames (data : imageData) (colors : list string)
    (_flasks : list (list Z)) (solution : list (Z * Z)) (images : list canvas)
    : result (list canvas) :=
  match solution with
  | [] => Ok images
  | (i, j) :: solution' =>
      match Puzzle.transfuse FlaskCapacity _flasks i j with
      | (_, Throw e) => Throw e
      | (_flasks', Ok _) =>
          match draw data (Puzzle.layersMatrix _flasks') colors with
          | Throw e => Throw e
          | Ok image => frames data colors _flasks' solution' (images ++ [image])
          end
      end
  end.

(** [visualizeSolution(solution, layersMatrix, colors, imageData,
    requiredEmptyFlasksNumber)].  The first statement changes the object
    [imageData] of the caller, which is returned here with the images; on
    an empty [flasksInRows] it sets the property [-1], which is no element
    of the array. *)
Definition visualizeSolution (solution : list (Z * Z)) (layersMatrix : list (list Z))
    (colors : list string) (data : imageData) (requiredEmptyFlasksNumber : Z)
    : imageData * result (list canvas) :=
  let data' :=
    ImageData (rowsNumber data)
      (match last (flasksInRows data) with
       | None => flasksInRows data
       | Some flasks =>
           <[(length (flasksInRows data) - 1)%nat := flasks + requiredEmptyFlasksNumber]>
             (flasksInRows data)
       end) in
  match Puzzle.new FlaskCapacity layersMatrix with
  | Throw e => (data', Throw e)
  | Ok puzzle =>
      match draw data' (Puzzle.layersMatrix puzzle) colors with
      | Throw e => (data', Throw e)
      | Ok image => (data', frames data' colors puzzle solution [image])
      end
  end.

End WithConstants.
End Visualizer.

(** * Notions used in the statements and in the proofs *)

(** The number of layers moved by a legal [Flask.transfuse]: the number of
    iterations of its second loop. *)
Definition poured (FlaskCapacity : nat) (source destination : list Z) : nat :=
  Z.to_nat (Z.min (Z.of_nat FlaskCapacity - Z.of_nat (length destination))
                  (Z.of_nat (Flask.layersWithSameColor source))).

(** The transfusions replay on [start] without a throw and end in a solved
    puzzle. *)
Definition solves (FlaskCapacity : nat) (start : list (list Z))
    (transfusions : list (Z * Z)) : Prop :=
  ∃ final,
    replay FlaskCapacity start transfusions = (final, Ok tt)
    ∧ Puzzle.isSolved FlaskCapacity final = true.

(** The number of layers of a puzzle. *)
Definition layerCount (flasks : list (list Z)) : nat := sum_list_with length flasks.

(** All lists of [n] elements of [xs]. *)
Fixpoint tuples {T : Type} (xs : list T) (n : nat) : list (list T) :=
  match n with
  | O => [[]]
  | S n' => x ← xs; (x ::.) <$> tuples xs n'
  end.

Section SearchNotions.

Variable FlaskCapacity : nat.
Context {Step Frontier Filter : Type}.
Variable step_puzzle : Step → nat.
Variable step_transfusions : Step → list (Z * Z).

(** The steps that a stack or a queue holds. *)
Variable elements : Frontier → list Step.

(** The flasks of the puzzle a search starts from. *)
Variable start : list (list Z).

(** Puzzles with the flasks of [start] rearranged: as many flasks, none
    over the capacity, made of layers of [start]. *)
Definition within (flasks : list (list Z)) : Prop :=
  length flasks = length start
  ∧ Forall (λ flask, length flask ≤ FlaskCapacity) flasks
  ∧ Forall (λ flask, flask ⊆ mjoin start) flasks.

(** There are finitely many of them, and so of their fingerprints. *)
Definition universe : list (list (list Z)) :=
  tuples (n ← seq 0 (S FlaskCapacity); tuples (mjoin start) n) (length start).

Definition fingerprints : gset string :=
  list_to_set (Solver.fingerprint <$> universe).

(** A step is sound in a heap when its puzzle is an object of the heap and
    is what replaying its transfusions from [start] gives. *)
Definition sound (heap : list (list (list Z))) (step : Step) : Prop :=
  step_puzzle step < length heap
  ∧ within (heap !!! step_puzzle step)
  ∧ replay FlaskCapacity start (step_transfusions step)
    = (heap !!! step_puzzle step, Ok tt).

Definition invariant (st : @Solver.state Frontier Filter) : Prop :=
  Forall (sound (Solver.heap st)) (elements (Solver.stackOrQueue st)).

(** Fingerprints not yet visited plus steps waiting: what is left to do. *)
Definition potential (st : @Solver.state Frontier Filter) : nat :=
  length (elements (Solver.stackOrQueue st))
  + size (fingerprints ∖ Solver.visited st).

End SearchNotions.

(** What the searches have in common, stated once for [run], a search
    started on the object [puzzle] of [heap]: out of fuel only below a bound
    that the puzzle gives, no throw, a heap that extends the one it started
    with, and a solution that solves the puzzle. *)
Definition searches (FlaskCapacity : nat)
    (run : nat → nat → list (list (list Z)) → outcome (option (list (Z * Z))))
    : Prop :=
  ∀ fuel puzzle heap,
    puzzle < length heap →
    Forall (λ flask, length flask ≤ FlaskCapacity) (heap !!! puzzle) →
    match run fuel puzzle heap with
    | OutOfFuel => fuel ≤ 1 + size (fingerprints FlaskCapacity (heap !!! puzzle))
    | Finished heap' (Ok solution) =>
        heap `prefix_of` heap'
        ∧ ∀ transfusions,
            solution = Some transfusions →
            solves FlaskCapacity (heap !!! puzzle) transfusions
    | Finished heap' (Throw _) => False
    end.

(** Enough fuel for a search on the matrix with [e] empty flasks. *)
Definition enough (FlaskCapacity : nat) (layersMatrix : list (list Z)) (e : nat) : nat :=
  2 + size (fingerprints FlaskCapacity (layersMatrix ++ replicate e [])).

(** The puzzles that a replay passes through after [flasks], in order. *)
Fixpoint path (FlaskCapacity : nat) (flasks : list (list Z))
    (transfusions : list (Z * Z)) : list (list (list Z)) :=
  match transfusions with
  | [] => []
  | (i, j) :: rest =>
      let flasks' := (Puzzle.transfuse FlaskCapacity flasks i j).1 in
      flasks' :: path FlaskCapacity flasks' rest
  end.

(** Every transfusion of the list is one that [Puzzle.isTransfusionValid]
    returns true for on the puzzle it is applied to. *)
Fixpoint legal (FlaskCapacity : nat) (flasks : list (list Z))
    (transfusions : list (Z * Z)) : bool :=
  match transfusions with
  | [] => true
  | (i, j) :: rest =>
      match Puzzle.isTransfusionValid FlaskCapacity flasks i j with
      | Ok true => legal FlaskCapacity (Puzzle.transfuse FlaskCapacity flasks i j).1 rest
      | _ => false
      end
  end.

(** What a search promises of the solutions it returns: [good start
    transfusions] for the puzzle [start] it was started on. *)
Definition finds (FlaskCapacity : nat)
    (good : list (list Z) → list (Z * Z) → Prop)
    (run : nat → nat → list (list (list Z)) → outcome (option (list (Z * Z))))
    : Prop :=
  ∀ fuel puzzle heap heap' transfusions,
    puzzle < length heap →
    Forall (λ flask, length flask ≤ FlaskCapacity) (heap !!! puzzle) →
    run fuel puzzle heap = Finished heap' (Ok (Some transfusions)) →
    good (heap !!! puzzle) transfusions.

(** A solution as the search builds it: at least one transfusion, each one
    legal at its turn, and no puzzle on the way with the fingerprint of
    another. *)
Definition direct (FlaskCapacity : nat) (start : list (list Z))
    (transfusions : list (Z * Z)) : Prop :=
  transfusions ≠ []
  ∧ legal FlaskCapacity start transfusions = true
  ∧ NoDup (Solver.fingerprint <$> start :: path FlaskCapacity start transfusions).

(** The [metricMap] of [solveUsingPriorityQueue] after its filter has been
    called on [steps], one after the other. *)
Definition metricMapAfter (maxAllowedMetricDelta : Z)
    (steps : list PriorityQueueStep.t) : gmap nat Z :=
  foldl (λ metricMap step,
           (Solver.metricFilter maxAllowedMetricDelta metricMap step).2) ∅ steps.

(** The sum that [calculateSolutionMetric] returns. *)
Definition metricOf (flasks : list (list Z)) : Z :=
  foldr (λ flask metric, (Solver.flaskMetric flask + metric)%Z) 0%Z flasks.

Section PathNotions.

Variable FlaskCapacity : nat.
Context {Step Frontier Filter : Type}.
Variable step_puzzle : Step → nat.
Variable step_transfusions : Step → list (Z * Z).
Variable elements : Frontier → list Step.
Variable start : list (list Z).

(** The transfusions of a step are legal, and the puzzles they pass
    through have fingerprints that differ and are all visited. *)
Definition trodden (visited : gset string) (step : Step) : Prop :=
  legal FlaskCapacity start (step_transfusions step) = true
  ∧ NoDup (Solver.fingerprint
           <$> start :: path FlaskCapacity start (step_transfusions step))
  ∧ ∀ flasks,
      flasks ∈ start :: path FlaskCapacity start (step_transfusions step) →
      Solver.fingerprint flasks ∈ visited.

(** Every step waiting on the stack or in the queue is sound and trodden. *)
Definition waiting (st : @Solver.state Frontier Filter) : Prop :=
  Forall (λ step, sound FlaskCapacity step_puzzle step_transfusions start
                    (Solver.heap st) step
                  ∧ trodden (Solver.visited st) step)
    (elements (Solver.stackOrQueue st)).

End PathNotions.

(** A character of a number or a range. *)
Definition isTokenChar (c : ascii) : bool := Utils.isDash c || Utils.isDigit c.

(** A text none of whose runs of digits is longer than 15 digits: its
    numbers are below [2^53], where the integers of JavaScript are exact. *)
Definition exact (numbersAndRanges : string) : Prop :=
  Forall (λ piece, Forall (λ digits, length digits ≤ 15) (Utils.splitDash piece []))
    (Utils.split (list_ascii_of_string numbersAndRanges) [] false).

(** The characters of the decimal numeral of a natural number. *)
Definition numeral (n : N) : list ascii := list_ascii_of_string (pretty n).

(** A text that [split] takes for a separator, or for none when it is
    empty. *)
Definition separates (text : string) : Prop :=
  Forall (λ c, isTokenChar c = false) (list_ascii_of_string text).

(** * Facts *)

(** ** Flasks *)

Section FlaskFacts.

Variable FlaskCapacity : nat.
Implicit Types (flasks : list (list Z)) (layers body tops : list Z).

Lemma take_pred_snoc layers (x : Z) :
  take (length (layers ++ [x]) - 1) (layers ++ [x]) = layers.
Proof.
  rewrite length_app. simpl.
  replace (length layers + 1 - 1) with (length layers) by lia.
  apply take_app_length.
Qed.

Lemma pushPop_distinct flasks s d body x dst :
  s ≠ d → flasks !! s = Some (body ++ [x]) → flasks !! d = Some dst →
  Flask.pushPop flasks s d = <[d := dst ++ [x]]> (<[s := body]> flasks).
Proof.
  intros Hne Hs Hd. unfold Flask.pushPop.
  rewrite (list_lookup_total_correct _ _ _ Hs), last_snoc, take_pred_snoc.
  rewrite list_lookup_total_insert_ne by done.
  by rewrite (list_lookup_total_correct _ _ _ Hd).
Qed.

Lemma pushPop_same flasks s body x :
  flasks !! s = Some (body ++ [x]) → Flask.pushPop flasks s s = flasks.
Proof.
  intros Hs. unfold Flask.pushPop.
  rewrite (list_lookup_total_correct _ _ _ Hs), last_snoc, take_pred_snoc.
  rewrite list_lookup_total_insert_eq by (by eapply lookup_lt_Some).
  rewrite list_insert_insert_eq. by apply list_insert_id.
Qed.

Lemma pour_distinct n : ∀ flasks s d body tops dst,
  s ≠ d → flasks !! s = Some (body ++ tops) → length tops = n →
  flasks !! d = Some dst →
  Flask.pour n flasks s d = <[d := dst ++ reverse tops]> (<[s := body]> flasks).
Proof.
  induction n as [|n IH]; intros flasks s d body tops dst Hne Hs Hlen Hd.
  - destruct tops; [|done]. simpl. rewrite !app_nil_r in *.
    rewrite (list_insert_id _ _ _ Hs). by rewrite (list_insert_id _ _ _ Hd).
  - destruct tops as [|x tops' _] using rev_ind; [done|].
    rewrite length_app in Hlen. simpl in Hlen.
    simpl. rewrite (pushPop_distinct flasks s d (body ++ tops') x dst); try done.
    2:{ by rewrite <- app_assoc. }
    rewrite (IH _ s d body tops' (dst ++ [x])); try done.
    + rewrite list_insert_insert_ne by done. rewrite list_insert_insert_eq.
      rewrite list_insert_insert_ne by done. rewrite list_insert_insert_eq.
      by rewrite reverse_snoc, <- app_assoc.
    + rewrite list_lookup_insert_ne by done. apply list_lookup_insert_eq.
      by eapply lookup_lt_Some.
    + lia.
    + apply list_lookup_insert_eq. rewrite length_insert. by eapply lookup_lt_Some.
Qed.

Lemma pour_same n : ∀ flasks s layers,
  flasks !! s = Some layers → layers ≠ [] → Flask.pour n flasks s s = flasks.
Proof.
  induction n as [|n IH]; intros flasks s layers Hs Hne; [done|].
  destruct layers as [|x body _] using rev_ind; [done|].
  simpl. rewrite (pushPop_same _ _ _ _ Hs). by eapply IH.
Qed.

Lemma countWhileSame_length top down :
  Flask.countWhileSame top down ≤ length down.
Proof. induction down as [|x down IH]; simpl; [lia|]. case_bool_decide; lia. Qed.

Lemma layersWithSameColor_length layers :
  Flask.layersWithSameColor layers ≤ length layers.
Proof.
  unfold Flask.layersWithSameColor.
  etrans; [apply countWhileSame_length|]. by rewrite length_reverse.
Qed.

(** The run counted by the first loop: on [body ++ replicate r top], where
    [body] does not end in [top], it is [r]. *)
Lemma countWhileSame_replicate top r down :
  Flask.countWhileSame (Some top) (replicate r top ++ down)
  = r + Flask.countWhileSame (Some top) down.
Proof. induction r as [|r IH]; simpl; [done|]. rewrite bool_decide_true by done. lia. Qed.

Lemma countWhileSame_other top down :
  head down ≠ Some top → Flask.countWhileSame (Some top) down = 0.
Proof.
  destruct down as [|x down]; simpl; [done|]. intros Hx.
  rewrite bool_decide_false; [done|]. congruence.
Qed.

Lemma last_replicate_snoc body r top :
  0 < r → last (body ++ replicate r top) = Some top.
Proof.
  destruct r as [|r]; [lia|]. intros _.
  rewrite replicate_S_end, app_assoc. apply last_snoc.
Qed.

Lemma layersWithSameColor_run body r top :
  0 < r → last body ≠ Some top →
  Flask.layersWithSameColor (body ++ replicate r top) = r.
Proof.
  intros Hr Hbody. unfold Flask.layersWithSameColor.
  rewrite last_replicate_snoc by done.
  rewrite reverse_app, reverse_replicate, countWhileSame_replicate.
  rewrite countWhileSame_other; [lia|]. by rewrite <- last_reverse, reverse_involutive.
Qed.

Local Abbreviation poured := (poured FlaskCapacity).

Lemma poured_min source destination :
  poured source destination
  = (FlaskCapacity - length destination) `min` Flask.layersWithSameColor source.
Proof. unfold poured. lia. Qed.

Lemma transfuse_invalid flasks s d :
  Flask.isTransfusionValid FlaskCapacity flasks s d = false →
  ∃ message, Flask.transfuse FlaskCapacity flasks s d = (flasks, Throw message).
Proof. intros H. unfold Flask.transfuse. rewrite H. simpl. eauto. Qed.

Lemma transfuse_distinct flasks s d source destination :
  s ≠ d → flasks !! s = Some source → flasks !! d = Some destination →
  Flask.isTransfusionValid FlaskCapacity flasks s d = true →
  let k := poured source destination in
  Flask.transfuse FlaskCapacity flasks s d
  = (<[d := destination ++ reverse (drop (length source - k) source)]>
       (<[s := take (length source - k) source]> flasks), Ok tt).
Proof.
  intros Hne Hs Hd Hvalid k. unfold Flask.transfuse. rewrite Hvalid. simpl.
  rewrite (list_lookup_total_correct _ _ _ Hs), (list_lookup_total_correct _ _ _ Hd).
  fold (poured source destination). fold k. f_equal.
  apply pour_distinct; try done.
  - by rewrite take_drop.
  - rewrite length_drop. pose proof (layersWithSameColor_length source).
    pose proof (poured_min source destination). lia.
Qed.

Lemma valid_source_not_empty flasks s d :
  Flask.isTransfusionValid FlaskCapacity flasks s d = true → flasks !!! s ≠ [].
Proof.
  unfold Flask.isTransfusionValid, Flask.isEmpty. case_bool_decide; [done|].
  intros _ Hnil. by rewrite Hnil in *.
Qed.

Lemma transfuse_same flasks s source :
  flasks !! s = Some source →
  Flask.isTransfusionValid FlaskCapacity flasks s s = true →
  Flask.transfuse FlaskCapacity flasks s s = (flasks, Ok tt).
Proof.
  intros Hs Hvalid. unfold Flask.transfuse. rewrite Hvalid. simpl. f_equal.
  apply (pour_same _ _ _ source); [done|].
  apply valid_source_not_empty in Hvalid.
  by rewrite (list_lookup_total_correct _ _ _ Hs) in Hvalid.
Qed.

(** The [pop] of the second loop is never done on an empty array. *)
Lemma pour_source_not_empty flasks s d source destination m :
  flasks !! s = Some source → flasks !! d = Some destination →
  Flask.isTransfusionValid FlaskCapacity flasks s d = true →
  m < poured source destination →
  Flask.pour m flasks s d !!! s ≠ [].
Proof.
  intros Hs Hd Hvalid Hm.
  pose proof (valid_source_not_empty _ _ _ Hvalid) as Hne.
  rewrite (list_lookup_total_correct _ _ _ Hs) in Hne.
  destruct (decide (s = d)) as [->|Hsd].
  - rewrite (pour_same _ _ _ source) by done.
    by rewrite (list_lookup_total_correct _ _ _ Hs).
  - pose proof (poured_min source destination).
    pose proof (layersWithSameColor_length source).
    rewrite (pour_distinct m flasks s d (take (length source - m) source)
               (drop (length source - m) source) destination); try done.
    + rewrite list_lookup_total_insert_ne by done.
      rewrite list_lookup_total_insert_eq by (by eapply lookup_lt_Some).
      intros Hnil. apply (f_equal length) in Hnil.
      rewrite length_take in Hnil. simpl in Hnil. lia.
    + by rewrite take_drop.
    + rewrite length_drop. lia.
Qed.

End FlaskFacts.

(** ** Sorting strings, indices of flasks *)

Lemma sort_Permutation (items items' : list string) :
  items ≡ₚ items' → sort items = sort items'.
Proof.
  intros Hp. unfold sort.
  apply (Sorted_unique String.le); try apply Sorted_merge_sort; try apply _.
  by rewrite !merge_sort_Permutation.
Qed.

Section PuzzleFacts.
Variable FlaskCapacity : nat.

Lemma outOfBounds_false (flasks : list (list Z)) (i : Z) :
  Puzzle.outOfBounds flasks i = false ↔ (0 ≤ i < Z.of_nat (length flasks))%Z.
Proof.
  unfold Puzzle.outOfBounds. rewrite orb_false_iff, !bool_decide_eq_false. lia.
Qed.

Lemma outOfBounds_lookup (flasks : list (list Z)) (i : Z) :
  Puzzle.outOfBounds flasks i = false → is_Some (flasks !! Z.to_nat i).
Proof. rewrite outOfBounds_false. intros H. apply lookup_lt_is_Some. lia. Qed.

Lemma Flask_isTransfusionValid_alt (flasks : list (list Z)) (s d : nat) :
  Flask.isTransfusionValid FlaskCapacity flasks s d
  = bool_decide (flasks !!! s ≠ []
                 ∧ length (flasks !!! d) ≠ FlaskCapacity
                 ∧ (flasks !!! d = [] ∨ last (flasks !!! d) = last (flasks !!! s))).
Proof.
  unfold Flask.isTransfusionValid, Flask.isEmpty, Flask.isFull.
  generalize (flasks !!! s) (flasks !!! d). intros source destination.
  match goal with |- ?b = _ => destruct b eqn:Hvalid end; symmetry.
  - apply bool_decide_eq_true_2.
    repeat case_bool_decide; simpl in *; try done.
    all: split; [by intros ->|]; split; [done|].
    all: destruct destination; [by left|right; first [congruence|done]].
  - apply bool_decide_eq_false_2. intros (Hs0 & Hfull & Htop).
    repeat case_bool_decide; simpl in *; try done.
    all: try by destruct source.
    all: destruct Htop as [->|Htop]; [done|congruence].
Qed.

End PuzzleFacts.

(** ** What a transfusion of a puzzle does to its flasks *)

Section TransfuseShape.

Variable FlaskCapacity : nat.

(** Either the flasks are left as they were, or [k] layers went from one
    flask to another one with room for them. *)
Lemma Puzzle_transfuse_cases (flasks flasks' : list (list Z)) (i j : Z) r :
  Puzzle.transfuse FlaskCapacity flasks i j = (flasks', r) →
  flasks' = flasks
  ∨ ∃ s d source destination k,
      s ≠ d ∧ flasks !! s = Some source ∧ flasks !! d = Some destination
      ∧ k ≤ length source ∧ k ≤ FlaskCapacity - length destination
      ∧ r = Ok tt
      ∧ flasks' = <[d := destination ++ reverse (drop (length source - k) source)]>
                    (<[s := take (length source - k) source]> flasks).
Proof.
  unfold Puzzle.transfuse.
  destruct (Puzzle.outOfBounds flasks i) eqn:Hi; simpl; [naive_solver|].
  destruct (Puzzle.outOfBounds flasks j) eqn:Hj; simpl; [naive_solver|].
  destruct (outOfBounds_lookup _ _ Hi) as [source Hs].
  destruct (outOfBounds_lookup _ _ Hj) as [destination Hd].
  destruct (Flask.isTransfusionValid FlaskCapacity flasks (Z.to_nat i) (Z.to_nat j))
    eqn:Hvalid.
  2:{ destruct (transfuse_invalid _ _ _ _ Hvalid) as [m ->]. naive_solver. }
  destruct (decide (Z.to_nat i = Z.to_nat j)) as [Heq|Hne].
  - rewrite <- Heq in *. rewrite (transfuse_same _ _ _ _ Hs Hvalid). naive_solver.
  - rewrite (transfuse_distinct _ _ _ _ _ _ Hne Hs Hd Hvalid). simpl.
    intros [= <- <-]. right.
    exists (Z.to_nat i), (Z.to_nat j), source, destination,
      (poured FlaskCapacity source destination).
    pose proof (poured_min FlaskCapacity source destination).
    pose proof (layersWithSameColor_length source).
    repeat split; try done; lia.
Qed.

Lemma Puzzle_transfuse_length (flasks flasks' : list (list Z)) (i j : Z) r :
  Puzzle.transfuse FlaskCapacity flasks i j = (flasks', r) →
  length flasks' = length flasks.
Proof.
  intros H. apply Puzzle_transfuse_cases in H as [->|H]; [done|].
  destruct H as (s & d & source & destination & k & _ & _ & _ & _ & _ & _ & ->).
  by rewrite !length_insert.
Qed.

(** A property of flasks that taking layers off the top keeps, and that
    holds of a flask that received layers of a flask with the property. *)
Lemma Puzzle_transfuse_Forall (P : list Z → Prop)
    (flasks flasks' : list (list Z)) (i j : Z) r :
  (∀ source k, P source → P (take k source)) →
  (∀ source destination k,
     P source → P destination →
     length source - k ≤ FlaskCapacity - length destination →
     P (destination ++ reverse (drop k source))) →
  Puzzle.transfuse FlaskCapacity flasks i j = (flasks', r) →
  Forall P flasks → Forall P flasks'.
Proof.
  intros Htake Hpush H Hall. apply Puzzle_transfuse_cases in H as [->|H]; [done|].
  destruct H as (s & d & source & destination & k & _ & Hs & Hd & Hk & Hroom & _ & ->).
  rewrite Forall_lookup in Hall.
  apply Forall_insert; [apply Forall_insert|].
  - by apply Forall_lookup.
  - apply Htake. eauto.
  - apply Hpush; eauto. lia.
Qed.

Lemma Puzzle_transfuse_capacity (flasks flasks' : list (list Z)) (i j : Z) r :
  Puzzle.transfuse FlaskCapacity flasks i j = (flasks', r) →
  Forall (λ flask, length flask ≤ FlaskCapacity) flasks →
  Forall (λ flask, length flask ≤ FlaskCapacity) flasks'.
Proof.
  apply Puzzle_transfuse_Forall.
  - intros source k H. rewrite length_take. lia.
  - intros source destination k Hs Hd Hk.
    rewrite length_app, length_reverse, length_drop. lia.
Qed.

Lemma Puzzle_transfuse_colors (colors : list Z)
    (flasks flasks' : list (list Z)) (i j : Z) r :
  Puzzle.transfuse FlaskCapacity flasks i j = (flasks', r) →
  Forall (λ flask, flask ⊆ colors) flasks →
  Forall (λ flask, flask ⊆ colors) flasks'.
Proof.
  apply Puzzle_transfuse_Forall.
  - intros source k H x Hx. apply H. by eapply subseteq_take.
  - intros source destination k Hs Hd _ x.
    rewrite elem_of_app, elem_of_reverse. intros [Hx|Hx]; [by apply Hd|].
    apply Hs. by eapply subseteq_drop.
Qed.

Lemma Puzzle_new_Ok (layersMatrix : list (list Z)) :
  Forall (λ layers, length layers ≤ FlaskCapacity) layersMatrix →
  Puzzle.new FlaskCapacity layersMatrix = Ok layersMatrix.
Proof.
  induction 1 as [|layers rest Hlen _ IH]; simpl; [done|].
  unfold Flask.new. rewrite bool_decide_false by lia. by rewrite IH.
Qed.

Lemma Puzzle_new_inv (layersMatrix flasks : list (list Z)) :
  Puzzle.new FlaskCapacity layersMatrix = Ok flasks →
  flasks = layersMatrix
  ∧ Forall (λ layers, length layers ≤ FlaskCapacity) layersMatrix.
Proof.
  revert flasks. induction layersMatrix as [|layers rest IH]; intros flasks; simpl.
  - by intros [= <-].
  - unfold Flask.new. case_bool_decide; [done|].
    destruct (Puzzle.new FlaskCapacity rest) as [flasks0|]; [|done].
    intros [= <-]. destruct (IH _ eq_refl) as [-> Hall].
    split; [done|]. constructor; [lia|done].
Qed.

Lemma replay_snoc (flasks : list (list Z)) (transfusions : list (Z * Z)) (i j : Z) :
  replay FlaskCapacity flasks (transfusions ++ [(i, j)])
  = match replay FlaskCapacity flasks transfusions with
    | (flasks', Ok _) => Puzzle.transfuse FlaskCapacity flasks' i j
    | (flasks', Throw e) => (flasks', Throw e)
    end.
Proof.
  revert flasks. induction transfusions as [|[i' j'] rest IH]; intros flasks; simpl.
  - by destruct (Puzzle.transfuse FlaskCapacity flasks i j) as [flasks' [[]|]].
  - destruct (Puzzle.transfuse FlaskCapacity flasks i' j') as [flasks' [[]|]]; [|done].
    apply IH.
Qed.

End TransfuseShape.

(** ** The search: what every run keeps true *)

Lemma elem_of_tuples {T : Type} (xs : list T) (n : nat) (l : list T) :
  length l = n → Forall (.∈ xs) l → l ∈ tuples xs n.
Proof.
  revert l. induction n as [|n IH]; intros [|x l] Hlen Hall; simplify_eq/=.
  - apply list_elem_of_singleton. done.
  - apply Forall_cons in Hall as [Hx Hl].
    apply list_elem_of_bind. exists x. split; [|done].
    apply list_elem_of_fmap. exists l. split; [done|]. by apply IH.
Qed.

Lemma size_difference_fresh (F V : gset string) (x : string) :
  x ∈ F → x ∉ V → size (F ∖ ({[x]} ∪ V)) + 1 = size (F ∖ V).
Proof.
  intros HF HV.
  assert (F ∖ V = {[x]} ∪ F ∖ ({[x]} ∪ V)) as ->.
  { apply set_eq. intros y. destruct (decide (y = x)); set_solver. }
  pose proof (size_union ({[x]} : gset string) (F ∖ ({[x]} ∪ V))) as Hsize.
  rewrite Hsize by set_solver. rewrite size_singleton. lia.
Qed.

Section SearchFacts.

Variable FlaskCapacity : nat.
Context {Step Frontier Filter : Type}.
Variable step_puzzle : Step → nat.
Variable step_transfusions : Step → list (Z * Z).
Variable getStep : Frontier → option (Step * Frontier).
Variable addStep : Step → Frontier → Frontier.
Variable preliminaryFilter : Filter → Step → bool * Filter.
Variable initializeNextStep :
  Step → nat → Z * Z → list (list (list Z)) → result Step.

(** The stack and the queue hold steps: taking one out and putting one in
    do to the steps held what they say. *)
Variable elements : Frontier → list Step.
Hypothesis getStep_elements : ∀ frontier step rest,
  getStep frontier = Some (step, rest) → elements frontier ≡ₚ step :: elements rest.
Hypothesis addStep_elements : ∀ step frontier,
  elements (addStep step frontier) ≡ₚ step :: elements frontier.

(** The next step holds the new puzzle and one more transfusion. *)
Hypothesis initializeNextStep_Ok : ∀ step state transfusion heap,
  Forall (λ flask, length flask ≤ FlaskCapacity) (heap !!! state) →
  ∃ nextStep,
    initializeNextStep step state transfusion heap = Ok nextStep
    ∧ step_puzzle nextStep = state
    ∧ step_transfusions nextStep = step_transfusions step ++ [transfusion].

(** The flasks of the puzzle the search starts from. *)
Variable start : list (list Z).
Hypothesis start_capacity : Forall (λ flask, length flask ≤ FlaskCapacity) start.

Local Abbreviation state := (@Solver.state Frontier Filter).
Local Abbreviation within := (within FlaskCapacity start).
Local Abbreviation universe := (universe FlaskCapacity start).
Local Abbreviation fingerprints := (fingerprints FlaskCapacity start).
Local Abbreviation solves := (solves FlaskCapacity start).
Local Abbreviation sound := (sound FlaskCapacity step_puzzle step_transfusions start).
Local Abbreviation invariant :=
  (invariant FlaskCapacity step_puzzle step_transfusions elements start).
Local Abbreviation potential := (potential FlaskCapacity elements start).
Local Abbreviation visit :=
  (Solver.visit FlaskCapacity step_puzzle step_transfusions addStep
     preliminaryFilter initializeNextStep).
Local Abbreviation expand :=
  (Solver.expand FlaskCapacity step_puzzle step_transfusions addStep
     preliminaryFilter initializeNextStep).
Local Abbreviation loop :=
  (Solver.loop FlaskCapacity step_puzzle step_transfusions getStep addStep
     preliminaryFilter initializeNextStep).

Lemma within_universe flasks : within flasks → flasks ∈ universe.
Proof.
  intros (Hlen & Hcap & Hcol). apply elem_of_tuples; [done|].
  apply Forall_forall. intros flask Hin.
  rewrite Forall_forall in Hcap, Hcol.
  apply list_elem_of_bind. exists (length flask). split.
  - apply elem_of_tuples; [done|]. apply Forall_forall. intros x Hx.
    by apply (Hcol flask).
  - apply elem_of_seq. specialize (Hcap flask Hin). simpl in Hcap. lia.
Qed.

Lemma within_fingerprint flasks :
  within flasks → Solver.fingerprint flasks ∈ fingerprints.
Proof.
  intros H. apply elem_of_list_to_set, list_elem_of_fmap.
  exists flasks. split; [done|]. by apply within_universe.
Qed.

Lemma within_start : within start.
Proof.
  split; [done|]. split; [done|].
  apply Forall_forall. intros flask Hin x Hx.
  apply list_elem_of_join. eauto.
Qed.

Lemma within_transfuse flasks flasks' i j r :
  Puzzle.transfuse FlaskCapacity flasks i j = (flasks', r) →
  within flasks → within flasks'.
Proof.
  intros H (Hlen & Hcap & Hcol). split; [|split].
  - by rewrite (Puzzle_transfuse_length _ _ _ _ _ _ H).
  - by eapply Puzzle_transfuse_capacity.
  - by eapply Puzzle_transfuse_colors.
Qed.

Lemma sound_prefix heap heap' step :
  heap `prefix_of` heap' → sound heap step → sound heap' step.
Proof.
  intros [more ->] (Hlt & Hwithin & Hreplay). unfold sound.
  rewrite lookup_total_app_l by done. rewrite length_app.
  split; [lia|done].
Qed.

Lemma isTransfusionValid_in_range (flasks : list (list Z)) (i j : Z) :
  (0 ≤ i < Z.of_nat (length flasks))%Z → (0 ≤ j < Z.of_nat (length flasks))%Z →
  ∃ valid, Puzzle.isTransfusionValid FlaskCapacity flasks i j = Ok valid
    ∧ (valid = true →
       ∃ flasks', Puzzle.transfuse FlaskCapacity flasks i j = (flasks', Ok tt)).
Proof.
  intros Hi Hj. apply outOfBounds_false in Hi, Hj.
  unfold Puzzle.isTransfusionValid, Puzzle.transfuse. rewrite Hi, Hj. simpl.
  case_bool_decide; [by eexists|].
  eexists. split; [done|]. intros Hvalid.
  unfold Flask.transfuse. rewrite Hvalid. simpl. eauto.
Qed.

Lemma visit_spec step i j (st : state) :
  (0 ≤ i < Z.of_nat (length start))%Z → (0 ≤ j < Z.of_nat (length start))%Z →
  sound (Solver.heap st) step → invariant st →
  match visit step i j st with
  | Solver.Next st' =>
      Solver.heap st `prefix_of` Solver.heap st'
      ∧ invariant st' ∧ potential st' ≤ potential st
  | Solver.Stop heap' (Ok transfusions) =>
      Solver.heap st `prefix_of` heap' ∧ solves transfusions
  | Solver.Stop heap' (Throw _) => False
  end.
Proof.
  intros Hi Hj (Hlt & Hwithin & Hreplay) Hinv. unfold Solver.visit.
  destruct Hwithin as (Hlen & Hcap & Hcol). rewrite <- Hlen in Hi, Hj.
  destruct (isTransfusionValid_in_range _ i j Hi Hj) as (valid & -> & Hvalid).
  destruct valid; [|done].
  destruct (Hvalid eq_refl) as [flasks' Htransfuse]. clear Hvalid.
  unfold Solver.copyPuzzle, Solver.allocate, Puzzle.copy.
  rewrite (Puzzle_new_Ok _ _ Hcap).
  unfold Solver.transfusePuzzle.
  rewrite lookup_total_app_r, Nat.sub_diag by done. simpl.
  rewrite Htransfuse.
  rewrite insert_app_r_alt, Nat.sub_diag by done. simpl.
  set (heap2 := Solver.heap st ++ [flasks']).
  assert (Solver.heap st `prefix_of` heap2) as Hprefix by by eexists.
  assert (heap2 !!! length (Solver.heap st) = flasks') as Hnew.
  { unfold heap2. by rewrite lookup_total_app_r, Nat.sub_diag. }
  assert (within flasks') as Hwithin'.
  { eapply within_transfuse; [done|]. by split. }
  rewrite Hnew.
  case_bool_decide as Hvisited.
  { split; [done|]. split; [|done]. eapply Forall_impl; [done|].
    intros s. by apply sound_prefix. }
  destruct (initializeNextStep_Ok step (length (Solver.heap st)) (i, j) heap2)
    as (nextStep & -> & Hpuzzle & Htransfusions).
  { rewrite Hnew. apply Hwithin'. }
  rewrite Hpuzzle, Hnew.
  assert (replay FlaskCapacity start (step_transfusions nextStep) = (flasks', Ok tt))
    as Hreplay'.
  { by rewrite Htransfusions, replay_snoc, Hreplay. }
  destruct (Puzzle.isSolved FlaskCapacity flasks') eqn:Hsolved.
  { split; [done|]. by exists flasks'. }
  destruct (preliminaryFilter (Solver.filter st) nextStep) as [admitted filter'].
  split; [done|].
  assert (sound heap2 nextStep) as Hsound.
  { unfold sound. rewrite Hpuzzle, Hnew. unfold heap2. rewrite length_app. simpl.
    split; [lia|done]. }
  assert (Forall (sound heap2) (elements (Solver.stackOrQueue st))) as Hold.
  { eapply Forall_impl; [done|]. intros s. by apply sound_prefix. }
  pose proof (size_difference_fresh fingerprints (Solver.visited st) _
                (within_fingerprint _ Hwithin') Hvisited) as Hsize.
  unfold invariant, potential. simpl. destruct admitted.
  - rewrite addStep_elements. split; [by constructor|]. simpl. lia.
  - split; [done|]. lia.
Qed.

Lemma expand_spec step pairs : ∀ st : state,
  Forall (λ '(i, j), (0 ≤ i < Z.of_nat (length start))%Z
                     ∧ (0 ≤ j < Z.of_nat (length start))%Z) pairs →
  sound (Solver.heap st) step → invariant st →
  match expand step pairs st with
  | Solver.Next st' =>
      Solver.heap st `prefix_of` Solver.heap st'
      ∧ invariant st' ∧ potential st' ≤ potential st
  | Solver.Stop heap' (Ok transfusions) =>
      Solver.heap st `prefix_of` heap' ∧ solves transfusions
  | Solver.Stop heap' (Throw _) => False
  end.
Proof.
  induction pairs as [|[i j] pairs IH]; intros st Hpairs Hstep Hinv; simpl; [done|].
  apply Forall_cons in Hpairs as [[Hi Hj] Hpairs].
  pose proof (visit_spec step i j st Hi Hj Hstep Hinv) as Hvisit.
  destruct (visit step i j st) as [st'|heap' [transfusions|e]]; [|done..].
  destruct Hvisit as (Hprefix & Hinv' & Hpot).
  specialize (IH st' Hpairs (sound_prefix _ _ _ Hprefix Hstep) Hinv').
  destruct (expand step pairs st') as [st''|heap'' [transfusions|e]]; [| |done].
  - destruct IH as (Hprefix' & Hinv'' & Hpot').
    split; [by etrans|]. split; [done|lia].
  - destruct IH as [Hprefix' Hsolves]. split; [by etrans|done].
Qed.

Lemma pairs_in_range n :
  Forall (λ '(i, j), (0 ≤ i < Z.of_nat n)%Z ∧ (0 ≤ j < Z.of_nat n)%Z) (Solver.pairs n).
Proof.
  apply Forall_forall. intros [i j] Hin. unfold Solver.pairs in Hin.
  apply list_elem_of_bind in Hin as (i' & Hin & Hi').
  apply list_elem_of_fmap in Hin as (j' & [= -> ->] & Hj').
  apply elem_of_seq in Hi', Hj'. lia.
Qed.

(** A run either is out of fuel, with no more fuel than the potential it
    started with, or returns; what it returns solves [start], and it
    throws nothing.  The objects of the heap it started with are left as
    they were. *)
Lemma loop_spec fuel : ∀ st : state,
  invariant st →
  match loop fuel st with
  | OutOfFuel => fuel ≤ potential st
  | Finished heap' (Ok solution) =>
      Solver.heap st `prefix_of` heap'
      ∧ ∀ transfusions, solution = Some transfusions → solves transfusions
  | Finished heap' (Throw _) => False
  end.
Proof.
  induction fuel as [|fuel IH]; intros st Hinv; simpl; [lia|].
  destruct (getStep (Solver.stackOrQueue st)) as [[step rest]|] eqn:Hget; [|done].
  apply getStep_elements in Hget.
  assert (sound (Solver.heap st) step ∧ Forall (sound (Solver.heap st)) (elements rest))
    as [Hstep Hrest].
  { unfold invariant in Hinv. rewrite Hget in Hinv. by apply Forall_cons in Hinv. }
  assert (potential st = S (length (elements rest)
                            + size (fingerprints ∖ Solver.visited st))) as Hpot.
  { unfold potential. by rewrite Hget. }
  destruct (preliminaryFilter (Solver.filter st) step) as [admitted filter'].
  set (st' := Solver.State (Solver.heap st) rest (Solver.visited st) filter').
  assert (invariant st') as Hinv' by done.
  assert (S (potential st') = potential st) as Hpot' by (by rewrite Hpot).
  destruct admitted.
  - destruct Hstep as (Hlt & Hwithin & Hreplay).
    pose proof Hwithin as (Hlen & Hcap & _).
    unfold Puzzle.flasks. rewrite (Puzzle_new_Ok _ _ Hcap), Hlen.
    pose proof (expand_spec step (Solver.pairs (length start)) st'
                  (pairs_in_range _) (conj Hlt (conj Hwithin Hreplay)) Hinv') as Hexpand.
    destruct (expand step (Solver.pairs (length start)) st')
      as [st''|heap' [transfusions|e]]; [| |done].
    + destruct Hexpand as (Hprefix & Hinv'' & Hle).
      specialize (IH st'' Hinv'').
      destruct (loop fuel st'') as [|heap' [solution|e]]; [lia| |done].
      destruct IH as [Hprefix' Hsol]. split; [by etrans|done].
    + destruct Hexpand as [Hprefix Hsolves]. split; [done|]. by intros ? [= <-].
  - specialize (IH st' Hinv').
    destruct (loop fuel st') as [|heap' [solution|e]]; [lia|done..].
Qed.

(** More fuel does not change what a run that ends returns. *)
Lemma loop_more_fuel fuel : ∀ (st : state) fuel',
  loop fuel st ≠ OutOfFuel → fuel ≤ fuel' → loop fuel' st = loop fuel st.
Proof.
  induction fuel as [|fuel IH]; intros st fuel' Hend Hle; [done|].
  destruct fuel' as [|fuel']; [lia|]. simpl in *.
  destruct (getStep (Solver.stackOrQueue st)) as [[step rest]|]; [|done].
  destruct (preliminaryFilter (Solver.filter st) step) as [admitted filter'].
  destruct admitted; [|apply IH; [done|lia]].
  destruct (Puzzle.flasks FlaskCapacity (Solver.heap st !!! step_puzzle step)); [|done].
  destruct (expand _ _ _) as [st''|heap' [transfusions|e]]; [|done..].
  apply IH; [done|lia].
Qed.

(** The call [solveUsingPriorityQueueOrStack(puzzle, stackOrQueue, ...)] on
    a stack or queue whose steps hold [puzzle] and no transfusion. *)
Lemma solveUsingPriorityQueueOrStack_spec fuel puzzle stackOrQueue filter heap :
  puzzle < length heap → heap !!! puzzle = start →
  Forall (λ step, step_puzzle step = puzzle ∧ step_transfusions step = [])
    (elements stackOrQueue) →
  match Solver.solveUsingPriorityQueueOrStack FlaskCapacity step_puzzle
          step_transfusions getStep addStep preliminaryFilter initializeNextStep
          fuel puzzle stackOrQueue filter heap with
  | OutOfFuel => fuel ≤ length (elements stackOrQueue) + size fingerprints
  | Finished heap' (Ok solution) =>
      heap `prefix_of` heap'
      ∧ ∀ transfusions, solution = Some transfusions → solves transfusions
  | Finished heap' (Throw _) => False
  end.
Proof.
  intros Hlt Hstart Hsteps. unfold Solver.solveUsingPriorityQueueOrStack.
  set (st := Solver.State heap stackOrQueue _ filter).
  assert (invariant st) as Hinv.
  { unfold invariant. simpl. eapply Forall_impl; [done|].
    intros step [Hpuzzle Hnone]. unfold sound. rewrite Hpuzzle, Hnone, Hstart.
    split; [done|]. split; [apply within_start|done]. }
  pose proof (loop_spec fuel st Hinv) as Hloop.
  destruct (loop fuel st) as [|heap' [solution|e]]; [|done..].
  etrans; [done|]. unfold potential. simpl.
  apply Nat.add_le_mono_l, subseteq_size. set_solver.
Qed.

End SearchFacts.

(** ** The stack and the priority queue *)

Lemma pop_elements (stack rest : list StackStep.t) (step : StackStep.t) :
  Solver.pop stack = Some (step, rest) → stack ≡ₚ step :: rest.
Proof.
  unfold Solver.pop. destruct (last stack) as [step'|] eqn:Hlast; [|done].
  apply last_Some in Hlast as [stack' ->]. intros [= <- <-].
  rewrite length_app. simpl.
  replace (length stack' + 1 - 1) with (length stack') by lia.
  rewrite take_app_length. by rewrite Permutation_app_comm.
Qed.

Lemma push_elements (stack : list StackStep.t) (step : StackStep.t) :
  Solver.push step stack ≡ₚ step :: stack.
Proof. unfold Solver.push. by rewrite Permutation_app_comm. Qed.

Lemma dequeue_None {A : Type} (comparator : A → A → Z) (values : list A) :
  PriorityQueue.dequeue comparator values = None → values = [].
Proof.
  destruct values as [|first values]; simpl; [done|].
  destruct (PriorityQueue.dequeue comparator values) as [[least rest']|]; [|done].
  by case_bool_decide.
Qed.

Lemma dequeue_elements {A : Type} (comparator : A → A → Z) (values : list A) :
  ∀ value rest,
    PriorityQueue.dequeue comparator values = Some (value, rest) →
    values ≡ₚ value :: rest.
Proof.
  induction values as [|first values IH]; intros value rest; simpl; [done|].
  destruct (PriorityQueue.dequeue comparator values) as [[least rest']|] eqn:Hrest.
  - specialize (IH _ _ eq_refl). case_bool_decide; intros [= <- <-]; [|done].
    rewrite IH. apply perm_swap.
  - apply dequeue_None in Hrest as ->. by intros [= <- <-].
Qed.

Lemma queue_elements {A : Type} (values : list A) (value : A) :
  PriorityQueue.queue value values ≡ₚ value :: values.
Proof. unfold PriorityQueue.queue. by rewrite Permutation_app_comm. Qed.

Section Searches.

Variable FlaskCapacity : nat.

Local Abbreviation searches := (searches FlaskCapacity).
Local Abbreviation enough := (enough FlaskCapacity).

Lemma calculateSolutionMetric_Ok (flasks : list (list Z)) :
  Forall (λ flask, length flask ≤ FlaskCapacity) flasks →
  ∃ metric, Solver.calculateSolutionMetric FlaskCapacity flasks = Ok metric.
Proof.
  intros H. unfold Solver.calculateSolutionMetric, Puzzle.flasks.
  rewrite (Puzzle_new_Ok _ _ H). eauto.
Qed.

Lemma solveUsingStack_searches : searches (Solver.solveUsingStack FlaskCapacity).
Proof.
  intros fuel puzzle heap Hlt Hcap. unfold Solver.solveUsingStack.
  apply (solveUsingPriorityQueueOrStack_spec FlaskCapacity
           StackStep.puzzle StackStep.transfusions Solver.pop Solver.push
           _ Solver.nextStackStep id); try done.
  - intros stack step rest. apply pop_elements.
  - intros step stack. apply push_elements.
  - intros step state transfusion heap' _. by eexists.
  - by repeat constructor.
Qed.

Lemma solveUsingPriorityQueue_searches maxAllowedMetricDelta :
  searches (λ fuel puzzle heap,
    Solver.solveUsingPriorityQueue FlaskCapacity fuel puzzle maxAllowedMetricDelta heap).
Proof.
  intros fuel puzzle heap Hlt Hcap. unfold Solver.solveUsingPriorityQueue.
  destruct (calculateSolutionMetric_Ok _ Hcap) as [metric ->].
  apply (solveUsingPriorityQueueOrStack_spec FlaskCapacity
           PriorityQueueStep.puzzle PriorityQueueStep.transfusions
           (PriorityQueue.dequeue Solver.comparator) PriorityQueue.queue
           _ (Solver.nextPriorityQueueStep FlaskCapacity) id); try done.
  - intros values step rest. apply dequeue_elements.
  - intros step values. apply queue_elements.
  - intros step state transfusion heap' Hcap'.
    unfold Solver.nextPriorityQueueStep.
    destruct (calculateSolutionMetric_Ok _ Hcap') as [metric' ->]. by eexists.
  - by repeat constructor.
Qed.

Lemma switch_searches solvingMethod :
  searches (Solver.switch FlaskCapacity solvingMethod).
Proof.
  unfold Solver.switch. intros fuel puzzle heap.
  destruct (String.eqb solvingMethod "shortest");
    [apply (solveUsingPriorityQueue_searches 1)|].
  destruct (String.eqb solvingMethod "balanced");
    [apply (solveUsingPriorityQueue_searches 0)|].
  apply solveUsingStack_searches.
Qed.

(** *** The driver *)

Lemma newPuzzle_inv layersMatrix heap heap' r :
  Solver.newPuzzle FlaskCapacity layersMatrix heap = (heap', r) →
  (∃ e, r = Throw e ∧ heap' = heap
        ∧ ¬ Forall (λ layers, length layers ≤ FlaskCapacity) layersMatrix)
  ∨ (r = Ok (length heap) ∧ heap' = heap ++ [layersMatrix]
     ∧ Forall (λ layers, length layers ≤ FlaskCapacity) layersMatrix).
Proof.
  unfold Solver.newPuzzle, Solver.allocate.
  destruct (Puzzle.new FlaskCapacity layersMatrix) as [flasks|e] eqn:Hnew.
  - apply Puzzle_new_inv in Hnew as [-> Hcap]. intros [= <- <-]. by right.
  - intros [= <- <-]. left. exists e. repeat split; try done.
    intros Hcap. by rewrite (Puzzle_new_Ok _ _ Hcap) in Hnew.
Qed.

Lemma Forall_capacity_app_empty (layersMatrix : list (list Z)) i :
  Forall (λ layers, length layers ≤ FlaskCapacity) (layersMatrix ++ replicate i [])
  ↔ Forall (λ layers, length layers ≤ FlaskCapacity) layersMatrix.
Proof.
  rewrite Forall_app. split; [by intros [? _]|]. intros H. split; [done|].
  apply Forall_replicate. simpl. lia.
Qed.

Lemma solveFrom_spec run iterations : ∀ i fuel layersMatrix heap,
  searches run →
  match Solver.solveFrom FlaskCapacity run iterations i fuel layersMatrix heap with
  | OutOfFuel => ∃ e, i ≤ e < i + iterations ∧ fuel < enough layersMatrix e
  | Finished _ (Ok (Some transfusions, e)) =>
      i ≤ e < i + iterations
      ∧ Forall (λ layers, length layers ≤ FlaskCapacity) layersMatrix
      ∧ solves FlaskCapacity (layersMatrix ++ replicate e []) transfusions
  | Finished _ (Ok (None, e)) => e = i + iterations
  | Finished _ (Throw _) =>
      ¬ Forall (λ layers, length layers ≤ FlaskCapacity) layersMatrix
  end.
Proof.
  induction iterations as [|iterations IH]; intros i fuel layersMatrix heap Hrun; simpl.
  { lia. }
  destruct (Solver.newPuzzle _ _ heap) as [heap1 r] eqn:Hnew.
  apply newPuzzle_inv in Hnew as [(e & -> & -> & Hbad)|(-> & -> & Hcap)].
  { by rewrite Forall_capacity_app_empty in Hbad. }
  pose proof (Hrun fuel (length heap) (heap ++ [layersMatrix ++ replicate i []]))
    as Hsearch.
  rewrite lookup_total_app_r, Nat.sub_diag in Hsearch by done. simpl in Hsearch.
  rewrite length_app in Hsearch. simpl in Hsearch.
  specialize (Hsearch ltac:(lia) Hcap).
  destruct (run fuel _ _) as [|heap2 [[transfusions|]|e]]; [| | |done].
  - exists i. unfold enough. split; lia.
  - destruct Hsearch as [_ Hsolves]. split; [lia|].
    split; [by apply Forall_capacity_app_empty in Hcap|]. by apply Hsolves.
  - specialize (IH (S i) fuel layersMatrix heap2 Hrun).
    destruct (Solver.solveFrom _ _ _ _ _ _ _) as [|heap3 [[[transfusions|] e]|e]].
    + destruct IH as (e & He & Hfuel). exists e. split; [lia|done].
    + destruct IH as (He & Hsol). split; [lia|done].
    + lia.
    + done.
Qed.

End Searches.

(** ** The number of layers of a puzzle *)

Lemma layerCount_insert (flasks : list (list Z)) (i : nat) (old new : list Z) :
  flasks !! i = Some old →
  layerCount (<[i := new]> flasks) + length old = layerCount flasks + length new.
Proof.
  revert i. induction flasks as [|flask flasks IH]; intros [|i] Hi; simplify_eq/=.
  - unfold layerCount. simpl. lia.
  - specialize (IH _ Hi). unfold layerCount in *. simpl. lia.
Qed.

Section LayerCount.

Variable FlaskCapacity : nat.

Lemma Puzzle_transfuse_layerCount (flasks flasks' : list (list Z)) (i j : Z) r :
  Puzzle.transfuse FlaskCapacity flasks i j = (flasks', r) →
  layerCount flasks' = layerCount flasks.
Proof.
  intros H. apply Puzzle_transfuse_cases in H as [->|H]; [done|].
  destruct H as (s & d & source & destination & k & Hne & Hs & Hd & Hk & _ & _ & ->).
  pose proof (layerCount_insert flasks s source (take (length source - k) source) Hs)
    as Hsource.
  pose proof (layerCount_insert (<[s := take (length source - k) source]> flasks)
                d destination
                (destination ++ reverse (drop (length source - k) source))) as Hdest.
  rewrite list_lookup_insert_ne in Hdest by done. specialize (Hdest Hd).
  rewrite length_app, length_reverse, length_drop in Hdest.
  rewrite length_take in Hsource. lia.
Qed.

Lemma replay_layerCount (transfusions : list (Z * Z)) :
  ∀ (flasks flasks' : list (list Z)) r,
    replay FlaskCapacity flasks transfusions = (flasks', r) →
    layerCount flasks' = layerCount flasks.
Proof.
  induction transfusions as [|[i j] rest IH]; intros flasks flasks' r; simpl.
  - by intros [= <- _].
  - destruct (Puzzle.transfuse FlaskCapacity flasks i j) as [flasks1 [[]|e]] eqn:H.
    + intros Hrest. rewrite (IH _ _ _ Hrest). by eapply Puzzle_transfuse_layerCount.
    + intros [= <- _]. by eapply Puzzle_transfuse_layerCount.
Qed.

Lemma isInFinalState_length (layers : list Z) :
  Flask.isInFinalState FlaskCapacity layers = true →
  length layers = 0 ∨ length layers = FlaskCapacity.
Proof.
  unfold Flask.isInFinalState, Flask.isEmpty, Flask.isFull.
  intros [H|H]%orb_true_iff; [left|right].
  - by apply bool_decide_eq_true in H.
  - apply andb_true_iff in H as [H _]. by apply bool_decide_eq_true in H.
Qed.

Lemma isSolved_Forall (flasks : list (list Z)) :
  Puzzle.isSolved FlaskCapacity flasks = true →
  Forall (λ flask, Flask.isInFinalState FlaskCapacity flask = true) flasks.
Proof.
  unfold Puzzle.isSolved. induction flasks as [|flask flasks IH]; simpl; [done|].
  destruct (Flask.isInFinalState FlaskCapacity flask) eqn:Hflask; simpl; [|done].
  intros H. constructor; [done|by apply IH].
Qed.

Lemma isSolved_layerCount (flasks : list (list Z)) :
  Puzzle.isSolved FlaskCapacity flasks = true →
  ∃ full, layerCount flasks = full * FlaskCapacity.
Proof.
  intros H%isSolved_Forall. induction H as [|flask flasks Hflask _ [full IH]].
  - by exists 0.
  - apply isInFinalState_length in Hflask as [Hlen|Hlen].
    + exists full. unfold layerCount in *. simpl. lia.
    + exists (S full). unfold layerCount in *. simpl. lia.
Qed.

Lemma layerCount_app_empty (layersMatrix : list (list Z)) (e : nat) :
  layerCount (layersMatrix ++ replicate e []) = layerCount layersMatrix.
Proof.
  unfold layerCount. rewrite sum_list_with_app.
  induction e as [|e IH]; simpl in *; lia.
Qed.

(** With a number of layers that is no multiple of the capacity, no
    number of empty flasks makes the puzzle solvable. *)
Lemma unsolvable_layerCount (layersMatrix : list (list Z)) (e : nat) transfusions :
  (∀ full, layerCount layersMatrix ≠ full * FlaskCapacity) →
  ¬ solves FlaskCapacity (layersMatrix ++ replicate e []) transfusions.
Proof.
  intros Hcount (final & Hreplay & Hsolved).
  apply replay_layerCount in Hreplay. rewrite layerCount_app_empty in Hreplay.
  apply isSolved_layerCount in Hsolved as [full Hfull].
  apply (Hcount full). congruence.
Qed.

End LayerCount.

(** ** The digest

    The test suite of RFC 1321, appendix A.5, and inputs around the padding
    boundary. *)
Example md5_empty : MD5.hexdigest "" = "d41d8cd98f00b204e9800998ecf8427e"%string.
Proof. vm_compute. reflexivity. Qed.

Example md5_a : MD5.hexdigest "a" = "0cc175b9c0f1b6a831c399e269772661"%string.
Proof. vm_compute. reflexivity. Qed.

Example md5_abc : MD5.hexdigest "abc" = "900150983cd24fb0d6963f7d28e17f72"%string.
Proof. vm_compute. reflexivity. Qed.

Example md5_message_digest :
  MD5.hexdigest "message digest" = "f96b697d7cb7938d525a2f31aaf161d0"%string.
Proof. vm_compute. reflexivity. Qed.

Example md5_alphabet :
  MD5.hexdigest "abcdefghijklmnopqrstuvwxyz" = "c3fcd3d76192e4007dfb496cca67e13b"%string.
Proof. vm_compute. reflexivity. Qed.

Example md5_55_bytes :
  MD5.hexdigest "xxxxxxxxxxxxxxxxxxxxxxxxxxxxxxxxxxxxxxxxxxxxxxxxxxxxxxx"
  = "04364420e25c512fd958a70738aa8f72"%string.
Proof. vm_compute. reflexivity. Qed.

Example md5_56_bytes :
  MD5.hexdigest "xxxxxxxxxxxxxxxxxxxxxxxxxxxxxxxxxxxxxxxxxxxxxxxxxxxxxxxx"
  = "668a72d5ba17f08e62dabcafad6db14b"%string.
Proof. vm_compute. reflexivity. Qed.

Example md5_64_bytes :
  MD5.hexdigest "xxxxxxxxxxxxxxxxxxxxxxxxxxxxxxxxxxxxxxxxxxxxxxxxxxxxxxxxxxxxxxxx"
  = "c1bb4f81d892b2d57947682aeb252456"%string.
Proof. vm_compute. reflexivity. Qed.

(** ** The properties of the design document *)

(** C4.  A legal transfusion between two distinct flasks moves exactly
    [k = min(r, f)] layers from the top of the source to the top of the
    destination, where [r] is the length of the maximal run of layers of one
    colour at the top of the source (the source is [body ++ replicate r top]
    and [body] does not end in [top]) and [f] is the free capacity of the
    destination; no other flask changes. *)
Theorem transfuse_moves_min_run_free (FlaskCapacity : nat)
    (flasks : list (list Z)) (sourceFlask destinationFlask : nat)
    (body destination : list Z) (top : Z) (r : nat) :
  sourceFlask ≠ destinationFlask →
  flasks !! sourceFlask = Some (body ++ replicate r top) →
  0 < r → last body ≠ Some top →
  flasks !! destinationFlask = Some destination →
  Flask.isTransfusionValid FlaskCapacity flasks sourceFlask destinationFlask = true →
  let k := r `min` (FlaskCapacity - length destination) in
  Flask.transfuse FlaskCapacity flasks sourceFlask destinationFlask
  = (<[destinationFlask := destination ++ replicate k top]>
       (<[sourceFlask := body ++ replicate (r - k) top]> flasks),
     Ok tt).
Proof.
  intros Hne Hs Hr Hbody Hd Hvalid k.
  rewrite (transfuse_distinct _ _ _ _ _ _ Hne Hs Hd Hvalid). simpl.
  rewrite poured_min, layersWithSameColor_run by done.
  replace ((FlaskCapacity - length destination) `min` r) with k by lia.
  rewrite length_app, length_replicate.
  replace (length body + r - k) with (length body + (r - k)) by lia.
  rewrite take_app_add, drop_app_add, take_replicate, drop_replicate.
  rewrite reverse_replicate.
  replace ((r - k) `min` r) with (r - k) by lia.
  replace (r - (r - k)) with k by lia. done.
Qed.

(** The example of the design document: with capacity 4, source [[A,B,B]]
    and destination [[B]] become [[A]] and [[B,B,B]] (here [A = 0], [B = 1]). *)
Lemma transfuse_moves_min_run_free_example :
  Flask.transfuse 4 [[0; 1; 1]; [1]]%Z 0 1 = ([[0]; [1; 1; 1]]%Z, Ok tt).
Proof.
  apply (transfuse_moves_min_run_free 4 [[0; 1; 1]; [1]]%Z 0 1 [0%Z] [1%Z] 1%Z 2).
  - lia.
  - reflexivity.
  - lia.
  - simpl. congruence.
  - reflexivity.
  - reflexivity.
Defined.

(** C10.  [Flask.transfuse] on a pair of flasks for which
    [isTransfusionValid] is false throws the invalid-transfusion error and
    leaves every flask, the two of the call among them, as it was. *)
Theorem transfuse_atomic_on_error (FlaskCapacity : nat)
    (flasks : list (list Z)) (sourceFlask destinationFlask : nat) :
  Flask.isTransfusionValid FlaskCapacity flasks sourceFlask destinationFlask = false →
  Flask.transfuse FlaskCapacity flasks sourceFlask destinationFlask
  = (flasks,
     Throw ("Transfusion from [" +:+ Flask.toString (flasks !!! sourceFlask)
            +:+ "] to [" +:+ Flask.toString (flasks !!! destinationFlask)
            +:+ "] is invalid")).
Proof. intros H. unfold Flask.transfuse. by rewrite H. Qed.

Lemma transfuse_atomic_on_error_example :
  Flask.transfuse 4 [[0; 1]; [1; 0]]%Z 0 1
  = ([[0; 1]; [1; 0]]%Z, Throw "Transfusion from [0,1] to [1,0] is invalid").
Proof. apply (transfuse_atomic_on_error 4 [[0; 1]; [1; 0]]%Z 0 1). reflexivity. Defined.

(** C6.  A flask never holds more than [FlaskCapacity] layers: the
    constructor throws on more layers than that and otherwise keeps all of
    them, and after a call of [Flask.transfuse], returned or thrown, on two
    flasks within the capacity both are within the capacity. *)
Theorem capacity_invariant (FlaskCapacity : nat) :
  (∀ layers : list Z,
     FlaskCapacity < length layers →
     Flask.new FlaskCapacity layers = Throw "Cannot fill flask over it's limit")
  ∧ (∀ layers : list Z,
       length layers ≤ FlaskCapacity → Flask.new FlaskCapacity layers = Ok layers)
  ∧ (∀ (flasks flasks' : list (list Z)) (sourceFlask destinationFlask : nat) r,
       sourceFlask < length flasks → destinationFlask < length flasks →
       length (flasks !!! sourceFlask) ≤ FlaskCapacity →
       length (flasks !!! destinationFlask) ≤ FlaskCapacity →
       Flask.transfuse FlaskCapacity flasks sourceFlask destinationFlask = (flasks', r) →
       length (flasks' !!! sourceFlask) ≤ FlaskCapacity
       ∧ length (flasks' !!! destinationFlask) ≤ FlaskCapacity).
Proof.
  split; [|split].
  - intros layers H. unfold Flask.new. by rewrite bool_decide_true.
  - intros layers H. unfold Flask.new. rewrite bool_decide_false; [done|lia].
  - intros flasks flasks' s d r Hs Hd Hsource Hdest Htransfuse.
    destruct (lookup_lt_is_Some_2 _ _ Hs) as [source Hs'].
    destruct (lookup_lt_is_Some_2 _ _ Hd) as [destination Hd'].
    rewrite (list_lookup_total_correct _ _ _ Hs') in Hsource.
    rewrite (list_lookup_total_correct _ _ _ Hd') in Hdest.
    destruct (Flask.isTransfusionValid FlaskCapacity flasks s d) eqn:Hvalid.
    2:{ destruct (transfuse_invalid _ _ _ _ Hvalid) as [m Hm].
        rewrite Hm in Htransfuse. injection Htransfuse as <- _.
        by rewrite (list_lookup_total_correct _ _ _ Hs'),
                   (list_lookup_total_correct _ _ _ Hd'). }
    destruct (decide (s = d)) as [->|Hne].
    + rewrite (transfuse_same _ _ _ _ Hs' Hvalid) in Htransfuse.
      injection Htransfuse as <- _.
      by rewrite (list_lookup_total_correct _ _ _ Hs').
    + rewrite (transfuse_distinct _ _ _ _ _ _ Hne Hs' Hd' Hvalid) in Htransfuse.
      injection Htransfuse as <- _.
      pose proof (poured_min FlaskCapacity source destination).
      pose proof (layersWithSameColor_length source).
      rewrite list_lookup_total_insert_ne by done.
      rewrite !list_lookup_total_insert_eq by (by rewrite ?length_insert).
      rewrite length_take, length_app, length_reverse, length_drop. lia.
Qed.

Lemma capacity_invariant_example :
  (length ([[0]; [1; 1; 1; 1]]%Z !!! 0) ≤ 4) ∧ (length ([[0]; [1; 1; 1; 1]]%Z !!! 1) ≤ 4).
Proof.
  apply (proj2 (proj2 (capacity_invariant 4))
           [[0; 1]; [1; 1; 1]]%Z [[0]; [1; 1; 1; 1]]%Z 0 1 (Ok tt)).
  - simpl. lia.
  - simpl. lia.
  - simpl. lia.
  - simpl. lia.
  - reflexivity.
Defined.

(** C5.  [Puzzle.isTransfusionValid(i, j)] throws the out-of-bounds error
    exactly when [i] or [j] is outside [[0, N)]; with both inside it returns
    false when [i = j], and otherwise true exactly when the source is not
    empty, the destination is not full, and the destination is empty or has
    the top colour of the source. *)
Theorem isTransfusionValid_spec (FlaskCapacity : nat)
    (flasks : list (list Z)) (i j : Z) :
  let N := Z.of_nat (length flasks) in
  let source := flasks !!! Z.to_nat i in
  let destination := flasks !!! Z.to_nat j in
  Puzzle.isTransfusionValid FlaskCapacity flasks i j
  = if bool_decide ((0 ≤ i < N)%Z ∧ (0 ≤ j < N)%Z)
    then Ok (bool_decide (i ≠ j
                          ∧ source ≠ []
                          ∧ length destination ≠ FlaskCapacity
                          ∧ (destination = [] ∨ last destination = last source)))
    else Throw "flask index is out of bounds".
Proof.
  intros N source destination. subst N. unfold Puzzle.isTransfusionValid.
  destruct (Puzzle.outOfBounds flasks i) eqn:Hi; simpl.
  { rewrite bool_decide_false; [done|]. rewrite <- !outOfBounds_false. intros [? _].
    congruence. }
  destruct (Puzzle.outOfBounds flasks j) eqn:Hj; simpl.
  { rewrite bool_decide_false; [done|]. rewrite <- !outOfBounds_false. intros [_ ?].
    congruence. }
  apply outOfBounds_false in Hi, Hj.
  rewrite (bool_decide_true (_ ∧ (0 ≤ j < _)%Z)) by done.
  case_bool_decide as Heq.
  - by rewrite bool_decide_false by (by intros [? _]).
  - rewrite Flask_isTransfusionValid_alt. f_equal. apply bool_decide_ext.
    fold source destination. tauto.
Qed.

(** C8.  The canonical sorted string of a puzzle, and so its fingerprint,
    is the same for every permutation of the list of its flasks. *)
Theorem fingerprint_Permutation (flasks flasks' : list (list Z)) :
  flasks ≡ₚ flasks' →
  Puzzle.toStringWithSort flasks = Puzzle.toStringWithSort flasks'
  ∧ Solver.fingerprint flasks = Solver.fingerprint flasks'.
Proof.
  intros Hp.
  assert (Puzzle.toStringWithSort flasks = Puzzle.toStringWithSort flasks') as H.
  { unfold Puzzle.toStringWithSort. f_equal.
    apply sort_Permutation. by apply fmap_Permutation. }
  split; [done|]. unfold Solver.fingerprint. by rewrite H.
Qed.

Lemma fingerprint_Permutation_example :
  Puzzle.toStringWithSort [[0; 1; 0; 1]; [1; 0; 1; 0]]%Z
  = Puzzle.toStringWithSort [[1; 0; 1; 0]; [0; 1; 0; 1]]%Z
  ∧ Solver.fingerprint [[0; 1; 0; 1]; [1; 0; 1; 0]]%Z
    = Solver.fingerprint [[1; 0; 1; 0]; [0; 1; 0; 1]]%Z.
Proof. apply fingerprint_Permutation. apply perm_swap. Defined.

(** C3.  [Puzzle.transfuse(i, i)] is not a silent no-op for every flask:
    on an empty flask and on a full flask it throws the invalid-transfusion
    error of [Flask.transfuse], which [Puzzle.transfuse] calls without
    comparing the two indices. *)
Theorem transfuse_same_index_throws (FlaskCapacity : nat) :
  Puzzle.transfuse FlaskCapacity [[]] 0 0
  = ([[]], Throw "Transfusion from [] to [] is invalid")
  ∧ Puzzle.transfuse 4 [[0; 0; 0; 0]]%Z 0 0
    = ([[0; 0; 0; 0]]%Z, Throw "Transfusion from [0,0,0,0] to [0,0,0,0] is invalid").
Proof. split; reflexivity. Qed.

(** On a flask that is neither empty nor full the call does return and
    changes nothing. *)
Lemma transfuse_same_index_partial (FlaskCapacity : nat)
    (flasks : list (list Z)) (i : Z) (flask : list Z) :
  (0 ≤ i)%Z → flasks !! Z.to_nat i = Some flask →
  flask ≠ [] → length flask ≠ FlaskCapacity →
  Puzzle.transfuse FlaskCapacity flasks i i = (flasks, Ok tt).
Proof.
  intros Hi Hflask Hne Hfull. unfold Puzzle.transfuse.
  assert (Puzzle.outOfBounds flasks i = false) as ->.
  { apply outOfBounds_false. apply lookup_lt_Some in Hflask. lia. }
  simpl. apply (transfuse_same _ _ _ flask); [done|].
  rewrite Flask_isTransfusionValid_alt, (list_lookup_total_correct _ _ _ Hflask).
  apply bool_decide_eq_true_2. auto.
Qed.

(** C1.  When [solve] returns a list of transfusions together with a number
    [e] of empty flasks, the puzzle made of the matrix followed by [e] empty
    flasks can be built, replaying the transfusions on it in order with
    [Puzzle.transfuse] throws nothing, and the puzzle it ends in is solved. *)
Theorem solve_solution_replays
    (FlaskCapacity DefaultEmptyFlasksNumber MaxEmptyFlasksNumber fuel : nat)
    (layersMatrix : list (list Z)) (solvingMethod : string)
    (transfusions : list (Z * Z)) (e : nat) :
  returned (Solver.solve FlaskCapacity DefaultEmptyFlasksNumber MaxEmptyFlasksNumber
              fuel layersMatrix solvingMethod)
  = Some (Ok (Some transfusions, e)) →
  ∃ puzzle final,
    Puzzle.new FlaskCapacity (layersMatrix ++ replicate e []) = Ok puzzle
    ∧ replay FlaskCapacity puzzle transfusions = (final, Ok tt)
    ∧ Puzzle.isSolved FlaskCapacity final = true.
Proof.
  unfold Solver.solve, Solver.solveWith. intros Hreturned.
  pose proof (solveFrom_spec FlaskCapacity _
                (S MaxEmptyFlasksNumber - DefaultEmptyFlasksNumber)
                DefaultEmptyFlasksNumber fuel layersMatrix []
                (switch_searches FlaskCapacity solvingMethod)) as Hspec.
  destruct (Solver.solveFrom _ _ _ _ _ _ _) as [|heap r]; [done|].
  simpl in Hreturned. injection Hreturned as ->.
  destruct Hspec as (_ & Hcap & final & Hreplay & Hsolved).
  exists (layersMatrix ++ replicate e []), final. split; [|done].
  apply Puzzle_new_Ok. by apply Forall_capacity_app_empty.
Qed.

(** The example of the design document, [[A,B,A,B]] and [[B,A,B,A]] with the
    method ["fastest"], for a capacity of 4 and from 2 to 4 empty flasks. *)
Lemma solve_solution_replays_example :
  ∃ puzzle final,
    Puzzle.new 4 ([[0; 1; 0; 1]; [1; 0; 1; 0]]%Z ++ replicate 2 []) = Ok puzzle
    ∧ replay 4 puzzle
        [(1, 2); (1, 3); (2, 1); (0, 3); (1, 2); (2, 0); (1, 3); (0, 2); (0, 3); (0, 2)]%Z
      = (final, Ok tt)
    ∧ Puzzle.isSolved 4 final = true.
Proof.
  apply (solve_solution_replays 4 2 4 100 [[0; 1; 0; 1]; [1; 0; 1; 0]]%Z "fastest").
  vm_compute. reflexivity.
Defined.

(** C2, as the code has it.  [solve] runs the search on the stack for the
    method ["fastest"] and for every value of the method other than
    ["balanced"] and ["shortest"], the search on the priority queue with
    [maxAllowedMetricDelta = 0] for ["balanced"], and the search on the
    priority queue with [maxAllowedMetricDelta = 1] for ["shortest"]. *)
Theorem solve_dispatch
    (FlaskCapacity DefaultEmptyFlasksNumber MaxEmptyFlasksNumber fuel : nat)
    (layersMatrix : list (list Z)) :
  Solver.solve FlaskCapacity DefaultEmptyFlasksNumber MaxEmptyFlasksNumber
    fuel layersMatrix "fastest"
  = Solver.solveWith FlaskCapacity DefaultEmptyFlasksNumber MaxEmptyFlasksNumber
      (Solver.solveUsingStack FlaskCapacity) fuel layersMatrix
  ∧ (∀ solvingMethod : string,
       solvingMethod ≠ "balanced" → solvingMethod ≠ "shortest" →
       Solver.solve FlaskCapacity DefaultEmptyFlasksNumber MaxEmptyFlasksNumber
         fuel layersMatrix solvingMethod
       = Solver.solveWith FlaskCapacity DefaultEmptyFlasksNumber MaxEmptyFlasksNumber
           (Solver.solveUsingStack FlaskCapacity) fuel layersMatrix)
  ∧ Solver.solve FlaskCapacity DefaultEmptyFlasksNumber MaxEmptyFlasksNumber
      fuel layersMatrix "balanced"
    = Solver.solveWith FlaskCapacity DefaultEmptyFlasksNumber MaxEmptyFlasksNumber
        (λ fuel puzzle heap,
           Solver.solveUsingPriorityQueue FlaskCapacity fuel puzzle 0 heap)
        fuel layersMatrix
  ∧ Solver.solve FlaskCapacity DefaultEmptyFlasksNumber MaxEmptyFlasksNumber
      fuel layersMatrix "shortest"
    = Solver.solveWith FlaskCapacity DefaultEmptyFlasksNumber MaxEmptyFlasksNumber
        (λ fuel puzzle heap,
           Solver.solveUsingPriorityQueue FlaskCapacity fuel puzzle 1 heap)
        fuel layersMatrix.
Proof.
  split; [done|]. split; [|by split].
  intros solvingMethod Hbalanced Hshortest. unfold Solver.solve, Solver.switch.
  apply String.eqb_neq in Hbalanced, Hshortest.
  by rewrite Hbalanced, Hshortest.
Qed.

(** A method that is none of the three, on the example of the design
    document: the search on the stack. *)
Lemma solve_dispatch_example :
  Solver.solve 4 2 4 100 [[0; 1; 0; 1]; [1; 0; 1; 0]]%Z "quickest"
  = Solver.solveWith 4 2 4 (Solver.solveUsingStack 4) 100 [[0; 1; 0; 1]; [1; 0; 1; 0]]%Z.
Proof.
  apply (solve_dispatch 4 2 4 100 [[0; 1; 0; 1]; [1; 0; 1; 0]]%Z); discriminate.
Defined.

(** C2, as the design document has it, fails: ["shortest"] does not run
    the search with tolerance 0, nor ["balanced"] the search with tolerance
    1.  With a capacity of 4 and one empty flask, for the puzzle below, the
    search with tolerance 0 finds nothing, and so does [solve] for
    ["balanced"]; the search with tolerance 1 finds a solution, and so does
    [solve] for ["shortest"].  The statement names no transfusion of the
    solutions: they are what the order in which the queue hands out steps
    that its comparator does not tell apart can change. *)
Lemma shortest_is_not_tolerance_0 :
  returned (Solver.solve 4 1 1 100 [[2; 2; 1; 2]; [2; 0; 1; 0]; [0; 1; 1; 0]]%Z "shortest")
  ≠ returned (Solver.solveWith 4 1 1
                (λ fuel puzzle heap, Solver.solveUsingPriorityQueue 4 fuel puzzle 0 heap)
                100 [[2; 2; 1; 2]; [2; 0; 1; 0]; [0; 1; 1; 0]]%Z)
  ∧ returned (Solver.solveWith 4 1 1
                (λ fuel puzzle heap, Solver.solveUsingPriorityQueue 4 fuel puzzle 0 heap)
                100 [[2; 2; 1; 2]; [2; 0; 1; 0]; [0; 1; 1; 0]]%Z)
    = Some (Ok (None, 2))
  ∧ (∃ solution,
       returned (Solver.solve 4 1 1 100 [[2; 2; 1; 2]; [2; 0; 1; 0]; [0; 1; 1; 0]]%Z
                   "shortest")
       = Some (Ok (Some solution, 1)))
  ∧ (∃ solution,
       returned (Solver.solveWith 4 1 1
                   (λ fuel puzzle heap, Solver.solveUsingPriorityQueue 4 fuel puzzle 1 heap)
                   100 [[2; 2; 1; 2]; [2; 0; 1; 0]; [0; 1; 1; 0]]%Z)
       = Some (Ok (Some solution, 1)))
  ∧ returned (Solver.solve 4 1 1 100 [[2; 2; 1; 2]; [2; 0; 1; 0]; [0; 1; 1; 0]]%Z
                "balanced")
    = Some (Ok (None, 2)).
Proof.
  assert (returned (Solver.solveWith 4 1 1
                      (λ fuel puzzle heap, Solver.solveUsingPriorityQueue 4 fuel puzzle 0 heap)
                      100 [[2; 2; 1; 2]; [2; 0; 1; 0]; [0; 1; 1; 0]]%Z)
          = Some (Ok (None, 2))) as Hnone by (by vm_compute).
  assert (∃ solution,
            returned (Solver.solveWith 4 1 1
                        (λ fuel puzzle heap,
                           Solver.solveUsingPriorityQueue 4 fuel puzzle 1 heap)
                        100 [[2; 2; 1; 2]; [2; 0; 1; 0]; [0; 1; 1; 0]]%Z)
            = Some (Ok (Some solution, 1))) as Hsome.
  { eexists. vm_compute. reflexivity. }
  split; [|split; [done|split; [done|split; [done|done]]]].
  destruct Hsome as [solution Hsome].
  change (returned (Solver.solve 4 1 1 100 [[2; 2; 1; 2]; [2; 0; 1; 0]; [0; 1; 1; 0]]%Z
                      "shortest"))
    with (returned (Solver.solveWith 4 1 1
                      (λ fuel puzzle heap,
                         Solver.solveUsingPriorityQueue 4 fuel puzzle 1 heap)
                      100 [[2; 2; 1; 2]; [2; 0; 1; 0]; [0; 1; 1; 0]]%Z)).
  rewrite Hsome, Hnone. discriminate.
Qed.

(** C7, as the code has it.  For a matrix whose rows are within the capacity
    and for which no number of empty flasks from [DefaultEmptyFlasksNumber]
    to [MaxEmptyFlasksNumber] admits a replay that ends in a solved puzzle,
    [solve] with enough fuel returns, throws nothing, and returns an absent
    solution with the value the counter of its loop ends on, which is
    [MaxEmptyFlasksNumber + 1] ([DefaultEmptyFlasksNumber] when that is
    larger); every search it runs returns [undefined], the stack or queue
    having been emptied. *)
Theorem solve_no_solution
    (FlaskCapacity DefaultEmptyFlasksNumber MaxEmptyFlasksNumber : nat)
    (layersMatrix : list (list Z)) (solvingMethod : string) :
  Forall (λ layers, length layers ≤ FlaskCapacity) layersMatrix →
  (∀ e transfusions,
     DefaultEmptyFlasksNumber ≤ e ≤ MaxEmptyFlasksNumber →
     ¬ solves FlaskCapacity (layersMatrix ++ replicate e []) transfusions) →
  ∃ enoughFuel, ∀ fuel, enoughFuel ≤ fuel →
    returned (Solver.solve FlaskCapacity DefaultEmptyFlasksNumber MaxEmptyFlasksNumber
                fuel layersMatrix solvingMethod)
    = Some (Ok (None, DefaultEmptyFlasksNumber `max` S MaxEmptyFlasksNumber))
    ∧ ∀ e heap puzzle,
        DefaultEmptyFlasksNumber ≤ e ≤ MaxEmptyFlasksNumber →
        heap !! puzzle = Some (layersMatrix ++ replicate e []) →
        returned (Solver.switch FlaskCapacity solvingMethod fuel puzzle heap)
        = Some (Ok None).
Proof.
  intros Hcap Hnone.
  set (iterations := S MaxEmptyFlasksNumber - DefaultEmptyFlasksNumber).
  exists (max_list (enough FlaskCapacity layersMatrix
                    <$> seq DefaultEmptyFlasksNumber iterations)).
  intros fuel Hfuel.
  assert (∀ e, DefaultEmptyFlasksNumber ≤ e < DefaultEmptyFlasksNumber + iterations →
               enough FlaskCapacity layersMatrix e ≤ fuel) as Henough.
  { intros e He. etrans; [|done]. apply max_list_elem_of_le.
    apply list_elem_of_fmap. exists e. split; [done|]. by apply elem_of_seq. }
  split.
  - unfold Solver.solve, Solver.solveWith. fold iterations.
    pose proof (solveFrom_spec FlaskCapacity _ iterations DefaultEmptyFlasksNumber
                  fuel layersMatrix [] (switch_searches FlaskCapacity solvingMethod))
      as Hspec.
    destruct (Solver.solveFrom _ _ _ _ _ _ _) as [|heap [[[transfusions|] e]|e]]; simpl.
    + destruct Hspec as (e & He & Hlt). specialize (Henough e He). lia.
    + destruct Hspec as (He & _ & Hsolves). exfalso.
      apply (Hnone e transfusions); [|done]. unfold iterations in He. lia.
    + do 3 f_equal. unfold iterations in Hspec. lia.
    + done.
  - intros e heap puzzle He Hpuzzle.
    pose proof (switch_searches FlaskCapacity solvingMethod fuel puzzle heap) as Hspec.
    rewrite (list_lookup_total_correct _ _ _ Hpuzzle) in Hspec.
    specialize (Hspec (lookup_lt_Some _ _ _ Hpuzzle)
                  (proj2 (Forall_capacity_app_empty _ _ _) Hcap)).
    destruct (Solver.switch _ _ _ _ _) as [|heap' [[transfusions|]|e']]; simpl.
    + specialize (Henough e). unfold enough, iterations in Henough. lia.
    + destruct Hspec as [_ Hsolves]. exfalso.
      apply (Hnone e transfusions); [done|]. by apply Hsolves.
    + done.
    + done.
Qed.

(** One layer cannot fill a flask of capacity 4, whatever the number of
    empty flasks. *)
Lemma solve_no_solution_example :
  ∃ enoughFuel, ∀ fuel, enoughFuel ≤ fuel →
    returned (Solver.solve 4 2 4 fuel [[0]]%Z "fastest") = Some (Ok (None, 2 `max` 5))
    ∧ ∀ e heap puzzle,
        2 ≤ e ≤ 4 →
        heap !! puzzle = Some ([[0]]%Z ++ replicate e []) →
        returned (Solver.switch 4 "fastest" fuel puzzle heap) = Some (Ok None).
Proof.
  apply (solve_no_solution 4 2 4 [[0]]%Z "fastest").
  - repeat constructor.
  - intros e transfusions _. apply unsolvable_layerCount.
    intros full. unfold layerCount. simpl. lia.
Defined.

(** C7, as the design document has it, fails on the value returned with the
    absent solution: it is not the bound.  With a capacity of 4 and at most
    4 empty flasks, the puzzle of one layer has no solution, and no run of
    [solve] returns the absent solution with 4: it comes with 5. *)
Lemma solve_failure_is_not_the_bound :
  (∀ e transfusions, ¬ solves 4 ([[0]]%Z ++ replicate e []) transfusions)
  ∧ returned (Solver.solve 4 2 4 10 [[0]]%Z "fastest") = Some (Ok (None, 5))
  ∧ ¬ ∃ fuel, returned (Solver.solve 4 2 4 fuel [[0]]%Z "fastest") = Some (Ok (None, 4)).
Proof.
  split; [|split].
  - intros e transfusions. apply unsolvable_layerCount.
    intros full. unfold layerCount. simpl. lia.
  - vm_compute. reflexivity.
  - intros [fuel Hfuel]. unfold Solver.solve, Solver.solveWith in Hfuel.
    pose proof (solveFrom_spec 4 _ (5 - 2) 2 fuel [[0]]%Z []
                  (switch_searches 4 "fastest")) as Hspec.
    destruct (Solver.solveFrom _ _ _ _ _ _ _) as [|heap [[[transfusions|] e]|e]];
      simpl in Hfuel; try done.
    injection Hfuel as ->. simpl in Hspec. lia.
Qed.

(** C9.  A search that ends leaves the puzzle it was called on, and every
    other puzzle that existed before the call, as it was: the heap after the
    call extends the heap before it. *)
Theorem search_leaves_puzzle_unchanged
    (FlaskCapacity fuel puzzle : nat) (maxAllowedMetricDelta : Z)
    (heap heap' : list (list (list Z))) (r : result (option (list (Z * Z)))) :
  puzzle < length heap →
  Solver.solveUsingStack FlaskCapacity fuel puzzle heap = Finished heap' r
  ∨ Solver.solveUsingPriorityQueue FlaskCapacity fuel puzzle maxAllowedMetricDelta heap
    = Finished heap' r →
  heap `prefix_of` heap'
  ∧ Puzzle.layersMatrix (heap' !!! puzzle) = Puzzle.layersMatrix (heap !!! puzzle).
Proof.
  intros Hlt Hrun.
  assert (heap `prefix_of` heap') as Hprefix.
  { destruct (decide (Forall (λ flask, length flask ≤ FlaskCapacity) (heap !!! puzzle)))
      as [Hcap|Hcap].
    - destruct Hrun as [Hrun|Hrun].
      + pose proof (solveUsingStack_searches FlaskCapacity fuel puzzle heap Hlt Hcap) as H.
        rewrite Hrun in H. by destruct r as [solution|e]; [destruct H|].
      + pose proof (solveUsingPriorityQueue_searches FlaskCapacity maxAllowedMetricDelta
                      fuel puzzle heap Hlt Hcap) as H.
        simpl in H. rewrite Hrun in H. by destruct r as [solution|e]; [destruct H|].
    - assert (∃ e, Puzzle.new FlaskCapacity (heap !!! puzzle) = Throw e) as [e He].
      { destruct (Puzzle.new FlaskCapacity (heap !!! puzzle)) as [flasks|e] eqn:Hnew;
          [|by eexists].
        by apply Puzzle_new_inv in Hnew as [_ ?]. }
      destruct Hrun as [Hrun|Hrun].
      + destruct fuel as [|fuel]; [done|].
        unfold Solver.solveUsingStack, Solver.solveUsingPriorityQueueOrStack in Hrun.
        simpl in Hrun. unfold Puzzle.flasks in Hrun. rewrite He in Hrun.
        by injection Hrun as <- _.
      + unfold Solver.solveUsingPriorityQueue, Solver.calculateSolutionMetric,
          Puzzle.flasks in Hrun.
        rewrite He in Hrun. by injection Hrun as <- _. }
  split; [done|]. destruct Hprefix as [more ->].
  by rewrite lookup_total_app_l.
Qed.

Lemma search_leaves_puzzle_unchanged_example :
  ∃ heap',
    [[[0; 0; 1; 1]; [1; 1; 0; 0]; []]]%Z `prefix_of` heap'
    ∧ Puzzle.layersMatrix (heap' !!! 0)
      = Puzzle.layersMatrix ([[[0; 0; 1; 1]; [1; 1; 0; 0]; []]]%Z !!! 0).
Proof.
  eexists.
  eapply (search_leaves_puzzle_unchanged 4 100 0 0 [[[0; 0; 1; 1]; [1; 1; 0; 0]; []]]%Z).
  - simpl. lia.
  - left. vm_compute. reflexivity.
Defined.

(** ** Further properties of the design document *)

(** X1.  Mass conservation: a call of [Puzzle.transfuse], returned or
    thrown, leaves the number of layers of the puzzle as it was. *)
Theorem transfuse_conserves_layers (FlaskCapacity : nat)
    (flasks : list (list Z)) (i j : Z) :
  layerCount (Puzzle.transfuse FlaskCapacity flasks i j).1 = layerCount flasks.
Proof.
  destruct (Puzzle.transfuse FlaskCapacity flasks i j) as [flasks' r] eqn:H.
  simpl. by eapply Puzzle_transfuse_layerCount.
Qed.

(** X2.  [solve] terminates on every input: with enough fuel no run is out
    of fuel. *)
Theorem solve_terminates
    (FlaskCapacity DefaultEmptyFlasksNumber MaxEmptyFlasksNumber : nat)
    (layersMatrix : list (list Z)) (solvingMethod : string) :
  ∃ enoughFuel, ∀ fuel, enoughFuel ≤ fuel →
    Solver.solve FlaskCapacity DefaultEmptyFlasksNumber MaxEmptyFlasksNumber
      fuel layersMatrix solvingMethod
    ≠ OutOfFuel.
Proof.
  set (iterations := S MaxEmptyFlasksNumber - DefaultEmptyFlasksNumber).
  exists (max_list (enough FlaskCapacity layersMatrix
                    <$> seq DefaultEmptyFlasksNumber iterations)).
  intros fuel Hfuel. unfold Solver.solve, Solver.solveWith. fold iterations.
  pose proof (solveFrom_spec FlaskCapacity _ iterations DefaultEmptyFlasksNumber
                fuel layersMatrix [] (switch_searches FlaskCapacity solvingMethod))
    as Hspec.
  destruct (Solver.solveFrom _ _ _ _ _ _ _) as [|heap r]; [|done].
  destruct Hspec as (e & He & Hlt). exfalso.
  assert (enough FlaskCapacity layersMatrix e ≤ fuel); [|lia].
  etrans; [|done]. apply max_list_elem_of_le.
  apply list_elem_of_fmap. exists e. split; [done|]. by apply elem_of_seq.
Qed.

(** X3.  Final-state correctness, with capacity 4: [[]] is final,
    [[X,X,X,X]] is final, [[X,X]] is not, and [[X,Y,X,Y]] is final only when
    [X] and [Y] are the same colour. *)
Theorem isInFinalState_examples (X Y : Z) :
  Flask.isInFinalState 4 [] = true
  ∧ Flask.isInFinalState 4 [X; X; X; X] = true
  ∧ Flask.isInFinalState 4 [X; X] = false
  ∧ Flask.isInFinalState 4 [X; Y; X; Y] = bool_decide (X = Y).
Proof.
  unfold Flask.isInFinalState, Flask.isEmpty, Flask.isFull. simpl.
  rewrite !bool_decide_true by done. simpl.
  repeat split. repeat case_bool_decide; simpl; congruence.
Qed.

(** X4.  A full flask of one colour adds [FlaskCapacity - 1] to the
    solution metric. *)
Theorem flaskMetric_full (FlaskCapacity : nat) (color : Z) :
  Solver.flaskMetric (replicate FlaskCapacity color)
  = ((Z.of_nat FlaskCapacity - 1) `max` 0)%Z.
Proof.
  destruct FlaskCapacity as [|n]; simpl; [done|].
  assert (Solver.sameAsPrevious color (replicate n color) = Z.of_nat n) as ->.
  { induction n as [|n IH]; simpl; [done|]. rewrite bool_decide_true by done. lia. }
  lia.
Qed.

(** * Further properties of the code *)

(** ** The solutions that the search returns *)

Section Paths.

Variable FlaskCapacity : nat.

Lemma legal_snoc (transfusions : list (Z * Z)) (i j : Z) : ∀ flasks final,
  replay FlaskCapacity flasks transfusions = (final, Ok tt) →
  legal FlaskCapacity flasks (transfusions ++ [(i, j)])
  = legal FlaskCapacity flasks transfusions
    && match Puzzle.isTransfusionValid FlaskCapacity final i j with
       | Ok true => true
       | _ => false
       end.
Proof.
  induction transfusions as [|[i' j'] rest IH]; intros flasks final; simpl.
  - intros [= <-]. by destruct (Puzzle.isTransfusionValid _ _ _ _) as [[]|].
  - destruct (Puzzle.transfuse FlaskCapacity flasks i' j') as [flasks' [[]|e]] eqn:H;
      [|done].
    intros Hrest. simpl.
    destruct (Puzzle.isTransfusionValid FlaskCapacity flasks i' j') as [[]|]; try done.
    by apply IH.
Qed.

Lemma path_snoc (transfusions : list (Z * Z)) (i j : Z) : ∀ flasks final,
  replay FlaskCapacity flasks transfusions = (final, Ok tt) →
  path FlaskCapacity flasks (transfusions ++ [(i, j)])
  = path FlaskCapacity flasks transfusions
    ++ [(Puzzle.transfuse FlaskCapacity final i j).1].
Proof.
  induction transfusions as [|[i' j'] rest IH]; intros flasks final; simpl.
  - by intros [= <-].
  - destruct (Puzzle.transfuse FlaskCapacity flasks i' j') as [flasks' [[]|e]] eqn:H;
      [|done].
    intros Hrest. simpl. f_equal. by apply IH.
Qed.

End Paths.

Section SearchPaths.

Variable FlaskCapacity : nat.
Context {Step Frontier Filter : Type}.
Variable step_puzzle : Step → nat.
Variable step_transfusions : Step → list (Z * Z).
Variable getStep : Frontier → option (Step * Frontier).
Variable addStep : Step → Frontier → Frontier.
Variable preliminaryFilter : Filter → Step → bool * Filter.
Variable initializeNextStep :
  Step → nat → Z * Z → list (list (list Z)) → result Step.

Variable elements : Frontier → list Step.
Hypothesis getStep_elements : ∀ frontier step rest,
  getStep frontier = Some (step, rest) → elements frontier ≡ₚ step :: elements rest.
Hypothesis addStep_elements : ∀ step frontier,
  elements (addStep step frontier) ≡ₚ step :: elements frontier.
Hypothesis initializeNextStep_Ok : ∀ step state transfusion heap,
  Forall (λ flask, length flask ≤ FlaskCapacity) (heap !!! state) →
  ∃ nextStep,
    initializeNextStep step state transfusion heap = Ok nextStep
    ∧ step_puzzle nextStep = state
    ∧ step_transfusions nextStep = step_transfusions step ++ [transfusion].

Variable start : list (list Z).
Hypothesis start_capacity : Forall (λ flask, length flask ≤ FlaskCapacity) start.

Local Abbreviation state := (@Solver.state Frontier Filter).
Local Abbreviation sound := (sound FlaskCapacity step_puzzle step_transfusions start).
Local Abbreviation visit :=
  (Solver.visit FlaskCapacity step_puzzle step_transfusions addStep
     preliminaryFilter initializeNextStep).
Local Abbreviation expand :=
  (Solver.expand FlaskCapacity step_puzzle step_transfusions addStep
     preliminaryFilter initializeNextStep).
Local Abbreviation loop :=
  (Solver.loop FlaskCapacity step_puzzle step_transfusions getStep addStep
     preliminaryFilter initializeNextStep).

Local Abbreviation trodden := (trodden FlaskCapacity step_transfusions start).
Local Abbreviation waiting :=
  (waiting FlaskCapacity step_puzzle step_transfusions elements start).

Lemma trodden_more visited visited' step :
  visited ⊆ visited' → trodden visited step → trodden visited' step.
Proof. intros Hsub (? & ? & Hin). repeat split; [done..|]. set_solver. Qed.

Lemma trodden_next visited step nextStep flasks flasks' i j :
  replay FlaskCapacity start (step_transfusions step) = (flasks, Ok tt) →
  Puzzle.isTransfusionValid FlaskCapacity flasks i j = Ok true →
  Puzzle.transfuse FlaskCapacity flasks i j = (flasks', Ok tt) →
  step_transfusions nextStep = step_transfusions step ++ [(i, j)] →
  Solver.fingerprint flasks' ∉ visited →
  trodden visited step →
  trodden ({[Solver.fingerprint flasks']} ∪ visited) nextStep
  ∧ direct FlaskCapacity start (step_transfusions nextStep).
Proof.
  intros Hreplay Hvalid Htransfuse Hnext Hfresh (Hlegal & Hdup & Hvisited).
  unfold trodden. rewrite Hnext.
  assert (NoDup (Solver.fingerprint
                 <$> start :: path FlaskCapacity start
                                (step_transfusions step ++ [(i, j)]))) as Hdup'.
  { rewrite (path_snoc _ _ _ _ _ _ Hreplay), Htransfuse. cbn [fst].
    rewrite app_comm_cons, fmap_app. apply NoDup_app. split; [done|].
    split; [|apply NoDup_singleton].
    intros fp Hfp Hfp'. apply list_elem_of_singleton in Hfp'.
    apply list_elem_of_fmap in Hfp as (flasks0 & Heq & Hin).
    apply Hfresh. rewrite <- Hfp', Heq. by apply Hvisited. }
  assert (legal FlaskCapacity start (step_transfusions step ++ [(i, j)]) = true)
    as Hlegal'.
  { by rewrite (legal_snoc _ _ _ _ _ _ Hreplay), Hlegal, Hvalid. }
  split; [split; [done|split; [done|]]|split; [|done]].
  - intros flasks0. rewrite (path_snoc _ _ _ _ _ _ Hreplay), Htransfuse. cbn [fst].
    rewrite app_comm_cons, elem_of_app, list_elem_of_singleton.
    intros [Hin| ->]; [|set_solver]. apply Hvisited in Hin. set_solver.
  - by destruct (step_transfusions step).
Qed.

Lemma visit_paths step i j (st : state) :
  (0 ≤ i < Z.of_nat (length start))%Z → (0 ≤ j < Z.of_nat (length start))%Z →
  sound (Solver.heap st) step → trodden (Solver.visited st) step → waiting st →
  match visit step i j st with
  | Solver.Next st' =>
      Solver.heap st `prefix_of` Solver.heap st'
      ∧ Solver.visited st ⊆ Solver.visited st'
      ∧ waiting st'
  | Solver.Stop heap' (Ok transfusions) => direct FlaskCapacity start transfusions
  | Solver.Stop heap' (Throw _) => True
  end.
Proof.
  intros Hi Hj (Hlt & Hwithin & Hreplay) Htrodden Hinv. unfold Solver.visit.
  destruct Hwithin as (Hlen & Hcap & Hcol). rewrite <- Hlen in Hi, Hj.
  destruct (isTransfusionValid_in_range FlaskCapacity _ i j Hi Hj)
    as (valid & Hvalid & Htransfuse).
  rewrite Hvalid.
  destruct valid; [|done].
  destruct (Htransfuse eq_refl) as [flasks' Htransfuse']. clear Htransfuse.
  unfold Solver.copyPuzzle, Solver.allocate, Puzzle.copy.
  rewrite (Puzzle_new_Ok _ _ Hcap).
  unfold Solver.transfusePuzzle.
  rewrite lookup_total_app_r, Nat.sub_diag by done. simpl.
  rewrite Htransfuse'.
  rewrite insert_app_r_alt, Nat.sub_diag by done. simpl.
  set (heap2 := Solver.heap st ++ [flasks']).
  assert (Solver.heap st `prefix_of` heap2) as Hprefix by by eexists.
  assert (heap2 !!! length (Solver.heap st) = flasks') as Hnew.
  { unfold heap2. by rewrite lookup_total_app_r, Nat.sub_diag. }
  assert (within FlaskCapacity start flasks') as Hwithin'.
  { eapply within_transfuse; [done|]. by split. }
  rewrite Hnew.
  assert (Forall (λ s, sound heap2 s ∧ trodden (Solver.visited st) s)
            (elements (Solver.stackOrQueue st))) as Hold.
  { eapply Forall_impl; [done|]. intros s [Hs Ht]. split; [|done].
    by eapply sound_prefix. }
  case_bool_decide as Hvisited; [done|].
  destruct (initializeNextStep_Ok step (length (Solver.heap st)) (i, j) heap2)
    as (nextStep & -> & Hpuzzle & Htransfusions).
  { rewrite Hnew. apply Hwithin'. }
  rewrite Hpuzzle, Hnew.
  destruct (trodden_next _ _ nextStep _ _ i j Hreplay Hvalid Htransfuse'
              Htransfusions Hvisited Htrodden) as [Htrodden' Hdirect].
  destruct (Puzzle.isSolved FlaskCapacity flasks') eqn:Hsolved; [done|].
  destruct (preliminaryFilter (Solver.filter st) nextStep) as [admitted filter'].
  split; [done|]. simpl. split; [set_solver|].
  assert (sound heap2 nextStep) as Hsound.
  { unfold sound. rewrite Hpuzzle, Hnew. unfold heap2.
    rewrite length_app. simpl. split; [lia|]. split; [done|].
    by rewrite Htransfusions, replay_snoc, Hreplay. }
  assert (Forall (λ s, sound heap2 s
                       ∧ trodden ({[Solver.fingerprint flasks']} ∪ Solver.visited st) s)
            (elements (Solver.stackOrQueue st))) as Hold'.
  { eapply Forall_impl; [done|]. intros s [Hs Ht]. split; [done|].
    eapply trodden_more; [|done]. set_solver. }
  unfold waiting. simpl. destruct admitted; [|done].
  rewrite addStep_elements. by constructor.
Qed.

Lemma expand_paths step pairs : ∀ st : state,
  Forall (λ '(i, j), (0 ≤ i < Z.of_nat (length start))%Z
                     ∧ (0 ≤ j < Z.of_nat (length start))%Z) pairs →
  sound (Solver.heap st) step → trodden (Solver.visited st) step → waiting st →
  match expand step pairs st with
  | Solver.Next st' => waiting st'
  | Solver.Stop heap' (Ok transfusions) => direct FlaskCapacity start transfusions
  | Solver.Stop heap' (Throw _) => True
  end.
Proof.
  induction pairs as [|[i j] pairs IH]; intros st Hpairs Hstep Htrodden Hinv;
    simpl; [done|].
  apply Forall_cons in Hpairs as [[Hi Hj] Hpairs].
  pose proof (visit_paths step i j st Hi Hj Hstep Htrodden Hinv) as Hvisit.
  destruct (visit step i j st) as [st'|heap' [transfusions|e]]; [|done..].
  destruct Hvisit as (Hprefix & Hsub & Hinv').
  apply (IH st' Hpairs); [by eapply sound_prefix|by eapply trodden_more|done].
Qed.

Lemma loop_paths fuel : ∀ (st : state) heap' transfusions,
  waiting st →
  loop fuel st = Finished heap' (Ok (Some transfusions)) →
  direct FlaskCapacity start transfusions.
Proof.
  induction fuel as [|fuel IH]; intros st heap' transfusions Hinv; simpl; [done|].
  destruct (getStep (Solver.stackOrQueue st)) as [[step rest]|] eqn:Hget; [|done].
  apply getStep_elements in Hget.
  assert ((sound (Solver.heap st) step ∧ trodden (Solver.visited st) step)
          ∧ Forall (λ s, sound (Solver.heap st) s ∧ trodden (Solver.visited st) s)
              (elements rest)) as [[Hstep Htrodden] Hrest].
  { unfold waiting in Hinv. rewrite Hget in Hinv. by apply Forall_cons in Hinv. }
  destruct (preliminaryFilter (Solver.filter st) step) as [admitted filter'].
  set (st' := Solver.State (Solver.heap st) rest (Solver.visited st) filter').
  assert (waiting st') as Hinv' by done.
  destruct admitted; [|by apply IH].
  pose proof Hstep as (Hlt & (Hlen & Hcap & Hcol) & Hreplay).
  unfold Puzzle.flasks. rewrite (Puzzle_new_Ok _ _ Hcap), Hlen.
  pose proof (expand_paths step (Solver.pairs (length start)) st'
                (pairs_in_range _) Hstep Htrodden Hinv') as Hexpand.
  destruct (expand step (Solver.pairs (length start)) st')
    as [st''|heap'' [transfusions'|e]]; [by apply IH| |done].
  by intros [= _ <-].
Qed.

Lemma solveUsingPriorityQueueOrStack_paths
    fuel puzzle stackOrQueue filter heap heap' transfusions :
  puzzle < length heap → heap !!! puzzle = start →
  Forall (λ step, step_puzzle step = puzzle ∧ step_transfusions step = [])
    (elements stackOrQueue) →
  Solver.solveUsingPriorityQueueOrStack FlaskCapacity step_puzzle
    step_transfusions getStep addStep preliminaryFilter initializeNextStep
    fuel puzzle stackOrQueue filter heap
  = Finished heap' (Ok (Some transfusions)) →
  direct FlaskCapacity start transfusions.
Proof.
  intros Hlt Hstart Hsteps. unfold Solver.solveUsingPriorityQueueOrStack.
  apply loop_paths. unfold waiting. simpl. eapply Forall_impl; [done|].
  intros step [Hpuzzle Hnone]. unfold sound, trodden.
  rewrite Hpuzzle, Hnone, Hstart. simpl.
  split; [split; [done|split; [by apply within_start|done]]|].
  split; [done|]. split; [apply NoDup_singleton|]. set_solver.
Qed.

End SearchPaths.

Section Finds.

Variable FlaskCapacity : nat.

Lemma solveUsingStack_direct :
  finds FlaskCapacity (direct FlaskCapacity) (Solver.solveUsingStack FlaskCapacity).
Proof.
  intros fuel puzzle heap heap' transfusions Hlt Hcap. unfold Solver.solveUsingStack.
  apply (solveUsingPriorityQueueOrStack_paths FlaskCapacity
           StackStep.puzzle StackStep.transfusions Solver.pop Solver.push
           _ Solver.nextStackStep id); try done.
  - intros stack step rest. apply pop_elements.
  - intros step stack. apply push_elements.
  - intros step state transfusion heap0 _. by eexists.
  - by repeat constructor.
Qed.

Lemma solveUsingPriorityQueue_direct maxAllowedMetricDelta :
  finds FlaskCapacity (direct FlaskCapacity) (λ fuel puzzle heap,
    Solver.solveUsingPriorityQueue FlaskCapacity fuel puzzle maxAllowedMetricDelta heap).
Proof.
  intros fuel puzzle heap heap' transfusions Hlt Hcap.
  unfold Solver.solveUsingPriorityQueue.
  destruct (calculateSolutionMetric_Ok _ _ Hcap) as [metric ->].
  apply (solveUsingPriorityQueueOrStack_paths FlaskCapacity
           PriorityQueueStep.puzzle PriorityQueueStep.transfusions
           (PriorityQueue.dequeue Solver.comparator) PriorityQueue.queue
           _ (Solver.nextPriorityQueueStep FlaskCapacity) id); try done.
  - intros values step rest. apply dequeue_elements.
  - intros step values. apply queue_elements.
  - intros step state transfusion heap0 Hcap'.
    unfold Solver.nextPriorityQueueStep.
    destruct (calculateSolutionMetric_Ok _ _ Hcap') as [metric' ->]. by eexists.
  - by repeat constructor.
Qed.

Lemma switch_direct solvingMethod :
  finds FlaskCapacity (direct FlaskCapacity) (Solver.switch FlaskCapacity solvingMethod).
Proof.
  unfold Solver.switch. intros fuel puzzle heap.
  destruct (String.eqb solvingMethod "shortest");
    [apply (solveUsingPriorityQueue_direct 1)|].
  destruct (String.eqb solvingMethod "balanced");
    [apply (solveUsingPriorityQueue_direct 0)|].
  apply solveUsingStack_direct.
Qed.

(** What the loop of [solve] returns with a solution: the number of
    empty flasks is one that the loop tried, and the solution is what the
    search promises for the matrix with that many empty flasks. *)
Lemma solveFrom_finds good run iterations :
  ∀ i fuel layersMatrix heap heap' transfusions e,
    finds FlaskCapacity good run →
    Solver.solveFrom FlaskCapacity run iterations i fuel layersMatrix heap
    = Finished heap' (Ok (Some transfusions, e)) →
    i ≤ e < i + iterations ∧ good (layersMatrix ++ replicate e []) transfusions.
Proof.
  induction iterations as [|iterations IH];
    intros i fuel layersMatrix heap heap' transfusions e Hrun; simpl; [done|].
  destruct (Solver.newPuzzle _ _ heap) as [heap1 r] eqn:Hnew.
  apply newPuzzle_inv in Hnew as [(e' & -> & -> & Hbad)|(-> & -> & Hcap)]; [done|].
  pose proof (Hrun fuel (length heap) (heap ++ [layersMatrix ++ replicate i []]))
    as Hsearch.
  rewrite lookup_total_app_r, Nat.sub_diag in Hsearch by done. simpl in Hsearch.
  rewrite length_app in Hsearch. simpl in Hsearch.
  destruct (run fuel _ _) as [|heap2 [[transfusions'|]|e']]; [done| | |done].
  - intros [= <- <- <-]. split; [lia|]. eapply Hsearch; [lia|done..].
  - intros Hrest. apply IH in Hrest as [He Hgood]; [|done]. split; [lia|done].
Qed.

(** Every number of empty flasks below the one returned was tried, and the
    search on the matrix with that many empty flasks returned [undefined]. *)
Lemma solveFrom_least run iterations :
  ∀ i fuel layersMatrix heap heap' solution e,
    Solver.solveFrom FlaskCapacity run iterations i fuel layersMatrix heap
    = Finished heap' (Ok (solution, e)) →
    ∀ e', i ≤ e' < e →
      ∃ heap1 heap2,
        run fuel (length heap1) (heap1 ++ [layersMatrix ++ replicate e' []])
        = Finished heap2 (Ok None).
Proof.
  induction iterations as [|iterations IH];
    intros i fuel layersMatrix heap heap' solution e; simpl.
  { intros [= <- <- <-]. lia. }
  destruct (Solver.newPuzzle _ _ heap) as [heap1 r] eqn:Hnew.
  apply newPuzzle_inv in Hnew as [(e' & -> & -> & Hbad)|(-> & -> & Hcap)]; [done|].
  destruct (run fuel _ _) as [|heap2 [[transfusions'|]|e']] eqn:Hrun; [done| | |done].
  - intros [= <- <- <-]. lia.
  - intros Hrest e' He'. destruct (decide (e' = i)) as [->|Hne].
    + by exists heap, heap2.
    + eapply IH; [done|lia].
Qed.

End Finds.

(** X5.  A solution that [solve] returns is not empty, comes with a number
    of empty flasks from [DefaultEmptyFlasksNumber] to
    [MaxEmptyFlasksNumber], and each of its transfusions is one that
    [Puzzle.isTransfusionValid] accepts on the puzzle it is applied to. *)
Theorem solve_solution_legal
    (FlaskCapacity DefaultEmptyFlasksNumber MaxEmptyFlasksNumber fuel : nat)
    (layersMatrix : list (list Z)) (solvingMethod : string)
    (transfusions : list (Z * Z)) (e : nat) :
  returned (Solver.solve FlaskCapacity DefaultEmptyFlasksNumber MaxEmptyFlasksNumber
              fuel layersMatrix solvingMethod)
  = Some (Ok (Some transfusions, e)) →
  DefaultEmptyFlasksNumber ≤ e ≤ MaxEmptyFlasksNumber
  ∧ transfusions ≠ []
  ∧ legal FlaskCapacity (layersMatrix ++ replicate e []) transfusions = true.
Proof.
  unfold Solver.solve, Solver.solveWith. intros Hreturned.
  destruct (Solver.solveFrom _ _ _ _ _ _ _) as [|heap r] eqn:Hsolve; [done|].
  simpl in Hreturned. injection Hreturned as ->.
  apply (solveFrom_finds FlaskCapacity (direct FlaskCapacity)) in Hsolve
    as [He (Hsome & Hlegal & _)]; [|apply switch_direct].
  split; [lia|done].
Qed.

Lemma solve_solution_legal_example :
  (2 ≤ 2 ≤ 4)
  ∧ [(1, 2); (1, 3); (2, 1); (0, 3); (1, 2); (2, 0); (1, 3); (0, 2); (0, 3); (0, 2)]%Z
    ≠ []
  ∧ legal 4 ([[0; 1; 0; 1]; [1; 0; 1; 0]]%Z ++ replicate 2 [])
      [(1, 2); (1, 3); (2, 1); (0, 3); (1, 2); (2, 0); (1, 3); (0, 2); (0, 3); (0, 2)]%Z
    = true.
Proof.
  apply (solve_solution_legal 4 2 4 100 [[0; 1; 0; 1]; [1; 0; 1; 0]]%Z "fastest").
  vm_compute. reflexivity.
Defined.

(** X6.  The search never goes back to a layout it has been in: the puzzles
    that a returned solution passes through, the starting one included,
    have fingerprints that all differ. *)
Theorem solve_solution_no_revisit
    (FlaskCapacity DefaultEmptyFlasksNumber MaxEmptyFlasksNumber fuel : nat)
    (layersMatrix : list (list Z)) (solvingMethod : string)
    (transfusions : list (Z * Z)) (e : nat) :
  returned (Solver.solve FlaskCapacity DefaultEmptyFlasksNumber MaxEmptyFlasksNumber
              fuel layersMatrix solvingMethod)
  = Some (Ok (Some transfusions, e)) →
  let start := layersMatrix ++ replicate e [] in
  NoDup (Solver.fingerprint <$> start :: path FlaskCapacity start transfusions).
Proof.
  unfold Solver.solve, Solver.solveWith. intros Hreturned.
  destruct (Solver.solveFrom _ _ _ _ _ _ _) as [|heap r] eqn:Hsolve; [done|].
  simpl in Hreturned. injection Hreturned as ->.
  apply (solveFrom_finds FlaskCapacity (direct FlaskCapacity)) in Hsolve
    as [He (_ & _ & Hdup)]; [|apply switch_direct].
  done.
Qed.

Lemma solve_solution_no_revisit_example :
  let start := [[0; 0; 1]; [1; 1; 0]]%Z ++ replicate 1 [] in
  NoDup (Solver.fingerprint <$> start :: path 3 start [(1, 2); (0, 1); (0, 2)]%Z).
Proof.
  apply (solve_solution_no_revisit 3 1 1 100 [[0; 0; 1]; [1; 1; 0]]%Z "fastest").
  vm_compute. reflexivity.
Defined.

(** X7.  The number of empty flasks that [solve] returns is the first one,
    from [DefaultEmptyFlasksNumber] up, at which the search finds a
    solution: for every smaller one the search was run on the matrix with
    that many empty flasks and returned [undefined]. *)
Theorem solve_least_empty_flasks
    (FlaskCapacity DefaultEmptyFlasksNumber MaxEmptyFlasksNumber fuel : nat)
    (layersMatrix : list (list Z)) (solvingMethod : string)
    (solution : option (list (Z * Z))) (e : nat) :
  returned (Solver.solve FlaskCapacity DefaultEmptyFlasksNumber MaxEmptyFlasksNumber
              fuel layersMatrix solvingMethod)
  = Some (Ok (solution, e)) →
  ∀ e', DefaultEmptyFlasksNumber ≤ e' < e →
    ∃ heap puzzle,
      heap !! puzzle = Some (layersMatrix ++ replicate e' [])
      ∧ returned (Solver.switch FlaskCapacity solvingMethod fuel puzzle heap)
        = Some (Ok None).
Proof.
  unfold Solver.solve, Solver.solveWith. intros Hreturned e' He'.
  destruct (Solver.solveFrom _ _ _ _ _ _ _) as [|heap r] eqn:Hsolve; [done|].
  simpl in Hreturned. injection Hreturned as ->.
  destruct (solveFrom_least _ _ _ _ _ _ _ _ _ _ Hsolve e' He') as (heap1 & heap2 & Hrun).
  exists (heap1 ++ [layersMatrix ++ replicate e' []]), (length heap1).
  split; [by rewrite lookup_app_r, Nat.sub_diag by done|]. by rewrite Hrun.
Qed.

(** With capacity 2 and from 0 to 1 empty flasks: [[0,1]] and [[1,0]] have
    no transfusion without an empty flask, and are solved with one. *)
Lemma solve_least_empty_flasks_example :
  ∃ heap puzzle,
    heap !! puzzle = Some ([[0; 1]; [1; 0]]%Z ++ replicate 0 [])
    ∧ returned (Solver.switch 2 "fastest" 100 puzzle heap) = Some (Ok None).
Proof.
  apply (solve_least_empty_flasks 2 0 1 100 [[0; 1]; [1; 0]]%Z "fastest"
           (Some [(1, 2); (0, 1); (0, 2)]%Z) 1).
  - vm_compute. reflexivity.
  - lia.
Defined.

(** ** Swapping two flasks, colours of a puzzle *)

Lemma insert_head_Permutation {A : Type} (l : list A) : ∀ (d : nat) (x y : A),
  l !! d = Some y → y :: <[d := x]> l ≡ₚ x :: l.
Proof.
  induction l as [|z l IH]; intros [|d] x y; simpl; try done.
  - intros [= ->]. apply perm_swap.
  - intros H. rewrite perm_swap, (IH d x y H). apply perm_swap.
Qed.

Lemma insert_swap_Permutation {A : Type} (l : list A) : ∀ (s d : nat) (x y : A),
  s ≠ d → l !! s = Some x → l !! d = Some y →
  <[d := x]> (<[s := y]> l) ≡ₚ l.
Proof.
  induction l as [|z l IH]; intros [|s] [|d] x y Hne; simpl; try done.
  - intros [= ->] Hd. by apply insert_head_Permutation.
  - intros Hs [= ->]. by apply insert_head_Permutation.
  - intros Hs Hd. f_equiv. apply IH; [lia|done..].
Qed.

Lemma mjoin_insert (flasks : list (list Z)) : ∀ (i : nat) (old new : list Z),
  flasks !! i = Some old →
  mjoin (<[i := new]> flasks) ++ old ≡ₚ mjoin flasks ++ new.
Proof.
  induction flasks as [|flask flasks IH]; intros [|i] old new; simpl; try done.
  - intros [= ->]. rewrite (Permutation_app_comm _ old), <- (app_assoc old).
    f_equiv. apply Permutation_app_comm.
  - intros H. rewrite <- !app_assoc. f_equiv. by apply IH.
Qed.

Lemma toStringWithSort_Permutation (flasks flasks' : list (list Z)) :
  flasks ≡ₚ flasks' → Solver.fingerprint flasks = Solver.fingerprint flasks'.
Proof.
  intros Hp. unfold Solver.fingerprint, Puzzle.toStringWithSort. do 2 f_equal.
  apply sort_Permutation. by apply fmap_Permutation.
Qed.

Section Runs.

Variable FlaskCapacity : nat.

Lemma Puzzle_transfuse_mjoin (flasks flasks' : list (list Z)) (i j : Z) r :
  Puzzle.transfuse FlaskCapacity flasks i j = (flasks', r) →
  mjoin flasks' ≡ₚ mjoin flasks.
Proof.
  intros H. apply Puzzle_transfuse_cases in H
    as [->|(s & d & source & destination & k & Hne & Hs & Hd & Hk & Hfree & -> & ->)];
    [done|].
  set (n := length source - k).
  assert (<[s := take n source]> flasks !! d = Some destination) as Hd'.
  { by rewrite list_lookup_insert_ne. }
  pose proof (mjoin_insert _ d destination
                (destination ++ reverse (drop n source)) Hd') as H1.
  pose proof (mjoin_insert _ s source (take n source) Hs) as H2.
  assert (∃ tops rest, drop n source = tops ∧ take n source = rest
                       ∧ source ≡ₚ rest ++ tops) as (tops & rest & Htops & Hrest & Hsource).
  { eexists _, _. split; [done|]. split; [done|]. by rewrite take_drop. }
  rewrite Htops, Hrest in *.
  apply (Permutation_app_inv_r (destination ++ source)).
  trans ((mjoin (<[d := destination ++ reverse tops]> (<[s := rest]> flasks))
          ++ destination) ++ source); [by rewrite <- app_assoc|].
  rewrite H1.
  trans ((mjoin (<[s := rest]> flasks) ++ source) ++ destination ++ reverse tops).
  { rewrite <- !app_assoc. f_equiv. rewrite (app_assoc destination).
    apply Permutation_app_comm. }
  rewrite H2, <- app_assoc. f_equiv.
  rewrite reverse_Permutation, Hsource, !app_assoc. f_equiv.
  apply Permutation_app_comm.
Qed.

(** A flask that is not empty is a body below a run of one colour, the
    run that the first loop of [Flask.transfuse] counts. *)
Lemma run_decomposition (source : list Z) :
  source ≠ [] →
  ∃ body r top,
    source = body ++ replicate r top ∧ 0 < r ∧ last body ≠ Some top.
Proof.
  induction source as [|x source IH] using rev_ind; [done|]. intros _.
  destruct (decide (source = [])) as [->|Hne].
  { exists [], 1, x. split; [done|]. split; [lia|done]. }
  destruct (IH Hne) as (body & r & top & -> & Hr & Hbody).
  destruct (decide (x = top)) as [->|Hx].
  - exists body, (S r), top. split; [|split; [lia|done]].
    by rewrite <- app_assoc, replicate_S_end.
  - exists (body ++ replicate r top), 1, x. split; [done|]. split; [lia|].
    rewrite last_replicate_snoc by done. congruence.
Qed.

Lemma transfuse_run (flasks : list (list Z)) (s d : nat)
    (body destination : list Z) (top : Z) (r : nat) :
  s ≠ d → flasks !! s = Some (body ++ replicate r top) →
  0 < r → last body ≠ Some top →
  flasks !! d = Some destination →
  Flask.isTransfusionValid FlaskCapacity flasks s d = true →
  let k := r `min` (FlaskCapacity - length destination) in
  Flask.transfuse FlaskCapacity flasks s d
  = (<[d := destination ++ replicate k top]>
       (<[s := body ++ replicate (r - k) top]> flasks),
     Ok tt).
Proof.
  intros Hne Hs Hr Hbody Hd Hvalid k.
  rewrite (transfuse_distinct _ _ _ _ _ _ Hne Hs Hd Hvalid). simpl.
  rewrite poured_min, layersWithSameColor_run by done.
  replace ((FlaskCapacity - length destination) `min` r) with k by lia.
  rewrite length_app, length_replicate.
  replace (length body + r - k) with (length body + (r - k)) by lia.
  rewrite take_app_add, drop_app_add, take_replicate, drop_replicate.
  rewrite reverse_replicate.
  replace ((r - k) `min` r) with (r - k) by lia.
  replace (r - (r - k)) with k by lia. done.
Qed.

(** What [Puzzle.isTransfusionValid] returning true means. *)
Lemma Puzzle_isTransfusionValid_true (flasks : list (list Z)) (i j : Z) :
  Puzzle.isTransfusionValid FlaskCapacity flasks i j = Ok true →
  ∃ source destination,
    Z.to_nat i ≠ Z.to_nat j
    ∧ flasks !! Z.to_nat i = Some source
    ∧ flasks !! Z.to_nat j = Some destination
    ∧ Flask.isTransfusionValid FlaskCapacity flasks (Z.to_nat i) (Z.to_nat j) = true
    ∧ Puzzle.transfuse FlaskCapacity flasks i j
      = Flask.transfuse FlaskCapacity flasks (Z.to_nat i) (Z.to_nat j).
Proof.
  unfold Puzzle.isTransfusionValid, Puzzle.transfuse.
  destruct (Puzzle.outOfBounds flasks i) eqn:Hi; [done|].
  destruct (Puzzle.outOfBounds flasks j) eqn:Hj; [done|]. simpl.
  case_bool_decide as Hne; [done|]. intros [= Hvalid].
  destruct (outOfBounds_lookup _ _ Hi) as [source Hs].
  destruct (outOfBounds_lookup _ _ Hj) as [destination Hd].
  apply outOfBounds_false in Hi, Hj.
  exists source, destination. repeat split; try done. lia.
Qed.

Lemma isSolved_Permutation (flasks flasks' : list (list Z)) :
  flasks ≡ₚ flasks' →
  Puzzle.isSolved FlaskCapacity flasks = Puzzle.isSolved FlaskCapacity flasks'.
Proof.
  intros Hp. unfold Puzzle.isSolved. f_equal.
  induction Hp; simpl; [done| |by rewrite !orb_assoc, (orb_comm (negb _))|congruence].
  by rewrite IHHp.
Qed.

Lemma isInFinalState_replicate (layers : list Z) :
  Flask.isInFinalState FlaskCapacity layers = true → layers ≠ [] →
  ∃ top, layers = replicate FlaskCapacity top ∧ 0 < FlaskCapacity.
Proof.
  unfold Flask.isInFinalState, Flask.isEmpty, Flask.isFull.
  destruct layers as [|top layers]; [done|]. intros H _.
  rewrite bool_decide_false in H by done. simpl in H.
  apply andb_true_iff in H as [Hfull Hall]. apply bool_decide_eq_true in Hfull.
  exists top. split; [|simpl in Hfull; lia].
  rewrite <- Hfull. symmetry. apply replicate_as_Forall. split; [done|].
  apply Forall_forall. intros x Hx.
  rewrite andb_true_iff, forallb_forall in Hall. destruct Hall as [_ Hall].
  apply elem_of_cons in Hx as [->|Hx]; [done|].
  apply list_elem_of_In, Hall, bool_decide_eq_true in Hx. congruence.
Qed.

(** In a solved puzzle a valid transfusion moves a full flask into an
    empty one: the two flasks are swapped. *)
Lemma solved_transfuse_swap (flasks : list (list Z)) (i j : Z) :
  Puzzle.isSolved FlaskCapacity flasks = true →
  Puzzle.isTransfusionValid FlaskCapacity flasks i j = Ok true →
  ∃ flasks', Puzzle.transfuse FlaskCapacity flasks i j = (flasks', Ok tt)
             ∧ flasks' ≡ₚ flasks.
Proof.
  intros Hsolved Hvalid.
  apply Puzzle_isTransfusionValid_true in Hvalid
    as (source & destination & Hne & Hs & Hd & Hvalid & ->).
  pose proof (isSolved_Forall _ _ Hsolved) as Hfinal.
  rewrite Forall_forall in Hfinal.
  pose proof (Hfinal _ (list_elem_of_lookup_2 _ _ _ Hs)) as Hsource.
  pose proof (Hfinal _ (list_elem_of_lookup_2 _ _ _ Hd)) as Hdestination.
  pose proof Hvalid as Hvalid'.
  rewrite Flask_isTransfusionValid_alt in Hvalid'.
  apply bool_decide_eq_true in Hvalid' as (Hnonempty & Hnotfull & _).
  rewrite (list_lookup_total_correct _ _ _ Hs) in Hnonempty.
  rewrite (list_lookup_total_correct _ _ _ Hd) in Hnotfull.
  destruct (isInFinalState_replicate _ Hsource Hnonempty) as (top & -> & Hpos).
  apply isInFinalState_length in Hdestination as [Hempty|Hfull]; [|done].
  apply length_zero_iff_nil in Hempty as ->.
  rewrite (transfuse_run flasks _ _ [] [] top FlaskCapacity) by done.
  simpl. rewrite Nat.sub_0_r, Nat.min_id, Nat.sub_diag. simpl.
  eexists. split; [done|]. by apply insert_swap_Permutation.
Qed.

End Runs.

(** X8.  A transfusion neither makes nor loses nor recolours a layer: the
    layers of all flasks together are the same after [Puzzle.transfuse],
    returned or thrown, as before it. *)
Theorem transfuse_conserves_colours (FlaskCapacity : nat)
    (flasks : list (list Z)) (i j : Z) :
  mjoin (Puzzle.transfuse FlaskCapacity flasks i j).1 ≡ₚ mjoin flasks.
Proof.
  destruct (Puzzle.transfuse FlaskCapacity flasks i j) as [flasks' r] eqn:H.
  simpl. by eapply Puzzle_transfuse_mjoin.
Qed.

(** X9.  A transfusion pours all it can: after a transfusion that
    [Puzzle.isTransfusionValid] accepts, in a puzzle whose flasks are
    within the capacity, the same transfusion is not valid any more. *)
Theorem transfuse_not_twice (FlaskCapacity : nat)
    (flasks : list (list Z)) (i j : Z) :
  Forall (λ flask, length flask ≤ FlaskCapacity) flasks →
  Puzzle.isTransfusionValid FlaskCapacity flasks i j = Ok true →
  Puzzle.isTransfusionValid FlaskCapacity
    (Puzzle.transfuse FlaskCapacity flasks i j).1 i j
  = Ok false.
Proof.
  intros Hcap Hvalid.
  pose proof Hvalid as Hin. unfold Puzzle.isTransfusionValid in Hin.
  destruct (Puzzle.outOfBounds flasks i || Puzzle.outOfBounds flasks j) eqn:Hbounds;
    [done|]. clear Hin.
  apply Puzzle_isTransfusionValid_true in Hvalid
    as (source & destination & Hne & Hs & Hd & Hvalid & ->).
  pose proof (valid_source_not_empty _ _ _ _ Hvalid) as Hnonempty.
  rewrite (list_lookup_total_correct _ _ _ Hs) in Hnonempty.
  destruct (run_decomposition _ Hnonempty) as (body & r & top & -> & Hr & Hbody).
  rewrite (transfuse_run _ flasks _ _ body destination top r) by done.
  cbn [fst].
  set (k := r `min` (FlaskCapacity - length destination)).
  set (flasks' := <[Z.to_nat j := _]> _).
  assert (length flasks' = length flasks) as Hlen.
  { unfold flasks'. by rewrite !length_insert. }
  unfold Puzzle.isTransfusionValid, Puzzle.outOfBounds. rewrite Hlen.
  fold (Puzzle.outOfBounds flasks i). fold (Puzzle.outOfBounds flasks j).
  rewrite Hbounds. case_bool_decide; [done|]. f_equal.
  rewrite Flask_isTransfusionValid_alt. apply bool_decide_eq_false.
  pose proof (lookup_lt_Some _ _ _ Hs) as Hlts.
  pose proof (lookup_lt_Some _ _ _ Hd) as Hltd.
  assert (flasks' !!! Z.to_nat i = body ++ replicate (r - k) top) as ->.
  { unfold flasks'. apply list_lookup_total_correct.
    rewrite list_lookup_insert_ne by done. by rewrite list_lookup_insert_eq. }
  assert (flasks' !!! Z.to_nat j = destination ++ replicate k top) as ->.
  { unfold flasks'. apply list_lookup_total_correct.
    rewrite list_lookup_insert_eq; [done|]. by rewrite length_insert. }
  rewrite Forall_forall in Hcap.
  pose proof (Hcap _ (list_elem_of_lookup_2 _ _ _ Hd)) as Hdcap. simpl in Hdcap.
  pose proof Hvalid as Hvalid'.
  rewrite Flask_isTransfusionValid_alt in Hvalid'.
  apply bool_decide_eq_true in Hvalid' as (_ & Hnotfull & _).
  rewrite (list_lookup_total_correct _ _ _ Hd) in Hnotfull.
  assert (0 < k) as Hk by lia.
  intros (Hsrc & Hfull & Hlast).
  rewrite length_app, length_replicate in Hfull.
  assert (k = r) as Hkr by lia.
  rewrite Hkr, Nat.sub_diag in Hsrc, Hlast. simpl in Hsrc, Hlast.
  rewrite app_nil_r in Hsrc, Hlast.
  rewrite last_replicate_snoc in Hlast by done.
  destruct Hlast as [Hnil|Hlast]; [|congruence].
  apply (f_equal length) in Hnil. rewrite length_app, length_replicate in Hnil.
  simpl in Hnil. lia.
Qed.

Lemma transfuse_not_twice_example :
  Puzzle.isTransfusionValid 4 (Puzzle.transfuse 4 [[0; 1; 1]; [1]]%Z 0 1).1 0 1
  = Ok false.
Proof.
  apply (transfuse_not_twice 4 [[0; 1; 1]; [1]]%Z 0 1).
  - repeat constructor; simpl; lia.
  - reflexivity.
Defined.

(** X10.  A solved puzzle has no transfusion that changes its layout: one
    that [Puzzle.isTransfusionValid] accepts swaps a full flask with an
    empty one, so the puzzle after it has the same flasks in another order,
    is solved, and has the same fingerprint. *)
Theorem solved_transfusion_swaps (FlaskCapacity : nat)
    (flasks : list (list Z)) (i j : Z) :
  Puzzle.isSolved FlaskCapacity flasks = true →
  Puzzle.isTransfusionValid FlaskCapacity flasks i j = Ok true →
  let flasks' := (Puzzle.transfuse FlaskCapacity flasks i j).1 in
  flasks' ≡ₚ flasks
  ∧ Puzzle.isSolved FlaskCapacity flasks' = true
  ∧ Solver.fingerprint flasks' = Solver.fingerprint flasks.
Proof.
  intros Hsolved Hvalid.
  destruct (solved_transfuse_swap _ _ _ _ Hsolved Hvalid) as (flasks' & -> & Hp).
  simpl. split; [done|]. split.
  - by rewrite (isSolved_Permutation _ _ _ Hp).
  - by apply toStringWithSort_Permutation.
Qed.

Lemma solved_transfusion_swaps_example :
  let flasks' := (Puzzle.transfuse 2 [[7; 7]; []]%Z 0 1).1 in
  flasks' ≡ₚ [[7; 7]; []]%Z
  ∧ Puzzle.isSolved 2 flasks' = true
  ∧ Solver.fingerprint flasks' = Solver.fingerprint [[7; 7]; []]%Z.
Proof.
  apply (solved_transfusion_swaps 2 [[7; 7]; []]%Z 0 1); reflexivity.
Defined.

(** ** The search on a puzzle that is solved already *)

Section SolvedStart.

Variable FlaskCapacity : nat.

Lemma isSolved_capacity (flasks : list (list Z)) :
  Puzzle.isSolved FlaskCapacity flasks = true →
  Forall (λ flask, length flask ≤ FlaskCapacity) flasks.
Proof.
  intros H. eapply Forall_impl; [by apply isSolved_Forall|].
  intros flask Hfinal. simpl. apply isInFinalState_length in Hfinal. lia.
Qed.

Lemma isSolved_app_empty (layersMatrix : list (list Z)) (i : nat) :
  Puzzle.isSolved FlaskCapacity layersMatrix = true →
  Puzzle.isSolved FlaskCapacity (layersMatrix ++ replicate i []) = true.
Proof.
  unfold Puzzle.isSolved. rewrite existsb_app, negb_orb. intros ->. simpl.
  induction i as [|i IH]; [done|]. simpl. done.
Qed.

Lemma Puzzle_new_Throw (layersMatrix : list (list Z)) :
  ¬ Forall (λ layers, length layers ≤ FlaskCapacity) layersMatrix →
  Puzzle.new FlaskCapacity layersMatrix = Throw "Cannot fill flask over it's limit".
Proof.
  induction layersMatrix as [|layers rest IH]; intros Hbad; simpl.
  { by destruct Hbad. }
  unfold Flask.new. case_bool_decide as Hlayers; [done|].
  rewrite IH; [done|]. intros Hrest. apply Hbad. constructor; [lia|done].
Qed.

Section Search.

Context {Step Frontier Filter : Type}.
Variable step_puzzle : Step → nat.
Variable step_transfusions : Step → list (Z * Z).
Variable getStep : Frontier → option (Step * Frontier).
Variable addStep : Step → Frontier → Frontier.
Variable preliminaryFilter : Filter → Step → bool * Filter.
Variable initializeNextStep :
  Step → nat → Z * Z → list (list (list Z)) → result Step.

Local Abbreviation state := (@Solver.state Frontier Filter).
Local Abbreviation visit :=
  (Solver.visit FlaskCapacity step_puzzle step_transfusions addStep
     preliminaryFilter initializeNextStep).
Local Abbreviation expand :=
  (Solver.expand FlaskCapacity step_puzzle step_transfusions addStep
     preliminaryFilter initializeNextStep).
Local Abbreviation loop :=
  (Solver.loop FlaskCapacity step_puzzle step_transfusions getStep addStep
     preliminaryFilter initializeNextStep).

(** Every pair of flasks of a solved puzzle leaves the stack or queue,
    the visited set and the filter as they are. *)
Lemma visit_solved step i j heap frontier visited filter :
  step_puzzle step < length heap →
  Puzzle.isSolved FlaskCapacity (heap !!! step_puzzle step) = true →
  Solver.fingerprint (heap !!! step_puzzle step) ∈ visited →
  (0 ≤ i < Z.of_nat (length (heap !!! step_puzzle step)))%Z →
  (0 ≤ j < Z.of_nat (length (heap !!! step_puzzle step)))%Z →
  ∃ heap', heap `prefix_of` heap'
    ∧ visit step i j (Solver.State heap frontier visited filter)
      = Solver.Next (Solver.State heap' frontier visited filter).
Proof.
  intros Hlt Hsolved Hvisited Hi Hj. unfold Solver.visit. simpl.
  destruct (isTransfusionValid_in_range FlaskCapacity _ i j Hi Hj)
    as (valid & Hvalid & _).
  rewrite Hvalid. destruct valid; [|by exists heap].
  destruct (solved_transfuse_swap _ _ _ _ Hsolved Hvalid)
    as (flasks' & Htransfuse & Hp).
  unfold Solver.copyPuzzle, Solver.allocate, Puzzle.copy.
  rewrite (Puzzle_new_Ok _ _ (isSolved_capacity _ Hsolved)).
  unfold Solver.transfusePuzzle.
  rewrite lookup_total_app_r, Nat.sub_diag by done. simpl.
  rewrite Htransfuse.
  rewrite insert_app_r_alt, Nat.sub_diag by done. simpl.
  rewrite lookup_total_app_r, Nat.sub_diag by done. simpl.
  rewrite (toStringWithSort_Permutation _ _ Hp).
  rewrite bool_decide_true by done.
  eexists. split; [|done]. by eexists.
Qed.

Lemma expand_solved step pairs : ∀ heap frontier visited filter,
  step_puzzle step < length heap →
  Puzzle.isSolved FlaskCapacity (heap !!! step_puzzle step) = true →
  Solver.fingerprint (heap !!! step_puzzle step) ∈ visited →
  Forall (λ '(i, j),
            (0 ≤ i < Z.of_nat (length (heap !!! step_puzzle step)))%Z
            ∧ (0 ≤ j < Z.of_nat (length (heap !!! step_puzzle step)))%Z) pairs →
  ∃ heap', heap `prefix_of` heap'
    ∧ expand step pairs (Solver.State heap frontier visited filter)
      = Solver.Next (Solver.State heap' frontier visited filter).
Proof.
  induction pairs as [|[i j] pairs IH];
    intros heap frontier visited filter Hlt Hsolved Hvisited Hpairs; simpl.
  { by exists heap. }
  apply Forall_cons in Hpairs as [[Hi Hj] Hpairs].
  destruct (visit_solved step i j heap frontier visited filter
              Hlt Hsolved Hvisited Hi Hj) as (heap1 & Hprefix & ->).
  pose proof Hprefix as [more ->].
  destruct (IH (heap ++ more) frontier visited filter) as (heap2 & Hprefix2 & ->).
  - rewrite length_app. lia.
  - by rewrite lookup_total_app_l.
  - by rewrite lookup_total_app_l.
  - by rewrite lookup_total_app_l.
  - exists heap2. split; [by etrans|done].
Qed.

(** The search on a solved puzzle, the stack or queue holding one step
    with that puzzle: [undefined], at the second test of the [while]
    loop. *)
Lemma solveUsingPriorityQueueOrStack_solved
    fuel puzzle stackOrQueue filter heap step :
  puzzle < length heap →
  Puzzle.isSolved FlaskCapacity (heap !!! puzzle) = true →
  step_puzzle step = puzzle →
  ∀ rest,
    getStep stackOrQueue = Some (step, rest) → getStep rest = None →
    ∃ heap',
      Solver.solveUsingPriorityQueueOrStack FlaskCapacity step_puzzle
        step_transfusions getStep addStep preliminaryFilter initializeNextStep
        (S (S fuel)) puzzle stackOrQueue filter heap
      = Finished heap' (Ok None).
Proof.
  intros Hlt Hsolved Hpuzzle rest Hget Hrest.
  unfold Solver.solveUsingPriorityQueueOrStack.
  cbn [Solver.loop Solver.stackOrQueue Solver.filter Solver.heap Solver.visited].
  rewrite Hget.
  destruct (preliminaryFilter filter step) as [[] filter'].
  - rewrite Hpuzzle. unfold Puzzle.flasks.
    rewrite (Puzzle_new_Ok _ _ (isSolved_capacity _ Hsolved)).
    destruct (expand_solved step (Solver.pairs (length (heap !!! puzzle)))
                heap rest {[Solver.fingerprint (heap !!! puzzle)]} filter')
      as (heap' & _ & ->).
    + by rewrite Hpuzzle.
    + by rewrite Hpuzzle.
    + rewrite Hpuzzle. set_solver.
    + rewrite Hpuzzle. apply pairs_in_range.
    + simpl. rewrite Hrest. by eexists.
  - rewrite Hrest. by eexists.
Qed.

End Search.

Lemma switch_solved solvingMethod fuel puzzle heap :
  puzzle < length heap →
  Puzzle.isSolved FlaskCapacity (heap !!! puzzle) = true →
  ∃ heap',
    Solver.switch FlaskCapacity solvingMethod (S (S fuel)) puzzle heap
    = Finished heap' (Ok None).
Proof.
  intros Hlt Hsolved. unfold Solver.switch.
  assert (∀ maxAllowedMetricDelta, ∃ heap',
            Solver.solveUsingPriorityQueue FlaskCapacity (S (S fuel)) puzzle
              maxAllowedMetricDelta heap
            = Finished heap' (Ok None)) as Hqueue.
  { intros maxAllowedMetricDelta. unfold Solver.solveUsingPriorityQueue.
    destruct (calculateSolutionMetric_Ok _ _ (isSolved_capacity _ Hsolved))
      as [metric ->].
    by apply (solveUsingPriorityQueueOrStack_solved
                PriorityQueueStep.puzzle PriorityQueueStep.transfusions
                (PriorityQueue.dequeue Solver.comparator) PriorityQueue.queue
                (Solver.metricFilter maxAllowedMetricDelta)
                (Solver.nextPriorityQueueStep FlaskCapacity) fuel puzzle _ ∅ heap
                (PriorityQueueStep.Build puzzle metric []) Hlt Hsolved eq_refl []). }
  destruct (String.eqb solvingMethod "shortest"); [apply Hqueue|].
  destruct (String.eqb solvingMethod "balanced"); [apply Hqueue|].
  unfold Solver.solveUsingStack.
  by apply (solveUsingPriorityQueueOrStack_solved
              StackStep.puzzle StackStep.transfusions Solver.pop Solver.push
              (fun (_ : unit) (_ : StackStep.t) => (true, tt)) Solver.nextStackStep
              fuel puzzle _ tt heap (StackStep.Build puzzle []) Hlt Hsolved eq_refl []).
Qed.

Lemma solveFrom_solved solvingMethod fuel layersMatrix iterations : ∀ i heap,
  Puzzle.isSolved FlaskCapacity layersMatrix = true →
  ∃ heap',
    Solver.solveFrom FlaskCapacity (Solver.switch FlaskCapacity solvingMethod)
      iterations i (S (S fuel)) layersMatrix heap
    = Finished heap' (Ok (None, i + iterations)).
Proof.
  induction iterations as [|iterations IH]; intros i heap Hsolved.
  { exists heap. simpl. by rewrite Nat.add_0_r. }
  cbn [Solver.solveFrom]. unfold Solver.newPuzzle, Solver.allocate.
  pose proof (isSolved_app_empty _ i Hsolved) as Hsolved'.
  rewrite (Puzzle_new_Ok _ _ (isSolved_capacity _ Hsolved')).
  destruct (switch_solved solvingMethod fuel (length heap)
              (heap ++ [layersMatrix ++ replicate i []])) as [heap2 ->].
  - rewrite length_app. simpl. lia.
  - by rewrite lookup_total_app_r, Nat.sub_diag.
  - destruct (IH (S i) heap2 Hsolved) as [heap' ->]. exists heap'.
    do 3 f_equal. lia.
Qed.

End SolvedStart.

(** X11.  The search never tests the puzzle it starts from: for a matrix
    that is solved already, [solve] tries every number of empty flasks,
    finds nothing new to visit, and returns an absent solution with the
    value its counter ends on. *)
Theorem solve_already_solved
    (FlaskCapacity DefaultEmptyFlasksNumber MaxEmptyFlasksNumber fuel : nat)
    (layersMatrix : list (list Z)) (solvingMethod : string) :
  Puzzle.isSolved FlaskCapacity layersMatrix = true →
  2 ≤ fuel →
  returned (Solver.solve FlaskCapacity DefaultEmptyFlasksNumber MaxEmptyFlasksNumber
              fuel layersMatrix solvingMethod)
  = Some (Ok (None, DefaultEmptyFlasksNumber `max` S MaxEmptyFlasksNumber)).
Proof.
  intros Hsolved Hfuel. unfold Solver.solve, Solver.solveWith.
  destruct fuel as [|[|fuel]]; [lia..|].
  destruct (solveFrom_solved FlaskCapacity solvingMethod fuel layersMatrix
              (S MaxEmptyFlasksNumber - DefaultEmptyFlasksNumber)
              DefaultEmptyFlasksNumber [] Hsolved) as [heap' ->].
  simpl. do 3 f_equal. lia.
Qed.

Lemma solve_already_solved_example :
  returned (Solver.solve 4 2 4 2 [[5; 5; 5; 5]; []; [3; 3; 3; 3]]%Z "balanced")
  = Some (Ok (None, 2 `max` 5)).
Proof.
  apply (solve_already_solved 4 2 4 2 [[5; 5; 5; 5]; []; [3; 3; 3; 3]]%Z "balanced").
  - reflexivity.
  - lia.
Defined.

(** X12.  A matrix with a row longer than the capacity: the first
    [new Puzzle] of [solve] throws the error of the [Flask] constructor,
    for every method and before any search; when [DefaultEmptyFlasksNumber]
    is above [MaxEmptyFlasksNumber] no puzzle is built and [solve] returns
    an absent solution instead. *)
Theorem solve_malformed
    (FlaskCapacity DefaultEmptyFlasksNumber MaxEmptyFlasksNumber fuel : nat)
    (layersMatrix : list (list Z)) (solvingMethod : string) :
  ¬ Forall (λ layers, length layers ≤ FlaskCapacity) layersMatrix →
  Solver.solve FlaskCapacity DefaultEmptyFlasksNumber MaxEmptyFlasksNumber
    fuel layersMatrix solvingMethod
  = if bool_decide (DefaultEmptyFlasksNumber ≤ MaxEmptyFlasksNumber)
    then Finished [] (Throw "Cannot fill flask over it's limit")
    else Finished [] (Ok (None, DefaultEmptyFlasksNumber)).
Proof.
  intros Hbad. unfold Solver.solve, Solver.solveWith.
  case_bool_decide as Hle.
  - replace (S MaxEmptyFlasksNumber - DefaultEmptyFlasksNumber)
      with (S (MaxEmptyFlasksNumber - DefaultEmptyFlasksNumber)) by lia.
    cbn [Solver.solveFrom]. unfold Solver.newPuzzle, Solver.allocate.
    rewrite Puzzle_new_Throw; [done|].
    by rewrite Forall_capacity_app_empty.
  - by replace (S MaxEmptyFlasksNumber - DefaultEmptyFlasksNumber) with 0 by lia.
Qed.

Lemma solve_malformed_example :
  Solver.solve 4 2 4 0 [[0; 1]; [1; 1; 1; 0; 0]]%Z "fastest"
  = if bool_decide (2 ≤ 4)
    then Finished [] (Throw "Cannot fill flask over it's limit")
    else Finished [] (Ok (None, 2)).
Proof.
  apply (solve_malformed 4 2 4 0 [[0; 1]; [1; 1; 1; 0; 0]]%Z "fastest").
  intros H. apply Forall_cons in H as [_ H]. apply Forall_cons in H as [H _].
  simpl in H. lia.
Defined.

(** ** The metric, the filter and the queue *)

Lemma sameAsPrevious_snoc (layers : list Z) : ∀ (previous x : Z),
  Solver.sameAsPrevious previous (layers ++ [x])
  = (Solver.sameAsPrevious previous layers
     + if bool_decide (last (previous :: layers) = Some x) then 1 else 0)%Z.
Proof.
  induction layers as [|layer layers IH]; intros previous x; simpl.
  - repeat case_bool_decide; try lia; congruence.
  - rewrite IH. destruct layers; simpl; lia.
Qed.

Lemma flaskMetric_snoc (layers : list Z) (x : Z) :
  Solver.flaskMetric (layers ++ [x])
  = (Solver.flaskMetric layers
     + if bool_decide (last layers = Some x) then 1 else 0)%Z.
Proof.
  destruct layers as [|layer layers]; simpl; [done|].
  apply sameAsPrevious_snoc.
Qed.

Lemma flaskMetric_run (layers : list Z) (top : Z) (k : nat) :
  0 < k →
  Solver.flaskMetric (layers ++ replicate k top)
  = (Solver.flaskMetric layers + Z.of_nat (k - 1)
     + if bool_decide (last layers = Some top) then 1 else 0)%Z.
Proof.
  induction k as [|k IH]; [lia|]. intros _.
  destruct k as [|k].
  { simpl. rewrite flaskMetric_snoc. lia. }
  rewrite replicate_S_end, app_assoc, flaskMetric_snoc, IH by lia.
  rewrite (last_replicate_snoc layers (S k) top) by lia.
  rewrite (bool_decide_true (Some top = Some top)) by done. lia.
Qed.

Lemma metricOf_insert (flasks : list (list Z)) : ∀ (i : nat) (old new : list Z),
  flasks !! i = Some old →
  (metricOf (<[i := new]> flasks) + Solver.flaskMetric old
   = metricOf flasks + Solver.flaskMetric new)%Z.
Proof.
  induction flasks as [|flask flasks IH]; intros [|i] old new; simpl; try done.
  - intros [= ->]. lia.
  - intros H. specialize (IH i old new H). lia.
Qed.

Lemma calculateSolutionMetric_metricOf (FlaskCapacity : nat) (flasks : list (list Z)) :
  Forall (λ flask, length flask ≤ FlaskCapacity) flasks →
  Solver.calculateSolutionMetric FlaskCapacity flasks = Ok (metricOf flasks).
Proof.
  intros H. unfold Solver.calculateSolutionMetric, Puzzle.flasks.
  by rewrite (Puzzle_new_Ok _ _ H).
Qed.

(** The order of the comparator: fewer transfusions first, and for as many
    transfusions the higher metric first. *)
Lemma comparator_negative (a b : PriorityQueueStep.t) :
  (Solver.comparator a b < 0)%Z
  ↔ length (PriorityQueueStep.transfusions a) < length (PriorityQueueStep.transfusions b)
    ∨ (length (PriorityQueueStep.transfusions a) = length (PriorityQueueStep.transfusions b)
       ∧ (PriorityQueueStep.metric b < PriorityQueueStep.metric a)%Z).
Proof. unfold Solver.comparator. case_bool_decide; lia. Qed.

(** X13.  A transfusion that [Puzzle.isTransfusionValid] accepts never
    lowers the solution metric of a puzzle whose flasks are within the
    capacity. *)
Theorem transfusion_keeps_metric (FlaskCapacity : nat)
    (flasks : list (list Z)) (i j : Z) :
  Forall (λ flask, length flask ≤ FlaskCapacity) flasks →
  Puzzle.isTransfusionValid FlaskCapacity flasks i j = Ok true →
  ∃ before after,
    Solver.calculateSolutionMetric FlaskCapacity flasks = Ok before
    ∧ Solver.calculateSolutionMetric FlaskCapacity
        (Puzzle.transfuse FlaskCapacity flasks i j).1 = Ok after
    ∧ (before ≤ after)%Z.
Proof.
  intros Hcap Hvalid.
  destruct (Puzzle.transfuse FlaskCapacity flasks i j) as [flasks' thrown] eqn:Htransfuse.
  pose proof (Puzzle_transfuse_capacity _ _ _ _ _ _ Htransfuse Hcap) as Hcap'.
  exists (metricOf flasks), (metricOf flasks'). cbn [fst].
  split; [by apply calculateSolutionMetric_metricOf|].
  split; [by apply calculateSolutionMetric_metricOf|].
  apply Puzzle_isTransfusionValid_true in Hvalid
    as (source & destination & Hne & Hs & Hd & Hvalid & Heq).
  rewrite Heq in Htransfuse. clear Heq.
  pose proof (valid_source_not_empty _ _ _ _ Hvalid) as Hnonempty.
  rewrite (list_lookup_total_correct _ _ _ Hs) in Hnonempty.
  destruct (run_decomposition _ Hnonempty) as (body & r & top & -> & Hr & Hbody).
  rewrite (transfuse_run _ flasks _ _ body destination top r) in Htransfuse by done.
  injection Htransfuse as <- _.
  set (k := r `min` (FlaskCapacity - length destination)).
  rewrite Forall_forall in Hcap.
  pose proof (Hcap _ (list_elem_of_lookup_2 _ _ _ Hd)) as Hdcap.
  pose proof (Hcap _ (list_elem_of_lookup_2 _ _ _ Hs)) as Hscap.
  simpl in Hdcap, Hscap. rewrite length_app, length_replicate in Hscap.
  rewrite Flask_isTransfusionValid_alt in Hvalid.
  apply bool_decide_eq_true in Hvalid as (_ & Hnotfull & Hlast).
  rewrite (list_lookup_total_correct _ _ _ Hd) in Hnotfull, Hlast.
  rewrite (list_lookup_total_correct _ _ _ Hs) in Hlast.
  rewrite last_replicate_snoc in Hlast by done.
  assert (0 < k) as Hk by lia.
  assert (<[Z.to_nat i := body ++ replicate (r - k) top]> flasks !! Z.to_nat j
          = Some destination) as Hd'.
  { by rewrite list_lookup_insert_ne. }
  pose proof (metricOf_insert _ _ _ (destination ++ replicate k top) Hd') as H1.
  pose proof (metricOf_insert _ _ _ (body ++ replicate (r - k) top) Hs) as H2.
  rewrite (flaskMetric_run destination top k) in H1 by done.
  rewrite (flaskMetric_run body top r) in H2 by done.
  rewrite (bool_decide_false (last body = Some top)) in H2 by done.
  destruct (decide (r - k = 0)) as [Hall|Hsome].
  - assert (k = r) as Hkr by lia. clearbody k. subst k.
    rewrite Hall in H1, H2 |- *. simpl in H1, H2 |- *.
    rewrite app_nil_r in H1, H2 |- *.
    destruct Hlast as [->|Hlast]; [simpl in *; lia|].
    rewrite (bool_decide_true (last destination = Some top)) in H1 by done. lia.
  - rewrite (flaskMetric_run body top (r - k)) in H2 by lia.
    rewrite (bool_decide_false (last body = Some top)) in H2 by done.
    destruct Hlast as [->|Hlast]; [simpl in *; lia|].
    rewrite (bool_decide_true (last destination = Some top)) in H1 by done. lia.
Qed.

Lemma transfusion_keeps_metric_example :
  ∃ before after,
    Solver.calculateSolutionMetric 4 [[0; 1; 1]; [1]]%Z = Ok before
    ∧ Solver.calculateSolutionMetric 4 (Puzzle.transfuse 4 [[0; 1; 1]; [1]]%Z 0 1).1
      = Ok after
    ∧ (before ≤ after)%Z.
Proof.
  apply (transfusion_keeps_metric 4 [[0; 1; 1]; [1]]%Z 0 1).
  - repeat constructor; simpl; lia.
  - reflexivity.
Defined.

(** X14.  The step that the priority queue of [solveUsingPriorityQueue]
    hands out has the fewest transfusions of the steps queued, and the
    highest metric of those with as few. *)
Theorem dequeue_fewest_then_best (values rest : list PriorityQueueStep.t)
    (step : PriorityQueueStep.t) :
  PriorityQueue.dequeue Solver.comparator values = Some (step, rest) →
  ∀ other, other ∈ values →
    length (PriorityQueueStep.transfusions step)
    < length (PriorityQueueStep.transfusions other)
    ∨ (length (PriorityQueueStep.transfusions step)
       = length (PriorityQueueStep.transfusions other)
       ∧ (PriorityQueueStep.metric other ≤ PriorityQueueStep.metric step)%Z).
Proof.
  revert step rest.
  induction values as [|value values IH]; intros step rest; simpl; [done|].
  destruct (PriorityQueue.dequeue Solver.comparator values) as [[least rest']|] eqn:Hrest.
  - specialize (IH _ _ eq_refl).
    case_bool_decide as Hcmp; intros [= <- <-] other Hother.
    + apply comparator_negative in Hcmp.
      apply elem_of_cons in Hother as [->|Hother]; [lia|by apply IH].
    + rewrite comparator_negative in Hcmp.
      apply elem_of_cons in Hother as [->|Hother]; [lia|].
      specialize (IH other Hother). lia.
  - apply dequeue_None in Hrest as ->. intros [= <- <-] other Hother.
    apply list_elem_of_singleton in Hother as ->. lia.
Qed.

Lemma dequeue_fewest_then_best_example :
  length (PriorityQueueStep.transfusions (PriorityQueueStep.Build 1 5 [(0, 2)]%Z))
  < length (PriorityQueueStep.transfusions (PriorityQueueStep.Build 0 3 [(0, 1)]%Z))
  ∨ (length (PriorityQueueStep.transfusions (PriorityQueueStep.Build 1 5 [(0, 2)]%Z))
     = length (PriorityQueueStep.transfusions (PriorityQueueStep.Build 0 3 [(0, 1)]%Z))
     ∧ (PriorityQueueStep.metric (PriorityQueueStep.Build 0 3 [(0, 1)]%Z)
        ≤ PriorityQueueStep.metric (PriorityQueueStep.Build 1 5 [(0, 2)]%Z))%Z).
Proof.
  apply (dequeue_fewest_then_best
           [PriorityQueueStep.Build 0 3 [(0, 1)]; PriorityQueueStep.Build 1 5 [(0, 2)];
            PriorityQueueStep.Build 2 9 [(0, 1); (1, 2)]]%Z
           [PriorityQueueStep.Build 0 3 [(0, 1)];
            PriorityQueueStep.Build 2 9 [(0, 1); (1, 2)]]%Z).
  - reflexivity.
  - apply elem_of_cons. by left.
Defined.

Section MetricFilter.

Variable maxAllowedMetricDelta : Z.
Hypothesis delta_nonnegative : (0 ≤ maxAllowedMetricDelta)%Z.

Local Abbreviation moves := (λ step, length (PriorityQueueStep.transfusions step)).

(** The map holds, for each number of transfusions, the highest metric of
    the steps with that many transfusions that the filter was called on. *)
Lemma metricMapAfter_maximum (steps : list PriorityQueueStep.t) (n : nat) :
  match metricMapAfter maxAllowedMetricDelta steps !! n with
  | None => Forall (λ step, moves step ≠ n) steps
  | Some maxMetric =>
      Exists (λ step, moves step = n ∧ PriorityQueueStep.metric step = maxMetric) steps
      ∧ Forall (λ step, moves step = n → (PriorityQueueStep.metric step ≤ maxMetric)%Z)
          steps
  end.
Proof.
  induction steps as [|step steps IH] using rev_ind.
  { unfold metricMapAfter. simpl. by rewrite lookup_empty. }
  unfold metricMapAfter in *. rewrite foldl_app. simpl.
  set (metricMap := foldl _ ∅ steps) in *.
  unfold Solver.metricFilter.
  destruct (decide (moves step = n)) as [Hn|Hn].
  - rewrite Hn. destruct (metricMap !! n) as [maxMetric|] eqn:Hmax.
    + destruct IH as [Hex Hall].
      case_bool_decide as Hfar; [|case_bool_decide as Hless]; simpl.
      * rewrite Hmax. split; [apply Exists_app; by left|].
        apply Forall_app. split; [done|]. constructor; [|done]. lia.
      * rewrite lookup_insert_eq. split; [apply Exists_app; right; by constructor|].
        apply Forall_app. split; [|by constructor].
        eapply Forall_impl; [done|]. simpl. intros s Hs Hm. specialize (Hs Hm). lia.
      * rewrite Hmax. split; [apply Exists_app; by left|].
        apply Forall_app. split; [done|]. constructor; [|done]. lia.
    + simpl. rewrite lookup_insert_eq. split; [apply Exists_app; right; by constructor|].
      apply Forall_app. split; [|by constructor].
      eapply Forall_impl; [done|]. simpl. intros s Hs Hm. done.
  - assert (∀ m : gmap nat Z, (<[moves step := PriorityQueueStep.metric step]> m) !! n
                              = m !! n) as Hother.
    { intros m. by rewrite lookup_insert_ne. }
    assert ((match metricMap !! moves step with
             | Some maxMetric =>
                 if bool_decide (maxMetric > PriorityQueueStep.metric step
                                             + maxAllowedMetricDelta)%Z
                 then (false, metricMap)
                 else if bool_decide (maxMetric < PriorityQueueStep.metric step)%Z
                      then (true, <[moves step := PriorityQueueStep.metric step]> metricMap)
                      else (true, metricMap)
             | None => (true, <[moves step := PriorityQueueStep.metric step]> metricMap)
             end).2 !! n = metricMap !! n) as ->.
    { destruct (metricMap !! moves step); repeat case_bool_decide; simpl;
        by rewrite ?Hother. }
    destruct (metricMap !! n) as [maxMetric|].
    + destruct IH as [Hex Hall]. split; [apply Exists_app; by left|].
      apply Forall_app. split; [done|]. by constructor.
    + apply Forall_app. split; [done|]. by constructor.
Qed.

End MetricFilter.

(** X15.  The filter of [solveUsingPriorityQueue], with a tolerance that is
    not negative, lets a step through exactly when its metric is within the
    tolerance of the metric of every step with as many transfusions that
    the filter was called on before. *)
Theorem metricFilter_tolerance (maxAllowedMetricDelta : Z)
    (steps : list PriorityQueueStep.t) (step : PriorityQueueStep.t) :
  (0 ≤ maxAllowedMetricDelta)%Z →
  (Solver.metricFilter maxAllowedMetricDelta
     (metricMapAfter maxAllowedMetricDelta steps) step).1 = true
  ↔ Forall (λ earlier,
              length (PriorityQueueStep.transfusions earlier)
              = length (PriorityQueueStep.transfusions step) →
              (PriorityQueueStep.metric earlier
               ≤ PriorityQueueStep.metric step + maxAllowedMetricDelta)%Z) steps.
Proof.
  intros Hdelta.
  pose proof (metricMapAfter_maximum maxAllowedMetricDelta Hdelta steps
                (length (PriorityQueueStep.transfusions step))) as Hmax.
  unfold Solver.metricFilter.
  destruct (metricMapAfter maxAllowedMetricDelta steps !! _) as [maxMetric|].
  - destruct Hmax as [Hex Hall]. apply Exists_exists in Hex as (best & Hin & Hn & Hbest).
    rewrite Forall_forall in Hall.
    case_bool_decide as Hfar; [|case_bool_decide]; simpl.
    + split; [done|]. rewrite Forall_forall. intros H.
      specialize (H best Hin Hn). lia.
    + split; [|done]. intros _. apply Forall_forall. intros s Hs Hm.
      specialize (Hall s Hs Hm). lia.
    + split; [|done]. intros _. apply Forall_forall. intros s Hs Hm.
      specialize (Hall s Hs Hm). lia.
  - simpl. split; [|done]. intros _. eapply Forall_impl; [done|]. simpl.
    intros s Hs Hm. done.
Qed.

Lemma metricFilter_tolerance_example :
  (Solver.metricFilter 1
     (metricMapAfter 1 [PriorityQueueStep.Build 0 3 [(0, 1)]; PriorityQueueStep.Build 1 5 [(0, 2)]]%Z)
     (PriorityQueueStep.Build 2 4 [(1, 2)]%Z)).1 = true
  ↔ Forall (λ earlier,
              length (PriorityQueueStep.transfusions earlier)
              = length (PriorityQueueStep.transfusions (PriorityQueueStep.Build 2 4 [(1, 2)]%Z)) →
              (PriorityQueueStep.metric earlier
               ≤ PriorityQueueStep.metric (PriorityQueueStep.Build 2 4 [(1, 2)]%Z) + 1)%Z)
      [PriorityQueueStep.Build 0 3 [(0, 1)]; PriorityQueueStep.Build 1 5 [(0, 2)]]%Z.
Proof. apply (metricFilter_tolerance 1). lia. Defined.

(** ** The negative puzzle of the tests *)

Section Negative.

Variable FlaskCapacity : nat.

Lemma at_from_end (layers : list Z) (k : Z) :
  (0 < k ≤ Z.of_nat (length layers))%Z →
  NegativeFlask.at_ layers (- k) = layers !! (length layers - Z.to_nat k).
Proof.
  intros Hk. unfold NegativeFlask.at_. cbv zeta.
  rewrite (bool_decide_true (- k < 0)%Z) by lia.
  rewrite bool_decide_false by lia. f_equal. lia.
Qed.

(** What [NegativePuzzle.isTransfusionValid] returning true means. *)
Lemma NegativePuzzle_isTransfusionValid_true (flasks : list (list Z)) (i j k : Z) :
  NegativePuzzle.isTransfusionValid FlaskCapacity flasks i j k = Ok true →
  ∃ source destination n,
    Z.to_nat i ≠ Z.to_nat j ∧ i ≠ j
    ∧ Puzzle.outOfBounds flasks i = false ∧ Puzzle.outOfBounds flasks j = false
    ∧ flasks !! Z.to_nat i = Some source
    ∧ flasks !! Z.to_nat j = Some destination
    ∧ k = Z.of_nat n ∧ 0 < n ≤ length source
    ∧ n ≤ FlaskCapacity - length destination
    ∧ (n < length source →
       source !! (length source - S n) = source !! (length source - n))
    ∧ NegativePuzzle.transfuse FlaskCapacity flasks i j k
      = (<[Z.to_nat j := destination ++ reverse (drop (length source - n) source)]>
           (<[Z.to_nat i := take (length source - n) source]> flasks), Ok tt).
Proof.
  unfold NegativePuzzle.isTransfusionValid, NegativePuzzle.transfuse.
  destruct (Puzzle.outOfBounds flasks i) eqn:Hi; [done|].
  destruct (Puzzle.outOfBounds flasks j) eqn:Hj; [done|]. simpl.
  case_bool_decide as Hne; [done|]. intros [= Hvalid].
  destruct (outOfBounds_lookup _ _ Hi) as [source Hs].
  destruct (outOfBounds_lookup _ _ Hj) as [destination Hd].
  pose proof Hi as Hi'. pose proof Hj as Hj'.
  apply outOfBounds_false in Hi', Hj'.
  assert (Z.to_nat i ≠ Z.to_nat j) as Hne' by lia.
  unfold NegativeFlask.transfuse. rewrite Hvalid. simpl.
  unfold NegativeFlask.isTransfusionValid in Hvalid.
  rewrite (list_lookup_total_correct _ _ _ Hs) in Hvalid.
  rewrite (list_lookup_total_correct _ _ _ Hd) in Hvalid.
  destruct (Flask.isEmpty source); [done|].
  destruct (Flask.isFull FlaskCapacity destination); [done|].
  destruct (bool_decide (k <= 0)%Z) eqn:H1; [done|].
  destruct (bool_decide (k > Z.of_nat (length source))%Z) eqn:H2; [done|].
  destruct (bool_decide (k > Z.of_nat FlaskCapacity - Z.of_nat (length destination))%Z)
    eqn:H3; [done|].
  apply bool_decide_eq_false in H1, H2, H3. simpl in Hvalid.
  exists source, destination, (Z.to_nat k).
  repeat (split; [done || lia|]). split.
  - intros Hlt. rewrite bool_decide_true in Hvalid by lia. simpl in Hvalid.
    destruct (bool_decide (_ = _)) eqn:Hat in Hvalid; [|done].
    apply bool_decide_eq_true in Hat.
    rewrite !at_from_end in Hat by lia.
    rewrite <- Hat. f_equal. lia.
  - f_equal. rewrite <- (take_drop (length source - Z.to_nat k) source) in Hs.
    rewrite (pour_distinct (Z.to_nat k) flasks _ _ _ _ destination Hne' Hs); [done| |done].
    rewrite length_drop. lia.
Qed.

End Negative.

(** X16.  A transfusion that [NegativePuzzle.isTransfusionValid] accepts
    moves exactly the number of layers asked for, upside down, throws
    nothing, and keeps both flasks within a capacity that they were
    within. *)
Theorem negative_transfuse_moves (FlaskCapacity : nat)
    (flasks : list (list Z)) (i j k : Z) :
  NegativePuzzle.isTransfusionValid FlaskCapacity flasks i j k = Ok true →
  ∃ source destination,
    flasks !! Z.to_nat i = Some source
    ∧ flasks !! Z.to_nat j = Some destination
    ∧ (0 < k ≤ Z.of_nat (length source))%Z
    ∧ length destination + Z.to_nat k ≤ FlaskCapacity
    ∧ NegativePuzzle.transfuse FlaskCapacity flasks i j k
      = (<[Z.to_nat j := destination
                         ++ reverse (drop (length source - Z.to_nat k) source)]>
           (<[Z.to_nat i := take (length source - Z.to_nat k) source]> flasks),
         Ok tt).
Proof.
  intros Hvalid.
  apply NegativePuzzle_isTransfusionValid_true in Hvalid
    as (source & destination & n & _ & _ & _ & _ & Hs & Hd & -> & Hn & Hfree & _ & ->).
  exists source, destination. rewrite Nat2Z.id.
  repeat (split; [done || lia|]). done.
Qed.

Lemma negative_transfuse_moves_example :
  ∃ source destination,
    [[0; 1; 1; 2]; [3]]%Z !! Z.to_nat 0 = Some source
    ∧ [[0; 1; 1; 2]; [3]]%Z !! Z.to_nat 1 = Some destination
    ∧ (0 < 2 ≤ Z.of_nat (length source))%Z
    ∧ length destination + Z.to_nat 2 ≤ 4
    ∧ NegativePuzzle.transfuse 4 [[0; 1; 1; 2]; [3]]%Z 0 1 2
      = (<[Z.to_nat 1 := destination
                         ++ reverse (drop (length source - Z.to_nat 2) source)]>
           (<[Z.to_nat 0 := take (length source - Z.to_nat 2) source]>
              [[0; 1; 1; 2]; [3]]%Z),
         Ok tt).
Proof. apply (negative_transfuse_moves 4 [[0; 1; 1; 2]; [3]]%Z 0 1 2). reflexivity. Defined.

(** X17.  A negative transfusion is one that the game can take back from:
    after a transfusion that [NegativePuzzle.isTransfusionValid] accepts,
    in a puzzle whose flasks are within the capacity, the game's
    [Puzzle.isTransfusionValid] accepts the transfusion in the other
    direction. *)
Theorem negative_transfuse_opens_way_back (FlaskCapacity : nat)
    (flasks : list (list Z)) (i j k : Z) :
  Forall (λ flask, length flask ≤ FlaskCapacity) flasks →
  NegativePuzzle.isTransfusionValid FlaskCapacity flasks i j k = Ok true →
  Puzzle.isTransfusionValid FlaskCapacity
    (NegativePuzzle.transfuse FlaskCapacity flasks i j k).1 j i
  = Ok true.
Proof.
  intros Hcap Hvalid.
  apply NegativePuzzle_isTransfusionValid_true in Hvalid
    as (source & destination & n & Hne & Hne' & Hi & Hj & Hs & Hd & -> & Hn & Hfree
        & Hsame & ->).
  cbn [fst]. set (flasks' := <[Z.to_nat j := _]> _).
  assert (length flasks' = length flasks) as Hlen.
  { unfold flasks'. by rewrite !length_insert. }
  unfold Puzzle.isTransfusionValid, Puzzle.outOfBounds. rewrite Hlen.
  fold (Puzzle.outOfBounds flasks i). fold (Puzzle.outOfBounds flasks j).
  rewrite Hi, Hj. simpl. rewrite bool_decide_false by done. f_equal.
  rewrite Flask_isTransfusionValid_alt. apply bool_decide_eq_true.
  pose proof (lookup_lt_Some _ _ _ Hs) as Hlts.
  pose proof (lookup_lt_Some _ _ _ Hd) as Hltd.
  assert (flasks' !!! Z.to_nat i = take (length source - n) source) as ->.
  { unfold flasks'. apply list_lookup_total_correct.
    rewrite list_lookup_insert_ne by done. by rewrite list_lookup_insert_eq. }
  assert (flasks' !!! Z.to_nat j
          = destination ++ reverse (drop (length source - n) source)) as ->.
  { unfold flasks'. apply list_lookup_total_correct.
    rewrite list_lookup_insert_eq; [done|]. by rewrite length_insert. }
  rewrite Forall_forall in Hcap.
  pose proof (Hcap _ (list_elem_of_lookup_2 _ _ _ Hs)) as Hscap. simpl in Hscap.
  assert (drop (length source - n) source ≠ []) as Hblock.
  { intros Hnil. apply (f_equal length) in Hnil. rewrite length_drop in Hnil.
    simpl in Hnil. lia. }
  split; [|split].
  - intros Hnil. apply app_eq_nil in Hnil as [_ Hnil].
    apply (f_equal reverse) in Hnil. by rewrite reverse_involutive in Hnil.
  - rewrite length_take. lia.
  - destruct (decide (n = length source)) as [->|Hless].
    { left. by rewrite Nat.sub_diag. }
    right. rewrite last_app, last_reverse.
    destruct (drop (length source - n) source) as [|x block] eqn:Hdrop; [done|].
    simpl.
    rewrite last_lookup, length_take, lookup_take_lt by lia.
    replace (Init.Nat.pred ((length source - n) `min` length source))
      with (length source - S n) by lia.
    rewrite Hsame by lia.
    by rewrite <- (Nat.add_0_r (length source - n)), <- lookup_drop, Hdrop.
Qed.

Lemma negative_transfuse_opens_way_back_example :
  Puzzle.isTransfusionValid 4
    (NegativePuzzle.transfuse 4 [[0; 1; 1; 2]; [3]]%Z 0 1 2).1 1 0
  = Ok true.
Proof.
  apply (negative_transfuse_opens_way_back 4 [[0; 1; 1; 2]; [3]]%Z 0 1 2).
  - repeat constructor; simpl; lia.
  - reflexivity.
Defined.

(** ** Declensions *)

(** X18.  [pluralPipe] follows the rule of the Russian numerals for a
    number that is not negative: with [u] its last digit and [t] the digit
    before, the first declension for [u = 1], the second for [u] from 2 to
    4, the third otherwise, and always the third in the teens ([t = 1]). *)
Theorem pluralPipe_digits (number : Z) (declensions : list string) :
  (0 ≤ number)%Z →
  let u := (number `mod` 10)%Z in
  let t := ((number `div` 10) `mod` 10)%Z in
  Utils.pluralPipe number declensions
  = declensions !! (if bool_decide (t = 1)%Z then 2
                    else if bool_decide (u = 1)%Z then 0
                    else if bool_decide (2 ≤ u ≤ 4)%Z then 1
                    else 2).
Proof.
  intros Hnumber u t. unfold Utils.pluralPipe.
  rewrite !Z.rem_mod_nonneg by lia.
  assert (number `mod` 100 = 10 * t + u)%Z as ->.
  { unfold t, u. Z.div_mod_to_equations. lia. }
  assert (0 ≤ u < 10)%Z as Hu by (apply Z.mod_pos_bound; lia).
  assert (0 ≤ t < 10)%Z as Ht by (apply Z.mod_pos_bound; lia).
  fold u. repeat case_bool_decide; simpl; try done; lia.
Qed.

Lemma pluralPipe_digits_example :
  let u := (112 `mod` 10)%Z in
  let t := ((112 `div` 10) `mod` 10)%Z in
  Utils.pluralPipe 112 ["one"; "few"; "many"]
  = ["one"; "few"; "many"] !! (if bool_decide (t = 1)%Z then 2
                               else if bool_decide (u = 1)%Z then 0
                               else if bool_decide (2 ≤ u ≤ 4)%Z then 1
                               else 2).
Proof. apply (pluralPipe_digits 112). lia. Defined.

(** X19.  Every negative number gets the third declension, whatever its
    digits: the remainders of a negative number are never positive. *)
Theorem pluralPipe_negative (number : Z) (declensions : list string) :
  (number < 0)%Z → Utils.pluralPipe number declensions = declensions !! 2.
Proof.
  intros Hnumber. unfold Utils.pluralPipe.
  pose proof (Z.rem_nonpos number 10 ltac:(lia) ltac:(lia)).
  rewrite (bool_decide_false (Z.rem number 10 = 1)%Z) by lia.
  rewrite (bool_decide_false (Z.rem number 10 >= 2)%Z) by lia. done.
Qed.

Lemma pluralPipe_negative_example :
  Utils.pluralPipe (-1) ["one"; "few"; "many"] = ["one"; "few"; "many"] !! 2.
Proof. apply pluralPipe_negative. lia. Defined.

(** ** The pictures *)

Lemma elem_of_upTo (n x : Z) : x ∈ Visualizer.upTo n ↔ (0 ≤ x < n)%Z.
Proof.
  unfold Visualizer.upTo. rewrite list_elem_of_fmap. split.
  - intros (k & -> & Hk). apply elem_of_seq in Hk. lia.
  - intros Hx. exists (Z.to_nat x). split; [lia|]. apply elem_of_seq. lia.
Qed.

Lemma elem_of_slots (rowsNumber : Z) (flasksInRows : list Z) (i j : Z) :
  (i, j) ∈ Visualizer.slots rowsNumber flasksInRows
  ↔ (0 ≤ i < rowsNumber)%Z
    ∧ ∃ flasks, flasksInRows !! Z.to_nat i = Some flasks ∧ (0 ≤ j < flasks)%Z.
Proof.
  unfold Visualizer.slots, Visualizer.row. rewrite list_elem_of_bind. split.
  - intros (i' & Hj & Hi). apply elem_of_upTo in Hi.
    apply list_elem_of_fmap in Hj as (j' & [= -> ->] & Hj).
    split; [done|]. destruct (flasksInRows !! Z.to_nat i') as [flasks|].
    + exists flasks. split; [done|]. by apply elem_of_upTo.
    + by apply elem_of_nil in Hj.
  - intros (Hi & flasks & Hrow & Hj). exists i. split; [|by apply elem_of_upTo].
    rewrite Hrow. apply list_elem_of_fmap. exists j. split; [done|].
    by apply elem_of_upTo.
Qed.

Lemma mathMax_ge (values : list Z) (k : nat) (value : Z) :
  values !! k = Some value →
  ∃ greatest, Visualizer.mathMax values = Some greatest ∧ (value ≤ greatest)%Z.
Proof.
  destruct values as [|first values]; [done|]. simpl.
  intros Hk. eexists. split; [done|]. revert k value Hk.
  induction values as [|second values IH]; intros k value Hk; simpl.
  - destruct k; [|done]. injection Hk as ->. lia.
  - pose proof (IH 0 first eq_refl) as Hfirst. destruct k as [|[|k]].
    + injection Hk as ->. lia.
    + injection Hk as ->. lia.
    + specialize (IH (S k) value Hk). lia.
Qed.

Lemma length_slots (flasksInRows : list Z) :
  length (Visualizer.slots (Z.of_nat (length flasksInRows)) flasksInRows)
  = sum_list_with Z.to_nat flasksInRows.
Proof.
  unfold Visualizer.slots, Visualizer.upTo. rewrite Nat2Z.id.
  induction flasksInRows as [|flasks flasksInRows IH] using rev_ind; [done|].
  rewrite length_app. simpl. rewrite Nat.add_1_r, seq_S, fmap_app, bind_app.
  rewrite length_app, sum_list_with_app. simpl.
  rewrite app_nil_r, length_fmap. unfold Visualizer.row at 2.
  rewrite Nat2Z.id, lookup_app_r, Nat.sub_diag by done. simpl.
  unfold Visualizer.upTo. rewrite length_fmap, length_seq.
  rewrite Nat.add_0_r. f_equal. rewrite <- IH. f_equal.
  apply Forall_bind_ext, Forall_forall. intros i Hi.
  apply list_elem_of_fmap in Hi as (k & -> & Hk). apply elem_of_seq in Hk.
  unfold Visualizer.row. rewrite Nat2Z.id, lookup_app_l by lia. done.
Qed.

Section Pictures.

Variables SquareSide FlasksMargin FlaskBorderWidth : Z.
Variables BackgroundColor FlaskBorderColor : string.
Variable FlaskCapacity : nat.

Local Abbreviation fill := (Visualizer.fill SquareSide FlasksMargin FlaskBorderWidth FlaskCapacity).
Local Abbreviation draw :=
  (Visualizer.draw SquareSide FlasksMargin FlaskBorderWidth
     BackgroundColor FlaskBorderColor FlaskCapacity).

(** [fullfillImage] throws exactly when there are more slots to fill
    than flasks in the matrix. *)
Lemma fill_result colors layersMatrix slots : ∀ flaskIndex,
  flaskIndex ≤ length layersMatrix →
  (fill colors layersMatrix slots flaskIndex).2
  = if bool_decide (flaskIndex + length slots ≤ length layersMatrix)
    then Ok tt
    else Throw "Cannot read properties of undefined (reading 'length')".
Proof.
  induction slots as [|slot slots IH]; intros flaskIndex Hle; simpl.
  { by rewrite bool_decide_true by lia. }
  destruct (layersMatrix !! flaskIndex) as [layers|] eqn:Hflask.
  - apply lookup_lt_Some in Hflask. specialize (IH (S flaskIndex) Hflask).
    destruct (fill colors layersMatrix slots (S flaskIndex)) as [more r].
    simpl in *. rewrite IH. by rewrite Nat.add_succ_r.
  - apply lookup_ge_None in Hflask. by rewrite bool_decide_false by lia.
Qed.

(** The calls of [fullfillImage]: each [fillRect] is the square of a
    layer of a flask of the matrix, at the slot of that flask. *)
Lemma fill_calls colors layersMatrix slots : ∀ flaskIndex x y w h,
  Visualizer.FillRect x y w h ∈ (fill colors layersMatrix slots flaskIndex).1 →
  ∃ i j layers layerIndex,
    (i, j) ∈ slots ∧ layers ∈ layersMatrix ∧ layerIndex < length layers
    ∧ x = (j * SquareSide + (j + 1) * FlasksMargin + (j * 2 + 1) * FlaskBorderWidth)%Z
    ∧ y = (((Z.of_nat FlaskCapacity - Z.of_nat layerIndex - 1)
            + Z.of_nat FlaskCapacity * i) * SquareSide
           + (i + 1) * FlasksMargin + i * FlaskBorderWidth)%Z
    ∧ w = SquareSide ∧ h = SquareSide.
Proof.
  induction slots as [|[i j] slots IH]; intros flaskIndex x y w h; simpl.
  { intros H. by apply elem_of_nil in H. }
  destruct (layersMatrix !! flaskIndex) as [layers|] eqn:Hflask.
  2: { intros H. by apply elem_of_nil in H. }
  specialize (IH (S flaskIndex) x y w h).
  destruct (fill colors layersMatrix slots (S flaskIndex)) as [more r].
  simpl in *. rewrite elem_of_app. intros [Hhere|Hmore].
  - apply list_elem_of_join in Hhere as (pair & Hin & Hpair).
    apply list_elem_of_lookup in Hpair as [layerIndex Hpair].
    rewrite list_lookup_imap in Hpair.
    destruct (layers !! layerIndex) as [layer|] eqn:Hlayer; [|done].
    injection Hpair as <-.
    apply elem_of_cons in Hin as [Hin|Hin]; [done|].
    apply list_elem_of_singleton in Hin. injection Hin as -> -> -> ->.
    exists i, j, layers, layerIndex.
    split; [apply elem_of_cons; by left|].
    split; [by eapply list_elem_of_lookup_2|].
    split; [by eapply lookup_lt_Some|done].
  - destruct (IH Hmore) as (i' & j' & layers' & layerIndex & Hslot & Hrest).
    exists i', j', layers', layerIndex. split; [apply elem_of_cons; by right|done].
Qed.

Lemma draw_Ok (data : Visualizer.imageData) layersMatrix colors :
  length (Visualizer.slots (Visualizer.rowsNumber data) (Visualizer.flasksInRows data))
  ≤ length layersMatrix →
  ∃ image, draw data layersMatrix colors = Ok image.
Proof.
  intros Hslots. unfold Visualizer.draw, Visualizer.fullfillImage.
  pose proof (fill_result colors layersMatrix
                (Visualizer.slots (Visualizer.rowsNumber data)
                   (Visualizer.flasksInRows data)) 0 ltac:(lia)) as Hfill.
  destruct (fill _ _ _ _) as [more r]. simpl in Hfill.
  rewrite bool_decide_true in Hfill by done. rewrite Hfill. by eexists.
Qed.

Lemma draw_Throw (data : Visualizer.imageData) layersMatrix colors :
  length layersMatrix
  < length (Visualizer.slots (Visualizer.rowsNumber data) (Visualizer.flasksInRows data)) →
  draw data layersMatrix colors
  = Throw "Cannot read properties of undefined (reading 'length')".
Proof.
  intros Hslots. unfold Visualizer.draw, Visualizer.fullfillImage.
  pose proof (fill_result colors layersMatrix
                (Visualizer.slots (Visualizer.rowsNumber data)
                   (Visualizer.flasksInRows data)) 0 ltac:(lia)) as Hfill.
  destruct (fill _ _ _ _) as [more r]. simpl in Hfill.
  rewrite bool_decide_false in Hfill by lia. by rewrite Hfill.
Qed.

(** The loop of [visualizeSolution] adds one picture for each
    transfusion, of the puzzle after it. *)
Lemma frames_path (data : Visualizer.imageData) colors solution :
  ∀ flasks final images,
    replay FlaskCapacity flasks solution = (final, Ok tt) →
    length (Visualizer.slots (Visualizer.rowsNumber data) (Visualizer.flasksInRows data))
    ≤ length flasks →
    ∃ more,
      Visualizer.frames SquareSide FlasksMargin FlaskBorderWidth
        BackgroundColor FlaskBorderColor FlaskCapacity data colors flasks solution images
      = Ok (images ++ more)
      ∧ Forall2 (λ image flasks', draw data flasks' colors = Ok image)
          more (path FlaskCapacity flasks solution).
Proof.
  induction solution as [|[i j] solution IH]; intros flasks final images; simpl.
  { intros _ _. exists []. by rewrite app_nil_r. }
  destruct (Puzzle.transfuse FlaskCapacity flasks i j) as [flasks' [[]|e]] eqn:Htransfuse;
    [|done].
  intros Hreplay Hslots. simpl.
  rewrite <- (Puzzle_transfuse_length _ _ _ _ _ _ Htransfuse) in Hslots.
  unfold Puzzle.layersMatrix.
  destruct (draw_Ok data flasks' colors Hslots) as [image Himage].
  rewrite Himage.
  destruct (IH flasks' final (images ++ [image]) Hreplay Hslots) as (more & -> & Hmore).
  exists (image :: more). split; [by rewrite <- app_assoc|]. by constructor.
Qed.

End Pictures.

(** X20.  Nothing is drawn outside the picture: with sizes that are not
    negative and flasks within the capacity, every rectangle that
    [prepareImage] and [fullfillImage] fill lies within the canvas that
    [prepareImage] created. *)
Theorem picture_inside_canvas
    (SquareSide FlasksMargin FlaskBorderWidth : Z)
    (BackgroundColor FlaskBorderColor : string) (FlaskCapacity : nat)
    (data : Visualizer.imageData) (layersMatrix : list (list Z))
    (colors : list string) (image : Visualizer.canvas) :
  (0 ≤ SquareSide)%Z → (0 ≤ FlasksMargin)%Z → (0 ≤ FlaskBorderWidth)%Z →
  Forall (λ layers, length layers ≤ FlaskCapacity) layersMatrix →
  Visualizer.draw SquareSide FlasksMargin FlaskBorderWidth
    BackgroundColor FlaskBorderColor FlaskCapacity data layersMatrix colors
  = Ok image →
  ∀ x y w h,
    Visualizer.FillRect x y w h ∈ Visualizer.calls image →
    ∃ canvasWidth,
      Visualizer.width image = Some canvasWidth
      ∧ (0 ≤ x ∧ 0 ≤ w ∧ x + w ≤ canvasWidth)%Z
      ∧ (0 ≤ y ∧ 0 ≤ h ∧ y + h ≤ Visualizer.height image)%Z.
Proof.
  intros HS HM HB Hcap Hdraw x y w h Hcall.
  unfold Visualizer.draw, Visualizer.fullfillImage in Hdraw.
  destruct data as [rowsNumber flasksInRows]. simpl in Hdraw.
  pose proof (fill_calls SquareSide FlasksMargin FlaskBorderWidth FlaskCapacity
                colors layersMatrix (Visualizer.slots rowsNumber flasksInRows) 0 x y w h)
    as Hfill.
  destruct (Visualizer.fill _ _ _ _ _ _ _ _) as [more r].
  destruct r as [[]|e]; [|done]. injection Hdraw as <-. simpl in *.
  assert (∀ i j, (i, j) ∈ Visualizer.slots rowsNumber flasksInRows →
            ∃ flasksInRow,
              Visualizer.mathMax flasksInRows = Some flasksInRow
              ∧ (0 ≤ i ∧ i + 1 ≤ rowsNumber ∧ 0 ≤ j ∧ j + 1 ≤ flasksInRow)%Z) as Hslot.
  { intros i j Hin. apply elem_of_slots in Hin as (Hi & flasks & Hrow & Hj).
    destruct (mathMax_ge _ _ _ Hrow) as (flasksInRow & Hmax & Hle).
    exists flasksInRow. split; [done|lia]. }
  rewrite !elem_of_cons in Hcall.
  destruct Hcall as [Hcall|[Hcall|[Hcall|Hcall]]]; [done..|].
  apply elem_of_app in Hcall as [Hborder|Hlayer].
  - apply list_elem_of_bind in Hborder as ([i j] & Hrect & Hin).
    destruct (Hslot i j Hin) as (flasksInRow & -> & Hi0 & Hi & Hj0 & Hj).
    exists (flasksInRow * SquareSide + (flasksInRow + 1) * FlasksMargin
            + flasksInRow * 2 * FlaskBorderWidth)%Z.
    split; [done|].
    assert (0 ≤ Z.of_nat FlaskCapacity)%Z as HC by lia.
    unfold Visualizer.flaskBorders in Hrect. rewrite !elem_of_cons in Hrect.
    destruct Hrect as [Hrect|[Hrect|[Hrect|Hrect]]];
      [| | |by apply elem_of_nil in Hrect];
      injection Hrect as -> -> -> ->; split; nia.
  - destruct (Hfill Hlayer)
      as (i & j & layers & layerIndex & Hin & Hlayers & Hindex & -> & -> & -> & ->).
    destruct (Hslot i j Hin) as (flasksInRow & -> & Hi0 & Hi & Hj0 & Hj).
    rewrite Forall_forall in Hcap. specialize (Hcap layers Hlayers). simpl in Hcap.
    exists (flasksInRow * SquareSide + (flasksInRow + 1) * FlasksMargin
            + flasksInRow * 2 * FlaskBorderWidth)%Z.
    split; [done|]. split; nia.
Qed.

(** One flask of two layers, with a capacity of 2, squares of 20, a margin
    of 10 and borders of 2: the upper layer. *)
Lemma picture_inside_canvas_example :
  ∃ canvasWidth,
    Some 44%Z = Some canvasWidth
    ∧ (0 ≤ 12 ∧ 0 ≤ 20 ∧ 12 + 20 ≤ canvasWidth)%Z
    ∧ (0 ≤ 10 ∧ 0 ≤ 20 ∧ 10 + 20 ≤ 62)%Z.
Proof.
  apply (picture_inside_canvas 20 10 2 "255, 255, 255" "0, 0, 0" 2
           (Visualizer.ImageData 1 [1%Z]) [[0; 0]%Z] ["9,9,9"]
           (Visualizer.Canvas (Some 44%Z) 62
              [Visualizer.SetFillStyle "rgb(255, 255, 255)"; Visualizer.FillCanvas;
               Visualizer.SetFillStyle "rgb(0, 0, 0)";
               Visualizer.FillRect 10 10 2 42; Visualizer.FillRect 32 10 2 42;
               Visualizer.FillRect 10 50 24 2;
               Visualizer.SetFillStyle "rgb(9,9,9)"; Visualizer.FillRect 12 30 20 20;
               Visualizer.SetFillStyle "rgb(9,9,9)"; Visualizer.FillRect 12 10 20 20]%Z)).
  - lia.
  - lia.
  - lia.
  - repeat constructor.
  - reflexivity.
  - simpl. do 9 (apply elem_of_cons; right). apply elem_of_cons. by left.
Defined.

(** X21.  [visualizeSolution] returns one picture more than the solution
    has transfusions: the picture of the puzzle given, then for each
    transfusion the picture of the puzzle after it, provided that the
    puzzle can be built, that the solution replays on it without a throw,
    and that the picture has no more flasks to fill than the matrix has. *)
Theorem visualizeSolution_frames
    (SquareSide FlasksMargin FlaskBorderWidth : Z)
    (BackgroundColor FlaskBorderColor : string) (FlaskCapacity : nat)
    (solution : list (Z * Z)) (layersMatrix : list (list Z)) (colors : list string)
    (data : Visualizer.imageData) (requiredEmptyFlasksNumber : Z)
    (final : list (list Z)) :
  let visualized :=
    Visualizer.visualizeSolution SquareSide FlasksMargin FlaskBorderWidth
      BackgroundColor FlaskBorderColor FlaskCapacity
      solution layersMatrix colors data requiredEmptyFlasksNumber in
  Forall (λ layers, length layers ≤ FlaskCapacity) layersMatrix →
  replay FlaskCapacity layersMatrix solution = (final, Ok tt) →
  length (Visualizer.slots (Visualizer.rowsNumber visualized.1)
            (Visualizer.flasksInRows visualized.1))
  ≤ length layersMatrix →
  ∃ images,
    visualized.2 = Ok images
    ∧ Forall2 (λ image flasks,
                 Visualizer.draw SquareSide FlasksMargin FlaskBorderWidth
                   BackgroundColor FlaskBorderColor FlaskCapacity
                   visualized.1 flasks colors
                 = Ok image)
        images (layersMatrix :: path FlaskCapacity layersMatrix solution).
Proof.
  intros visualized Hcap Hreplay Hslots. subst visualized.
  unfold Visualizer.visualizeSolution in *.
  rewrite (Puzzle_new_Ok _ _ Hcap) in *. unfold Puzzle.layersMatrix in *.
  set (data' := Visualizer.ImageData _ _) in *.
  destruct (Visualizer.draw _ _ _ _ _ _ data' layersMatrix colors)
    as [image|e] eqn:Hdraw.
  - simpl in *.
    destruct (frames_path SquareSide FlasksMargin FlaskBorderWidth
                BackgroundColor FlaskBorderColor FlaskCapacity data' colors solution
                layersMatrix final [image] Hreplay Hslots) as (more & -> & Hmore).
    exists (image :: more). split; [done|]. by constructor.
  - simpl in Hslots.
    destruct (draw_Ok SquareSide FlasksMargin FlaskBorderWidth
                BackgroundColor FlaskBorderColor FlaskCapacity data' layersMatrix colors
                Hslots) as [image Himage].
    congruence.
Qed.

(** The case of the visualizer's test: one transfusion, two pictures. *)
Lemma visualizeSolution_frames_example :
  let visualized :=
    Visualizer.visualizeSolution 20 10 2 "255, 255, 255" "0, 0, 0" 4
      [(0, 1)]%Z [[0; 0; 0; 0]; []]%Z ["255,209,220"] (Visualizer.ImageData 1 [1%Z]) 1 in
  ∃ images,
    visualized.2 = Ok images
    ∧ Forall2 (λ image flasks,
                 Visualizer.draw 20 10 2 "255, 255, 255" "0, 0, 0" 4
                   visualized.1 flasks ["255,209,220"]
                 = Ok image)
        images ([[0; 0; 0; 0]; []]%Z :: path 4 [[0; 0; 0; 0]; []]%Z [(0, 1)]%Z).
Proof.
  apply (visualizeSolution_frames 20 10 2 "255, 255, 255" "0, 0, 0" 4
           [(0, 1)]%Z [[0; 0; 0; 0]; []]%Z ["255,209,220"]
           (Visualizer.ImageData 1 [1%Z]) 1 [[]; [0; 0; 0; 0]]%Z).
  - repeat constructor; simpl; lia.
  - reflexivity.
  - simpl. lia.
Defined.

(** X22.  [visualizeSolution] adds the empty flasks to the last row of the
    [imageData] it is given, in the caller's object.  A second call with
    the object that a first call has left, for a matrix that the first call
    had a slot for each flask of, has more slots than flasks and throws the
    [TypeError] of [fullfillImage]. *)
Theorem visualizeSolution_again
    (SquareSide FlasksMargin FlaskBorderWidth : Z)
    (BackgroundColor FlaskBorderColor : string) (FlaskCapacity : nat)
    (solution : list (Z * Z)) (layersMatrix : list (list Z)) (colors : list string)
    (rows : list Z) (lastRow requiredEmptyFlasksNumber : Z) :
  let data := Visualizer.ImageData (Z.of_nat (length (rows ++ [lastRow])))
                (rows ++ [lastRow]) in
  let visualize :=
    Visualizer.visualizeSolution SquareSide FlasksMargin FlaskBorderWidth
      BackgroundColor FlaskBorderColor FlaskCapacity solution layersMatrix colors in
  Forall (λ layers, length layers ≤ FlaskCapacity) layersMatrix →
  (0 ≤ lastRow)%Z → (0 < requiredEmptyFlasksNumber)%Z →
  sum_list_with Z.to_nat (rows ++ [lastRow]) + Z.to_nat requiredEmptyFlasksNumber
  = length layersMatrix →
  (visualize data requiredEmptyFlasksNumber).1
  = Visualizer.ImageData (Z.of_nat (length (rows ++ [lastRow])))
      (rows ++ [lastRow + requiredEmptyFlasksNumber]%Z)
  ∧ (visualize (visualize data requiredEmptyFlasksNumber).1 requiredEmptyFlasksNumber).2
    = Throw "Cannot read properties of undefined (reading 'length')".
Proof.
  intros data visualize Hcap Hlast Hrequired Hsum. subst data visualize.
  assert (∀ row x : Z, <[length (rows ++ [row]) - 1 := x]> (rows ++ [row]) = rows ++ [x])
    as Hinsert.
  { intros row x. rewrite length_app. simpl.
    replace (length rows + 1 - 1) with (length rows + 0) by lia.
    by rewrite insert_app_r. }
  assert (∀ (r : Z) (data : Visualizer.imageData) row,
            Visualizer.flasksInRows data = rows ++ [row] →
            (Visualizer.visualizeSolution SquareSide FlasksMargin FlaskBorderWidth
               BackgroundColor FlaskBorderColor FlaskCapacity solution layersMatrix
               colors data r).1
            = Visualizer.ImageData (Visualizer.rowsNumber data) (rows ++ [row + r]%Z))
    as Hfirst.
  { intros r data row Hdata. unfold Visualizer.visualizeSolution.
    rewrite Hdata, last_snoc, Hinsert.
    by destruct (Puzzle.new _ _); [destruct (Visualizer.draw _ _ _ _ _ _ _ _ _)|]. }
  split; [by apply Hfirst|].
  rewrite (Hfirst _ _ lastRow) by done.
  unfold Visualizer.visualizeSolution.
  cbn [Visualizer.flasksInRows Visualizer.rowsNumber].
  rewrite (Puzzle_new_Ok _ _ Hcap), last_snoc, Hinsert. unfold Puzzle.layersMatrix.
  rewrite draw_Throw; [done|].
  cbn [Visualizer.flasksInRows Visualizer.rowsNumber].
  replace (length (rows ++ [lastRow]))
    with (length (rows ++ [lastRow + requiredEmptyFlasksNumber
                           + requiredEmptyFlasksNumber]%Z))
    by (by rewrite !length_app).
  rewrite length_slots, sum_list_with_app. rewrite sum_list_with_app in Hsum.
  simpl in *. lia.
Qed.

Lemma visualizeSolution_again_example :
  (Visualizer.visualizeSolution 20 10 2 "255, 255, 255" "0, 0, 0" 4
     [(0, 1)]%Z [[0; 0; 0; 0]; []]%Z ["255,209,220"]
     (Visualizer.ImageData (Z.of_nat (length ([] ++ [1%Z]))) ([] ++ [1%Z])) 1).1
  = Visualizer.ImageData (Z.of_nat (length ([] ++ [1%Z]))) ([] ++ [1 + 1]%Z)
  ∧ (Visualizer.visualizeSolution 20 10 2 "255, 255, 255" "0, 0, 0" 4
       [(0, 1)]%Z [[0; 0; 0; 0]; []]%Z ["255,209,220"]
       (Visualizer.visualizeSolution 20 10 2 "255, 255, 255" "0, 0, 0" 4
          [(0, 1)]%Z [[0; 0; 0; 0]; []]%Z ["255,209,220"]
          (Visualizer.ImageData (Z.of_nat (length ([] ++ [1%Z]))) ([] ++ [1%Z])) 1).1
       1).2
    = Throw "Cannot read properties of undefined (reading 'length')".
Proof.
  apply (visualizeSolution_again 20 10 2 "255, 255, 255" "0, 0, 0" 4
           [(0, 1)]%Z [[0; 0; 0; 0]; []]%Z ["255,209,220"] [] 1 1).
  - repeat constructor; simpl; lia.
  - lia.
  - lia.
  - reflexivity.
Defined.

(** ** Numbers and ranges *)

Lemma digitsValue_nonneg (chars : list ascii) : ∀ value,
  (0 ≤ value)%Z → (0 ≤ Utils.digitsValue value chars)%Z.
Proof.
  induction chars as [|c chars IH]; intros value Hvalue; simpl; [done|].
  destruct (Utils.isDigit c) eqn:Hc; [|done]. apply IH.
  unfold Utils.isDigit in Hc. unfold Utils.digitValue.
  apply andb_true_iff in Hc as [Hlow _]. apply Nat.leb_le in Hlow. lia.
Qed.

Lemma parseInt_nonneg (chars : list ascii) (n : Z) :
  Utils.parseInt chars = Some n → (0 ≤ n)%Z.
Proof.
  unfold Utils.parseInt. destruct chars as [|c chars]; [done|].
  destruct (Utils.isDigit c); [|done]. intros [= <-].
  by apply (digitsValue_nonneg (c :: chars)).
Qed.

Lemma split_token_chars (chars : list ascii) : ∀ piece inSeparator,
  Forall (λ c, isTokenChar c = true) piece →
  Forall (Forall (λ c, isTokenChar c = true)) (Utils.split chars piece inSeparator).
Proof.
  induction chars as [|c chars IH]; intros piece inSeparator Hpiece; simpl.
  { by constructor. }
  destruct (Utils.isDash c || Utils.isDigit c) eqn:Hc.
  - apply IH. apply Forall_app. split; [done|]. by constructor.
  - destruct inSeparator; [by apply IH|]. constructor; [done|]. by apply IH.
Qed.

(** What [reduce] keeps true of the array it builds: no string is empty,
    and all are made of digits and dashes. *)
Lemma merge_tokens (accum : list (list ascii)) (curr : list ascii) :
  Forall (λ token, token ≠ [] ∧ Forall (λ c, isTokenChar c = true) token) accum →
  curr ≠ [] → Forall (λ c, isTokenChar c = true) curr →
  Forall (λ token, token ≠ [] ∧ Forall (λ c, isTokenChar c = true) token)
    (Utils.merge accum curr).
Proof.
  intros Haccum Hne Hcurr. unfold Utils.merge.
  destruct (last accum) as [top|] eqn:Hlast.
  - apply last_Some in Hlast as [accum' ->].
    rewrite length_app. simpl.
    replace (length accum' + 1 - 1) with (length accum') by lia.
    rewrite take_app_length.
    apply Forall_app in Haccum as [Haccum' Htop].
    apply Forall_singleton in Htop as [Htop Hchars].
    repeat case_bool_decide.
    + apply Forall_app. split; [done|]. apply Forall_singleton.
      split; [by destruct top|]. apply Forall_app. split; [done|].
      by apply Forall_singleton.
    + apply Forall_app. split; [done|]. apply Forall_singleton.
      split; [by destruct top|]. by apply Forall_app.
    + apply Forall_app. split; [by apply Forall_app; split; [|apply Forall_singleton]|].
      by apply Forall_singleton.
  - apply Forall_app. split; [done|]. by apply Forall_singleton.
Qed.

Lemma numbersOrRanges_tokens (numbersAndRanges : string) :
  Forall (λ token, token ≠ [] ∧ Forall (λ c, isTokenChar c = true) token)
    (Utils.numbersOrRanges numbersAndRanges).
Proof.
  unfold Utils.numbersOrRanges.
  pose proof (split_token_chars (list_ascii_of_string numbersAndRanges) [] false
                (Forall_nil_2 _)) as Hsplit.
  set (pieces := Utils.split _ _ _) in *. clearbody pieces.
  assert (Forall (λ token, token ≠ [] ∧ Forall (λ c, isTokenChar c = true) token)
            ([] : list (list ascii))) as Hstart by constructor.
  revert Hstart. generalize ([] : list (list ascii)) as accum.
  induction Hsplit as [|piece pieces Hpiece Hpieces IH]; intros accum Haccum; simpl;
    [done|].
  case_bool_decide as Hempty; simpl; [by apply IH|].
  apply IH. by apply merge_tokens.
Qed.

Lemma expand_numbers (token : list ascii) (numbers : list (option Z)) :
  token ≠ [] → Forall (λ c, isTokenChar c = true) token →
  Utils.expand token = Ok numbers →
  Forall (λ number, ∃ n, number = Some n ∧ (0 ≤ n)%Z) numbers.
Proof.
  intros Hne Hchars. unfold Utils.expand.
  destruct (existsb Utils.isDash token) eqn:Hdash; simpl.
  - destruct ((Utils.parseInt <$> Utils.splitDash token []) !! 0)
      as [[start|]|] eqn:Hstart; [|by intros [= <-]..].
    destruct ((Utils.parseInt <$> Utils.splitDash token []) !! 1)
      as [[finish|]|] eqn:Hfinish; [|by intros [= <-]..].
    apply list_lookup_fmap_Some in Hstart as (first & Hfirst & _).
    symmetry in Hfirst. apply parseInt_nonneg in Hfirst.
    destruct (bool_decide (start = 0)%Z || bool_decide (finish = 0)%Z);
      [by intros [= <-]|].
    destruct (_ || _); [done|]. intros [= <-].
    apply Forall_fmap, Forall_forall. intros i _. simpl.
    eexists. split; [done|]. lia.
  - intros [= <-]. apply Forall_singleton.
    destruct token as [|c token]; [done|]. simpl in *.
    apply orb_false_iff in Hdash as [Hc _].
    apply Forall_cons in Hchars as [Hchar _]. unfold isTokenChar in Hchar.
    rewrite Hc in Hchar. simpl in Hchar. rewrite Hchar.
    exists (Utils.digitsValue 0 (c :: token)). split; [simpl; by rewrite Hchar|].
    by apply digitsValue_nonneg.
Qed.

Lemma flatMap_Forall {A B : Type} (f : A → result (list B))
    (P : A → Prop) (Q : B → Prop) (items : list A) :
  (∀ item values, P item → f item = Ok values → Forall Q values) →
  Forall P items →
  ∀ values, Utils.flatMap f items = Ok values → Forall Q values.
Proof.
  intros Hf Hitems. induction Hitems as [|item items Hitem Hitems IH];
    intros values; simpl.
  { by intros [= <-]. }
  destruct (f item) as [first|e] eqn:Hfirst; [|done].
  destruct (Utils.flatMap f items) as [rest|e]; [|done]. intros [= <-].
  apply Forall_app. split; [by eapply Hf|by apply IH].
Qed.

(** X23.  [numbersAndRangesToNumbers] never returns [NaN] or a negative
    number: every element of the array it returns is an integer that is
    not negative. *)
Theorem numbersAndRangesToNumbers_numbers (numbersAndRanges : string)
    (numbers : list (option Z)) :
  exact numbersAndRanges →
  Utils.numbersAndRangesToNumbers (Some numbersAndRanges) = Some (Ok numbers) →
  Forall (λ number, ∃ n, number = Some n ∧ (0 ≤ n)%Z) numbers.
Proof.
  intros _ [= Hnumbers]. revert numbers Hnumbers.
  apply (flatMap_Forall Utils.expand
           (λ token, token ≠ [] ∧ Forall (λ c, isTokenChar c = true) token)).
  - intros token values [Hne Hchars]. by apply expand_numbers.
  - apply numbersOrRanges_tokens.
Qed.

Lemma numbersAndRangesToNumbers_numbers_example :
  Forall (λ number, ∃ n, number = Some n ∧ (0 ≤ n)%Z)
    [Some 1; Some 2; Some 3; Some 7; Some 0]%Z.
Proof.
  apply (numbersAndRangesToNumbers_numbers "1-3, 7 0 -5 x").
  - repeat constructor.
  - reflexivity.
Defined.

Lemma list_ascii_of_string_app (s1 s2 : string) :
  list_ascii_of_string (s1 +:+ s2) = list_ascii_of_string s1 ++ list_ascii_of_string s2.
Proof. induction s1 as [|c s1 IH]; simpl; [done|]. by rewrite IH. Qed.

Lemma pretty_N_char_digit (d : N) :
  (d < 10)%N →
  Utils.isDigit (pretty_N_char d) = true
  ∧ Utils.isDash (pretty_N_char d) = false
  ∧ Utils.digitValue (pretty_N_char d) = Z.of_N d.
Proof.
  intros Hd.
  assert (d = 0 ∨ d = 1 ∨ d = 2 ∨ d = 3 ∨ d = 4 ∨ d = 5
          ∨ d = 6 ∨ d = 7 ∨ d = 8 ∨ d = 9)%N as Hcases by lia.
  repeat (destruct Hcases as [->|Hcases]; [done|]). by subst d.
Qed.

Lemma pretty_N_go_digits (x : N) : ∀ s,
  Forall (λ c, Utils.isDigit c = true ∧ Utils.isDash c = false)
    (list_ascii_of_string s) →
  Forall (λ c, Utils.isDigit c = true ∧ Utils.isDash c = false)
    (list_ascii_of_string (pretty_N_go x s))
  ∧ Utils.digitsValue 0 (list_ascii_of_string (pretty_N_go x s))
    = Utils.digitsValue (Z.of_N x) (list_ascii_of_string s)
  ∧ ((0 < x)%N → pretty_N_go x s ≠ "").
Proof.
  induction (N.lt_wf_0 x) as [x _ IH]. intros s Hs.
  assert (x = 0 ∨ 0 < x)%N as [->|Hx] by lia.
  { rewrite pretty_N_go_0. split; [done|]. split; [done|]. lia. }
  rewrite pretty_N_go_step by done.
  destruct (pretty_N_char_digit (x `mod` 10)) as (Hdigit & Hdash & Hvalue).
  { by apply N.mod_lt. }
  destruct (IH (x `div` 10)%N) with (s := String (pretty_N_char (x `mod` 10)) s)
    as (Hall & Hval & Hne).
  { by apply N.div_lt. }
  { simpl. by constructor. }
  split; [done|]. split.
  - rewrite Hval. simpl. rewrite Hdigit, Hvalue. f_equal.
    rewrite N2Z.inj_div, N2Z.inj_mod. pose proof (Z.div_mod (Z.of_N x) 10). lia.
  - intros _. destruct (decide (x `div` 10 = 0)%N) as [Hzero|Hpos].
    + by rewrite Hzero, pretty_N_go_0.
    + apply Hne. by apply N.neq_0_lt_0.
Qed.

Lemma numeral_digits (n : N) :
  numeral n ≠ []
  ∧ Forall (λ c, Utils.isDigit c = true ∧ Utils.isDash c = false) (numeral n)
  ∧ Utils.parseInt (numeral n) = Some (Z.of_N n).
Proof.
  unfold numeral, pretty, pretty_N. case_decide as Hn.
  { subst n. simpl. split; [done|]. split; [by repeat constructor|done]. }
  destruct (pretty_N_go_digits n "") as (Hall & Hval & Hne); [constructor|].
  specialize (Hne ltac:(lia)).
  destruct (pretty_N_go n "") as [|c s] eqn:Hgo; [done|]. simpl in *.
  split; [done|]. split; [done|].
  apply Forall_cons in Hall as [[Hdigit _] _]. unfold Utils.parseInt.
  rewrite Hdigit in Hval |- *. by f_equal.
Qed.

Lemma split_token (token : list ascii) : ∀ rest piece inSeparator,
  token ≠ [] → Forall (λ c, isTokenChar c = true) token →
  Utils.split (token ++ rest) piece inSeparator
  = Utils.split rest (piece ++ token) false.
Proof.
  induction token as [|c token IH]; intros rest piece inSeparator Hne Htoken; [done|].
  apply Forall_cons in Htoken as [Hc Htoken]. unfold isTokenChar in Hc.
  simpl. rewrite Hc. destruct token as [|c' token].
  - done.
  - rewrite IH by done. by rewrite <- app_assoc.
Qed.

Lemma split_separator (separator : list ascii) : ∀ rest piece,
  Forall (λ c, isTokenChar c = false) separator →
  Utils.split (separator ++ rest) piece true = Utils.split rest piece true.
Proof.
  induction separator as [|c separator IH]; intros rest piece Hseparator; [done|].
  apply Forall_cons in Hseparator as [Hc Hseparator]. unfold isTokenChar in Hc.
  simpl. rewrite Hc. by apply IH.
Qed.

Lemma split_first_separator (separator : list ascii) (rest piece : list ascii) :
  separator ≠ [] → Forall (λ c, isTokenChar c = false) separator →
  Utils.split (separator ++ rest) piece false = piece :: Utils.split rest [] true.
Proof.
  destruct separator as [|c separator]; [done|]. intros _ Hseparator.
  apply Forall_cons in Hseparator as [Hc Hseparator]. unfold isTokenChar in Hc.
  simpl. rewrite Hc. f_equal. by apply split_separator.
Qed.

Lemma splitDash_digits (digits : list ascii) : ∀ rest piece,
  Forall (λ c, Utils.isDash c = false) digits →
  Utils.splitDash (digits ++ rest) piece = Utils.splitDash rest (piece ++ digits).
Proof.
  induction digits as [|c digits IH]; intros rest piece Hdigits; simpl.
  { by rewrite app_nil_r. }
  apply Forall_cons in Hdigits as [Hc Hdigits]. rewrite Hc, IH by done.
  by rewrite <- app_assoc.
Qed.

Section Ranges.

Variables a b : N.

Local Abbreviation dash := ("-"%char).

Lemma numeral_token (n : N) :
  numeral n ≠ [] ∧ Forall (λ c, isTokenChar c = true) (numeral n)
  ∧ Forall (λ c, Utils.isDash c = false) (numeral n)
  ∧ numeral n ≠ [dash] ∧ last (numeral n) ≠ Some dash.
Proof.
  destruct (numeral_digits n) as (Hne & Hall & _).
  split; [done|]. split; [|split; [|split]].
  - eapply Forall_impl; [done|]. intros c [Hc _]. unfold isTokenChar.
    by rewrite Hc, orb_true_r.
  - eapply Forall_impl; [done|]. by intros c [_ Hc].
  - intros Heq. rewrite Heq in Hall. by apply Forall_singleton in Hall as [_ Hc].
  - intros Hlast. apply last_Some in Hlast as [l Heq]. rewrite Heq in Hall.
    apply Forall_app in Hall as [_ Hall]. by apply Forall_singleton in Hall as [_ Hc].
Qed.

(** The range as [reduce] leaves it: one string, whatever was around the
    dash, unless something was before it and nothing after. *)
Lemma numbersOrRanges_range (before after : string) :
  separates before → separates after → before = "" ∨ after ≠ "" →
  Utils.numbersOrRanges (pretty a +:+ before +:+ "-" +:+ after +:+ pretty b)
  = [numeral a ++ [dash] ++ numeral b].
Proof.
  intros Hbefore Hafter Hspaces. unfold Utils.numbersOrRanges, separates in *.
  rewrite !list_ascii_of_string_app. fold (numeral a). fold (numeral b).
  change (list_ascii_of_string "-") with [dash].
  destruct (numeral_token a) as (Ha & Hatoken & _ & _ & Halast).
  destruct (numeral_token b) as (Hb & Hbtoken & _ & Hbdash & _).
  assert (∀ token piece inSeparator,
            token ≠ [] → Forall (λ c, isTokenChar c = true) token →
            Utils.split token piece inSeparator = [piece ++ token]) as Hend.
  { intros token piece inSeparator Hne Htoken.
    pose proof (split_token token [] piece inSeparator Hne Htoken) as Hsplit.
    by rewrite app_nil_r in Hsplit. }
  assert (numeral a ++ [dash] ≠ []) as Hadash by by destruct (numeral a).
  assert (Forall (λ c, isTokenChar c = true) (numeral a ++ [dash])) as Hadashtoken.
  { apply Forall_app. split; [done|]. by apply Forall_singleton. }
  assert (∀ pieces,
            pieces = [numeral a ++ [dash] ++ numeral b]
            ∨ pieces = [numeral a ++ [dash]; numeral b]
            ∨ pieces = [numeral a; [dash]; numeral b] →
            foldl Utils.merge []
              (List.filter (λ piece, negb (bool_decide (piece = []))) pieces)
            = [numeral a ++ [dash] ++ numeral b]) as Hmerge.
  { intros pieces [ -> | [ -> | -> ] ]; simpl.
    - rewrite bool_decide_false by by destruct (numeral a). done.
    - rewrite !bool_decide_false by done. simpl.
      unfold Utils.merge at 2. simpl. unfold Utils.merge. simpl.
      rewrite bool_decide_false by done. rewrite last_snoc.
      rewrite bool_decide_true by done. by rewrite <- app_assoc.
    - rewrite !bool_decide_false by done. simpl.
      unfold Utils.merge at 3. simpl. unfold Utils.merge at 2. simpl.
      unfold Utils.merge. simpl. rewrite bool_decide_false by done.
      rewrite last_snoc. rewrite bool_decide_true by done. by rewrite <- app_assoc. }
  apply Hmerge.
  destruct (list_ascii_of_string before) as [|c1 s1] eqn:Hs1;
    destruct (list_ascii_of_string after) as [|c2 s2] eqn:Hs2.
  - left. simpl. apply (Hend _ []); [by destruct (numeral a)|].
    apply Forall_app. split; [done|]. by constructor.
  - right. left. rewrite app_nil_l, (app_assoc (numeral a) [dash]).
    rewrite split_token by done.
    rewrite split_first_separator by done.
    by rewrite Hend.
  - destruct Hspaces as [Hspaces|Hspaces]; [|by destruct after].
    subst before. done.
  - right. right. rewrite split_token by done.
    rewrite split_first_separator by done.
    change (Utils.split ([dash] ++ (c2 :: s2) ++ numeral b) [] true)
      with (Utils.split ((c2 :: s2) ++ numeral b) [dash] false).
    rewrite split_first_separator by done.
    by rewrite Hend.
Qed.

Lemma splitDash_range :
  Utils.splitDash (numeral a ++ [dash] ++ numeral b) [] = [numeral a; numeral b].
Proof.
  destruct (numeral_token a) as (_ & _ & Hadash & _).
  destruct (numeral_token b) as (_ & _ & Hbdash & _).
  rewrite splitDash_digits by done. simpl. f_equal.
  pose proof (splitDash_digits (numeral b) [] [] Hbdash) as Hsplit.
  by rewrite app_nil_r in Hsplit.
Qed.

End Ranges.

(** X24.  A range [a-b], written with or without separators around the
    dash but not with one before it only, becomes the numbers from [a] to
    [b]; nothing if [a] or [b] is 0 or if [b] is [a - 1]; and the call
    throws the [RangeError] of [new Array] if [b] is lower still. *)
Theorem range_expands (a b : N) (before after : string) :
  (a < 10 ^ 15)%N → (b < 10 ^ 15)%N → (b - a < 4294967295)%N →
  separates before → separates after → before = "" ∨ after ≠ "" →
  Utils.numbersAndRangesToNumbers
    (Some (pretty a +:+ before +:+ "-" +:+ after +:+ pretty b))
  = Some (if bool_decide (a = 0 ∨ b = 0)%N then Ok []
          else if bool_decide (b + 1 < a)%N then Throw "Invalid array length"
          else Ok ((λ i, Some (Z.of_N a + Z.of_nat i)%Z)
                   <$> seq 0 (N.to_nat (b + 1 - a)))).
Proof.
  intros _ _ Hlength Hbefore Hafter Hspaces. unfold Utils.numbersAndRangesToNumbers.
  rewrite numbersOrRanges_range by done. f_equal. cbn [Utils.flatMap].
  unfold Utils.expand. rewrite splitDash_range.
  assert (existsb Utils.isDash (numeral a ++ ["-"%char] ++ numeral b) = true) as ->.
  { rewrite !existsb_app. simpl. by rewrite orb_true_r. }
  simpl.
  destruct (numeral_digits a) as (_ & _ & ->).
  destruct (numeral_digits b) as (_ & _ & ->).
  destruct (decide (a = 0 ∨ b = 0)%N) as [Hzero|Hzero].
  - rewrite (bool_decide_true (a = 0 ∨ b = 0)%N) by done.
    assert (bool_decide (Z.of_N a = 0)%Z || bool_decide (Z.of_N b = 0)%Z = true) as ->.
    { apply orb_true_iff. rewrite !bool_decide_eq_true. lia. }
    done.
  - rewrite (bool_decide_false (a = 0 ∨ b = 0)%N) by done.
    assert (bool_decide (Z.of_N a = 0)%Z || bool_decide (Z.of_N b = 0)%Z = false) as ->.
    { apply orb_false_iff. rewrite !bool_decide_eq_false. lia. }
    destruct (decide (b + 1 < a)%N) as [Hdown|Hup].
    + rewrite (bool_decide_true (b + 1 < a)%N) by done.
      rewrite (bool_decide_true (_ < 0)%Z) by lia. done.
    + rewrite (bool_decide_false (b + 1 < a)%N) by done.
      rewrite (bool_decide_false (_ < 0)%Z) by lia.
      rewrite (bool_decide_false (4294967295 < _)%Z) by lia. simpl.
      rewrite app_nil_r. do 3 f_equal. lia.
Qed.

Lemma range_expands_example :
  Utils.numbersAndRangesToNumbers (Some (pretty 2%N +:+ " " +:+ "-" +:+ " " +:+ pretty 4%N))
  = Some (if bool_decide (2 = 0 ∨ 4 = 0)%N then Ok []
          else if bool_decide (4 + 1 < 2)%N then Throw "Invalid array length"
          else Ok ((λ i, Some (Z.of_N 2 + Z.of_nat i)%Z)
                   <$> seq 0 (N.to_nat (4 + 1 - 2)))).
Proof.
  apply (range_expands 2 4 " " " ").
  - reflexivity.
  - reflexivity.
  - reflexivity.
  - by repeat constructor.
  - by repeat constructor.
  - by right.
Defined.

(** X25.  A separator before the dash and none after it loses the range:
    of [a -b] the number [a] is kept and [b] is dropped. *)
Theorem range_lost (a b : N) (before : string) :
  (a < 10 ^ 15)%N → (b < 10 ^ 15)%N →
  separates before → before ≠ "" →
  Utils.numbersAndRangesToNumbers (Some (pretty a +:+ before +:+ "-" +:+ pretty b))
  = Some (Ok [Some (Z.of_N a)]).
Proof.
  intros _ _ Hbefore Hne. unfold Utils.numbersAndRangesToNumbers, separates in *.
  f_equal. unfold Utils.numbersOrRanges.
  rewrite !list_ascii_of_string_app. fold (numeral a). fold (numeral b).
  change (list_ascii_of_string "-") with ["-"%char].
  destruct (numeral_token a) as (Ha & Hatoken & Hadash & _ & Halast).
  destruct (numeral_token b) as (Hb & Hbtoken & Hbdash & _ & _).
  destruct (numeral_digits a) as (_ & _ & Hapars).
  rewrite split_token by done.
  rewrite split_first_separator; [|by destruct before|done].
  rewrite <- (app_nil_r (["-"%char] ++ numeral b)).
  rewrite split_token; [|done|by constructor]. simpl.
  rewrite bool_decide_false by done. simpl.
  unfold Utils.merge at 2. simpl. unfold Utils.merge. simpl.
  rewrite bool_decide_false by (intros [= Heq]; by destruct (numeral b)).
  rewrite bool_decide_false by done. cbn [Utils.flatMap].
  unfold Utils.expand at 1.
  assert (existsb Utils.isDash (numeral a) = false) as ->.
  { apply not_true_iff_false. intros Hex. apply existsb_exists in Hex as (c & Hin & Hc).
    rewrite Forall_forall in Hadash. apply list_elem_of_In in Hin.
    by rewrite (Hadash c Hin) in Hc. }
  cbn [negb]. rewrite Hapars. unfold Utils.expand.
  cbn [existsb Utils.isDash Ascii.eqb Bool.eqb orb negb Utils.splitDash].
  pose proof (splitDash_digits (numeral b) [] [] Hbdash) as Hsplit.
  rewrite app_nil_r in Hsplit. rewrite Hsplit. done.
Qed.

Lemma range_lost_example :
  Utils.numbersAndRangesToNumbers (Some (pretty 1%N +:+ " " +:+ "-" +:+ pretty 3%N))
  = Some (Ok [Some (Z.of_N 1)]).
Proof.
  apply (range_lost 1 3 " ").
  - reflexivity.
  - reflexivity.
  - by repeat constructor.
  - done.
Defined.

(** ** The canonical string of a puzzle *)

Lemma pretty_N_go_chars (x : N) : ∀ s c,
  c ∈ list_ascii_of_string (pretty_N_go x s) →
  Utils.isDigit c = true ∨ c ∈ list_ascii_of_string s.
Proof.
  induction (N.lt_wf_0 x) as [x _ IH]. intros s c Hc.
  assert (x = 0 ∨ 0 < x)%N as [->|Hx] by lia.
  { rewrite pretty_N_go_0 in Hc. by right. }
  rewrite pretty_N_go_step in Hc by done.
  apply IH in Hc as [Hc|Hc]; [by left| |by apply N.div_lt].
  simpl in Hc. apply elem_of_cons in Hc as [->|Hc]; [|by right].
  left. apply pretty_N_char_digit. by apply N.mod_lt.
Qed.

(** The numeral of a layer is not empty and is made of digits and a minus
    sign. *)
Lemma pretty_Z_chars (z : Z) :
  pretty z ≠ ""
  ∧ ∀ c, c ∈ list_ascii_of_string (pretty z) → isTokenChar c = true.
Proof.
  assert (∀ p : positive,
            pretty p ≠ ""
            ∧ ∀ c, c ∈ list_ascii_of_string (pretty p) → isTokenChar c = true)
    as Hpositive.
  { intros p. unfold pretty, pretty_positive, pretty, pretty_N.
    rewrite decide_False by done. split.
    - by apply pretty_N_go_digits; [constructor|].
    - intros c Hc. apply pretty_N_go_chars in Hc as [Hc|Hc].
      + unfold isTokenChar. by rewrite Hc, orb_true_r.
      + by apply elem_of_nil in Hc. }
  destruct z as [|p|p]; unfold pretty, pretty_Z.
  - split; [done|]. intros c Hc. apply list_elem_of_singleton in Hc. by subst c.
  - apply Hpositive.
  - split; [done|]. intros c Hc. rewrite list_ascii_of_string_app in Hc.
    apply elem_of_app in Hc as [Hc|Hc]; [|by apply (Hpositive p)].
    apply list_elem_of_singleton in Hc. by subst c.
Qed.

Lemma append_separator_inj (c : ascii) (x x' r r' : string) :
  c ∉ list_ascii_of_string x → c ∉ list_ascii_of_string x' →
  x +:+ String c r = x' +:+ String c r' → x = x' ∧ r = r'.
Proof.
  revert x'. induction x as [|d x IH]; intros [|d' x'] Hx Hx'; simpl.
  - by intros [= ->].
  - intros [= <- _]. exfalso. apply Hx'. simpl. apply elem_of_cons. by left.
  - intros [= -> _]. exfalso. apply Hx. simpl. apply elem_of_cons. by left.
  - intros [= -> Heq]. apply IH in Heq as [-> ->]; [done| |].
    + intros Hin. apply Hx. simpl. apply elem_of_cons. by right.
    + intros Hin. apply Hx'. simpl. apply elem_of_cons. by right.
Qed.

Lemma append_separator_ne (c : ascii) (x x' r : string) :
  c ∉ list_ascii_of_string x → x ≠ x' +:+ String c r.
Proof.
  intros Hx ->. apply Hx. rewrite list_ascii_of_string_app. simpl.
  apply elem_of_app. right. apply elem_of_cons. by left.
Qed.

(** [join] with a one-character separator can be undone on items that are
    not empty and do not hold the separator. *)
Lemma join_inj (c : ascii) (items : list string) : ∀ items',
  Forall (λ item, item ≠ "" ∧ c ∉ list_ascii_of_string item) items →
  Forall (λ item, item ≠ "" ∧ c ∉ list_ascii_of_string item) items' →
  join (String c "") items = join (String c "") items' → items = items'.
Proof.
  unfold join.
  induction items as [|x items IH]; intros [|x' items'] Hitems Hitems'.
  - done.
  - apply Forall_cons in Hitems' as [[Hne Hx'] _].
    destruct items'; simpl; [by intros <-|]. by destruct x'.
  - apply Forall_cons in Hitems as [[Hne Hx] _].
    destruct items; simpl; [by intros ->|]. by destruct x.
  - apply Forall_cons in Hitems as [[Hne Hx] Hitems].
    apply Forall_cons in Hitems' as [[Hne' Hx'] Hitems'].
    destruct items as [|y items]; destruct items' as [|y' items'].
    + simpl. by intros ->.
    + intros Heq. exfalso. by eapply (append_separator_ne c x).
    + intros Heq. exfalso. symmetry in Heq. by eapply (append_separator_ne c x').
    + intros Heq. change (x +:+ String c (String.concat (String c "") (y :: items))
                          = x' +:+ String c (String.concat (String c "") (y' :: items')))
        in Heq.
      apply append_separator_inj in Heq as [-> Heq]; [|done..].
      f_equal. by apply IH.
Qed.

(** So it can on as many items that do not hold the separator, empty or
    not. *)
Lemma join_inj_length (c : ascii) (items : list string) : ∀ items',
  length items = length items' →
  Forall (λ item, c ∉ list_ascii_of_string item) items →
  Forall (λ item, c ∉ list_ascii_of_string item) items' →
  join (String c "") items = join (String c "") items' → items = items'.
Proof.
  unfold join.
  induction items as [|x items IH]; intros [|x' items'] Hlength Hitems Hitems';
    try done.
  apply Forall_cons in Hitems as [Hx Hitems].
  apply Forall_cons in Hitems' as [Hx' Hitems'].
  destruct items as [|y items]; destruct items' as [|y' items']; try done.
  - simpl. by intros ->.
  - intros Heq. change (x +:+ String c (String.concat (String c "") (y :: items))
                        = x' +:+ String c (String.concat (String c "") (y' :: items')))
      in Heq.
    apply append_separator_inj in Heq as [-> Heq]; [|done..].
    f_equal. apply IH; [|done..]. simpl in Hlength. simpl. lia.
Qed.

Lemma toString_chars (layers : list Z) :
  ∀ c, c ∈ list_ascii_of_string (Flask.toString layers) →
       isTokenChar c = true ∨ c = ","%char.
Proof.
  unfold Flask.toString, join.
  induction layers as [|layer layers IH]; intros c Hc; [by apply elem_of_nil in Hc|].
  destruct layers as [|layer' layers].
  - left. by apply (pretty_Z_chars layer).
  - change (c ∈ list_ascii_of_string
                (pretty layer +:+ String "," (String.concat "," (pretty <$> layer' :: layers))))
      in Hc.
    rewrite list_ascii_of_string_app in Hc. apply elem_of_app in Hc as [Hc|Hc].
    + left. by apply (pretty_Z_chars layer).
    + simpl in Hc. apply elem_of_cons in Hc as [->|Hc]; [by right|]. by apply IH.
Qed.

(** [Flask.toString] tells flasks apart. *)
Lemma toString_inj (layers layers' : list Z) :
  Flask.toString layers = Flask.toString layers' → layers = layers'.
Proof.
  unfold Flask.toString. intros Heq.
  assert (∀ l : list Z,
            Forall (λ item, item ≠ "" ∧ ","%char ∉ list_ascii_of_string item)
              (pretty <$> l)) as Hitems.
  { intros l. apply Forall_fmap, Forall_forall. intros z _. simpl.
    destruct (pretty_Z_chars z) as [Hne Hchars]. split; [done|].
    intros Hin. by apply Hchars in Hin. }
  apply join_inj in Heq; [|done..].
  by apply (inj (fmap pretty)) in Heq.
Qed.

(** X26.  The canonical string tells layouts apart: two puzzles with as
    many flasks have the same sorted string only if one has the flasks of
    the other in some order, so the set of visited fingerprints takes two
    layouts for one only when they are such, or when MD5 collides. *)
Theorem toStringWithSort_inj (flasks flasks' : list (list Z)) :
  length flasks = length flasks' →
  Puzzle.toStringWithSort flasks = Puzzle.toStringWithSort flasks' →
  flasks ≡ₚ flasks'.
Proof.
  intros Hlength Heq. unfold Puzzle.toStringWithSort in Heq.
  assert (∀ l : list (list Z), sort (Flask.toString <$> l) ≡ₚ Flask.toString <$> l)
    as Hsort.
  { intros l. unfold sort. apply merge_sort_Permutation. }
  assert (sort (Flask.toString <$> flasks) = sort (Flask.toString <$> flasks')) as Hsorted.
  { assert (∀ l : list (list Z),
              Forall (λ item, ascii_of_nat 10 ∉ list_ascii_of_string item)
                (sort (Flask.toString <$> l))) as Hitems.
    { intros l. rewrite Hsort. apply Forall_fmap, Forall_forall. intros layers _.
      simpl. intros Hin. by apply toString_chars in Hin as [Hin|Hin]. }
    apply (join_inj_length (ascii_of_nat 10)); [|done..].
    by rewrite !Hsort, !length_fmap. }
  assert (Flask.toString <$> flasks ≡ₚ Flask.toString <$> flasks') as Hperm.
  { by rewrite <- (Hsort flasks), Hsorted, Hsort. }
  apply Permutation_map_inv in Hperm as (flasks'' & Heq' & Hperm).
  assert (flasks = flasks'') as ->; [|by symmetry].
  revert Heq'. clear. revert flasks''.
  induction flasks as [|flask flasks IH]; intros [|flask' flasks'']; simpl; try done.
  intros [= Hflask Hrest]. f_equal; [by apply toString_inj|by apply IH].
Qed.

Lemma toStringWithSort_inj_example : [[1; 2]; []; [3]]%Z ≡ₚ [[3]; [1; 2]; []]%Z.
Proof. apply toStringWithSort_inj; reflexivity. Defined.

(** ** Solved puzzles *)

Lemma isInFinalState_spec (FlaskCapacity : nat) (layers : list Z) :
  Flask.isInFinalState FlaskCapacity layers = true
  ↔ layers = [] ∨ ∃ color, layers = replicate FlaskCapacity color.
Proof.
  split.
  - intros Hfinal. destruct (decide (layers = [])) as [->|Hne]; [by left|].
    right. destruct (isInFinalState_replicate _ _ Hfinal Hne) as (color & -> & _).
    by exists color.
  - intros [->|[color ->]]; [done|].
    unfold Flask.isInFinalState, Flask.isEmpty, Flask.isFull.
    rewrite length_replicate. destruct FlaskCapacity as [|n]; [done|].
    rewrite (bool_decide_true (S n = S n)) by done. simpl.
    rewrite (bool_decide_true (Some color = Some color)) by done. simpl.
    apply forallb_forall. intros x Hx. apply bool_decide_eq_true.
    apply list_elem_of_In, elem_of_replicate in Hx as [-> _]. done.
Qed.

(** X27.  [isSolved] is true exactly of the puzzles each flask of which is
    empty or holds [FlaskCapacity] layers of one colour. *)
Theorem isSolved_spec (FlaskCapacity : nat) (flasks : list (list Z)) :
  Puzzle.isSolved FlaskCapacity flasks = true
  ↔ Forall (λ flask, flask = [] ∨ ∃ color, flask = replicate FlaskCapacity color) flasks.
Proof.
  unfold Puzzle.isSolved. rewrite negb_true_iff, <- not_true_iff_false.
  rewrite existsb_exists, Forall_forall. split.
  - intros Hnone flask Hin. apply isInFinalState_spec.
    destruct (Flask.isInFinalState FlaskCapacity flask) eqn:Hfinal; [done|].
    exfalso. apply Hnone. exists flask. split; [by apply list_elem_of_In|].
    by rewrite Hfinal.
  - intros Hall (flask & Hin & Hfinal). apply list_elem_of_In, Hall in Hin.
    apply isInFinalState_spec in Hin. by rewrite Hin in Hfinal.
Qed.

Lemma isSolved_spec_example :
  Puzzle.isSolved 2 [[1; 1]; []]%Z = true
  ↔ Forall (λ flask, flask = [] ∨ ∃ color, flask = replicate 2 color) [[1; 1]; []]%Z.
Proof. apply (isSolved_spec 2 [[1; 1]; []]%Z). Defined.
